(** * Order statistics: quantile derivation, goodness-of-fit test, quantizer

    A shallow embedding of [Infovis/vtkOrderStatistics.cxx]
    ([Learn], [Derive], [Test], the three quantizer functors and
    [SelectAssessFunctor]) and the properties checked on it.

    The source is embedded twice.
    - The first embedding takes a [double] for a rational of [Q], with
      exact arithmetic and [x / 0 = 0].  It carries the properties
      whose statements do not speak of a value computed in doubles: the
      order of the scans, the tables and blocks that are read and
      written, the strings, the integer counts and ranks.
    - The second embedding, the module [Binary64], takes a [double] for
      an IEEE 754 binary64 number as [PrimFloat] computes it, with its
      rounding, its infinities and its NaN.  It carries the properties
      that speak of a value computed in doubles: the targets of the
      rank search, the probabilities, the breakpoints, the labels, the
      empirical and the model CDF.

    Conventions common to both embeddings.
    - [vtkIdType] and [int] values are integers of [Z].
    - An array is a list; a table is a list of named columns; a
      multi-block data set is a list of named blocks.  Every column of
      a [vtkTable] has one cell per row of the table, so a loop over the
      rows of a column visits the cells of the column.
    - [std::map] is an association list kept in ascending key order,
      because the source iterates it in that order. *)

From Stdlib Require Import ZArith QArith Qround Qabs String Ascii List Bool Lia Lqa.
From Stdlib Require Import Sorting.Sorted OrderedTypeEx DecimalString.
From Stdlib Require Floats.
Import ListNotations.

Local Open Scope string_scope.
Local Open Scope Z_scope.

(** ** Numbers *)

Definition double := Q.

(** [ceil], [floor] and [round] of <math.h>, followed by the cast to
    [vtkIdType].  [round] sends halves away from zero. *)
Definition ceil (x : double) : Z := Qceiling x.

Definition floor (x : double) : Z := Qfloor x.

Definition round (x : double) : Z :=
  if Qle_bool 0 x then Qfloor (x + (1 # 2)) else Qceiling (x - (1 # 2)).

(** A cast of a [double] to an integer type truncates toward zero. *)
Definition truncate (x : double) : Z :=
  if Qle_bool 0 x then Qfloor x else Qceiling x.

(** [a < b] and [a > b] on doubles. *)
Definition double_lt (a b : double) : bool := negb (Qle_bool b a).

(** ** Arrays, tables and multi-block data sets *)

(** A [vtkVariant] as the tables of this file hold them. *)
Inductive vtkVariant : Type :=
| VariantDouble (d : double)
| VariantIdType (i : Z)
| VariantString (s : string).

(** The array classes the source tells apart with [IsA].  Both
    [vtkDoubleArray] and [vtkIdTypeArray] are [vtkDataArray]s. *)
Inductive vtkAbstractArray : Type :=
| vtkDoubleArray (a : list double)
| vtkIdTypeArray (a : list Z)
| vtkStringArray (a : list string)
| vtkVariantArray (a : list vtkVariant)
| vtkOtherArray.

Definition IsA_vtkDataArray (a : vtkAbstractArray) : bool :=
  match a with
  | vtkDoubleArray _ | vtkIdTypeArray _ => true
  | _ => false
  end.

(** The tuples of a [vtkDataArray] as [GetTuple1] returns them. *)
Definition tuples (a : vtkAbstractArray) : option (list double) :=
  match a with
  | vtkDoubleArray d => Some d
  | vtkIdTypeArray d => Some (map inject_Z d)
  | _ => None
  end.

Definition vtkTable := list (string * vtkAbstractArray).

Fixpoint GetColumnByName (t : vtkTable) (name : string) : option vtkAbstractArray :=
  match t with
  | [] => None
  | (c, a) :: t' => if String.eqb c name then Some a else GetColumnByName t' name
  end.

Definition GetNumberOfTuples (a : vtkAbstractArray) : Z :=
  match a with
  | vtkDoubleArray d => Z.of_nat (length d)
  | vtkIdTypeArray d => Z.of_nat (length d)
  | vtkStringArray d => Z.of_nat (length d)
  | vtkVariantArray d => Z.of_nat (length d)
  | vtkOtherArray => 0
  end.

Definition GetNumberOfRows (t : vtkTable) : Z :=
  match t with
  | [] => 0
  | (_, a) :: _ => GetNumberOfTuples a
  end.

(** [AddColumn], and the replacement of a column that is already there
    (the source then writes into the existing array). *)
Fixpoint SetColumn (t : vtkTable) (name : string) (a : vtkAbstractArray) : vtkTable :=
  match t with
  | [] => [(name, a)]
  | (c, old) :: t' =>
      if String.eqb c name then (c, a) :: t' else (c, old) :: SetColumn t' name a
  end.

(** A block of a [vtkMultiBlockDataSet]: [SafeDownCast] to [vtkTable]
    succeeds on [TableBlock] only. *)
Inductive vtkDataObject : Type :=
| TableBlock (t : vtkTable)
| OtherBlock
| NullBlock.

(** Blocks with the [NAME] entry of their meta data. *)
Definition vtkMultiBlockDataSet := list (string * vtkDataObject).

Definition SafeDownCast_vtkTable (b : vtkDataObject) : option vtkTable :=
  match b with
  | TableBlock t => Some t
  | _ => None
  end.

(** ** Quantizers (assess functors) *)

(** The three functor classes have the same body, over [double],
    [vtkStdString] and [vtkVariant]; [less] is [operator<] of the value
    type and [a > b] is [less b a]. *)
Class Less (V : Type) : Type := less : V -> V -> bool.

#[global] Instance double_Less : Less double := double_lt.

#[global] Instance string_Less : Less string := String.ltb.

Section Quantizer.

Context {V : Type} `{Less V}.

(** [while ( q < n && val > Quantiles[q] ) ++ q;] run for at most [fuel]
    iterations; [n - q] iterations are enough. *)
Fixpoint quantizer_scan (fuel : nat) (Quantiles : list V) (val : V) (q : Z) : Z :=
  match fuel with
  | O => q
  | S fuel' =>
      match nth_error Quantiles (Z.to_nat q) with
      | Some b =>
          if (q <? Z.of_nat (length Quantiles)) && less b val
          then quantizer_scan fuel' Quantiles val (q + 1)
          else q
      | None => q
      end
  end.

(** [operator()]: the value stored in [result].  [None] when the
    functor reads [Quantiles[0]] of an empty array. *)
Definition quantize (Quantiles : list V) (val : V) : option Z :=
  match Quantiles with
  | [] => None
  | q0 :: _ =>
      if less val q0 then Some 0
      else Some (quantizer_scan (length Quantiles) Quantiles val 1)
  end.

End Quantizer.

Definition DataArrayQuantizer (Quantiles : list double) (dval : double) : option Z :=
  quantize Quantiles dval.


(** ** Results of partial steps

    What a step of [Derive] or [Test] comes to. *)
Inductive result (A : Type) : Type :=
| Ok (a : A)
| InconsistentTable   (* vtkErrorMacro of the rank loops, then [return] *)
| OutOfBounds         (* a value array is read outside its tuples *)
| Unfinished.         (* the fuel of a loop ran out *)

Arguments Ok {A} a.
Arguments InconsistentTable {A}.
Arguments OutOfBounds {A}.
Arguments Unfinished {A}.

Definition bind {A B : Type} (r : result A) (f : A -> result B) : result B :=
  match r with
  | Ok a => f a
  | InconsistentTable => InconsistentTable
  | OutOfBounds => OutOfBounds
  | Unfinished => Unfinished
  end.

Notation "x <- r ;; k" := (bind r (fun x => k))
  (at level 61, r at next level, right associativity).

(** A read of a value array; outside its tuples the behaviour is not
    defined. *)
Definition get {A : Type} (a : list A) (i : Z) : result A :=
  if i <? 0 then OutOfBounds
  else
    match nth_error a (Z.to_nat i) with
    | Some x => Ok x
    | None => OutOfBounds
    end.

Fixpoint map_result {A B : Type} (f : A -> result B) (l : list A) : result (list B) :=
  match l with
  | [] => Ok []
  | x :: l' =>
      y <- f x ;;
      ys <- map_result f l' ;;
      Ok (y :: ys)
  end.

(** ** Derive: labels of the quantile table *)

Inductive QuantileDefinitionType : Type :=
| InverseCDF
| InverseCDFAveragedSteps.

(** A 32-bit [int] after an operation that may leave its range. *)
Definition int_wrap (z : Z) : Z := (z + 2 ^ 31) mod 2 ^ 32 - 2 ^ 31.

Section WithToString.

(** [vtkVariant::ToString] on a [double] belongs to vtkVariant.cxx, which
    is not among the sources: the formatting of doubles is a parameter. *)
Variable DoubleToString : double -> string.

Definition ToString (v : vtkVariant) : string :=
  match v with
  | VariantDouble d => DoubleToString d
  | VariantIdType i => DecimalString.NilZero.string_of_int (Z.to_int i)
  | VariantString s => s
  end.

Definition generic_label (NumberOfIntervals i : Z) : string :=
  let dq := (1 / inject_Z NumberOfIntervals)%Q in
  ToString (VariantDouble (inject_Z i * dq)%Q) ++ "-quantile".

(** The body of the labelling loop: [div( i << 2, NumberOfIntervals )]
    truncates toward zero. *)
Definition quantile_label (NumberOfIntervals i : Z) : string :=
  let num := int_wrap (Z.shiftl i 2) in
  let quot := Z.quot num NumberOfIntervals in
  let rem := Z.rem num NumberOfIntervals in
  if negb (rem =? 0) then generic_label NumberOfIntervals i
  else
    match quot with
    | 0 => "Minimum"
    | 1 => "First Quartile"
    | 2 => "Median"
    | 3 => "Third Quartile"
    | 4 => "Maximum"
    | _ => generic_label NumberOfIntervals i
    end.

(** [for ( int i = 0; i <= NumberOfIntervals; ++ i )]. *)
Definition quantile_labels (NumberOfIntervals : Z) : list string :=
  map (fun i => quantile_label NumberOfIntervals (Z.of_nat i))
      (seq 0 (Z.to_nat (NumberOfIntervals + 1))).

(** ** Derive: cardinality, CDF and quantile indices of one histogram *)

(** [n += c; cdf[r] = n;] over the rows after the first. *)
Fixpoint running_sums (n : Z) (card : list Z) : list Z :=
  match card with
  | [] => []
  | c :: card' => (n + c) :: running_sums (n + c) card'
  end.

(** The counts the two loops over [r = 1 .. nRowHist - 1] read. *)
Definition entry_counts (nRowHist : Z) (card : list Z) : list Z :=
  tl (firstn (Z.to_nat nRowHist) card).

Definition total_count (counts : list Z) : Z := fold_left Z.add counts 0.

(** The CDF array.  [cdf] is allocated with [nRowHist] cells; cells
    [1 .. nRowHist - 1] receive the running sums.  Cell [0] is never
    written and the cells from [nRowHist] on lie outside the allocation:
    what a read finds there is given by [heap]. *)
Record cdf_array : Type := mk_cdf {
  cdf_sums : list Z;
  cdf_heap : Z -> Z
}.

Definition cdf_get (cdf : cdf_array) (rank : Z) : Z :=
  if 1 <=? rank then
    match nth_error (cdf_sums cdf) (Z.to_nat (rank - 1)) with
    | Some c => c
    | None => cdf_heap cdf rank
    end
  else cdf_heap cdf rank.

(** A read of [cdf[rank]] stays inside the allocation. *)
Definition cdf_in_bounds (nRowHist rank : Z) : bool :=
  (0 <=? rank) && (rank <? nRowHist).

(** [while ( qIdx > cdf[rank] ) { ++ rank; if ( rank > nRowHist ) error }]. *)
Fixpoint advance (fuel : nat) (cdf : cdf_array) (nRowHist qIdx rank : Z) : result Z :=
  match fuel with
  | O => Unfinished
  | S fuel' =>
      if qIdx >? cdf_get cdf rank then
        let rank' := rank + 1 in
        if rank' >? nRowHist then InconsistentTable
        else advance fuel' cdf nRowHist qIdx rank'
      else Ok rank
  end.

(** The loop leaves after at most [nRowHist - rank + 1] tests. *)
Definition advance_rank (cdf : cdf_array) (nRowHist qIdx rank : Z) : result Z :=
  advance (S (Z.to_nat (nRowHist - rank + 1))) cdf nRowHist qIdx rank.

Definition first_quantile_index (QuantileDefinition : QuantileDefinitionType)
    (np : double) : Z :=
  match QuantileDefinition with
  | InverseCDFAveragedSteps => round np
  | InverseCDF => ceil np
  end.

(** The body of the loop over the interior quantiles, for one [k]: the
    pair of ranks and the rank cursor it leaves. *)
Definition interior_quantile (QuantileDefinition : QuantileDefinitionType)
    (cdf : cdf_array) (nRowHist : Z) (dh : double) (rank k : Z) : result (Z * Z) :=
  let np := (inject_Z k * dh)%Q in
  let qIdx1 := first_quantile_index QuantileDefinition np in
  rank1 <- advance_rank cdf nRowHist qIdx1 rank ;;
  match QuantileDefinition with
  | InverseCDFAveragedSteps =>
      let qIdx2 := floor (np + 1)%Q in
      if negb (qIdx1 =? qIdx2) then
        rank2 <- advance_rank cdf nRowHist qIdx2 rank1 ;;
        Ok (rank1, rank2)
      else Ok (rank1, rank1)
  | InverseCDF => Ok (rank1, rank1)
  end.

(** [for ( k = 1; k < NumberOfIntervals; ++ k )], the cursor [rank]
    running through all iterations. *)
Fixpoint interior_quantiles (QuantileDefinition : QuantileDefinitionType)
    (cdf : cdf_array) (nRowHist : Z) (dh : double) (rank : Z) (ks : list Z)
    : result (list (Z * Z)) :=
  match ks with
  | [] => Ok []
  | k :: ks' =>
      p <- interior_quantile QuantileDefinition cdf nRowHist dh rank k ;;
      rest <- interior_quantiles QuantileDefinition cdf nRowHist dh (snd p) ks' ;;
      Ok (p :: rest)
  end.

Definition interior_ks (NumberOfIntervals : Z) : list Z :=
  map Z.of_nat (seq 1 (Z.to_nat (NumberOfIntervals - 1))).

(** [quantileIndices] of one histogram. *)
Definition quantile_indices (QuantileDefinition : QuantileDefinitionType)
    (NumberOfIntervals : Z) (cdf : cdf_array) (nRowHist n : Z)
    : result (list (Z * Z)) :=
  let dh := (inject_Z n / inject_Z NumberOfIntervals)%Q in
  interior <- interior_quantiles QuantileDefinition cdf nRowHist dh 1
                (interior_ks NumberOfIntervals) ;;
  Ok ((1, 1) :: interior ++ [(nRowHist - 1, nRowHist - 1)])%list.

(** ** Derive: quantile values and the loop over the blocks *)

(** [Qp] of a numeric column for one pair of ranks. *)
Definition interpolate (QuantileDefinition : QuantileDefinitionType)
    (dvals : list double) (qit : Z * Z) : result double :=
  match QuantileDefinition with
  | InverseCDFAveragedSteps =>
      a <- get dvals (fst qit) ;;
      b <- get dvals (snd qit) ;;
      Ok ((1 # 2) * (a + b))%Q
  | InverseCDF => get dvals (fst qit)
  end.

(** The quantile column of one variable, of the same array type as the
    histogram values; [Ok None] is the warning for an unsupported type,
    followed by [continue]. *)
Definition quantile_values (QuantileDefinition : QuantileDefinitionType)
    (vals : vtkAbstractArray) (quantileIndices : list (Z * Z))
    : result (option vtkAbstractArray) :=
  match vals with
  | vtkDoubleArray dvals =>
      Qps <- map_result (interpolate QuantileDefinition dvals) quantileIndices ;;
      Ok (Some (vtkDoubleArray Qps))
  | vtkIdTypeArray ivals =>
      Qps <- map_result (interpolate QuantileDefinition (map inject_Z ivals))
               quantileIndices ;;
      Ok (Some (vtkIdTypeArray (map truncate Qps)))
  | vtkStringArray svals =>
      Qps <- map_result (fun qit => get svals (fst qit)) quantileIndices ;;
      Ok (Some (vtkStringArray Qps))
  | vtkVariantArray vvals =>
      Qps <- map_result (fun qit => get vvals (fst qit)) quantileIndices ;;
      Ok (Some (vtkVariantArray Qps))
  | vtkOtherArray => Ok None
  end.

Definition set_first {A : Type} (x : A) (l : list A) : list A :=
  match l with
  | [] => []
  | _ :: l' => x :: l'
  end.

(** One pass of the loop over the blocks, for a block that is a table.
    The table is updated in place (cardinality in row 0, column "P")
    before the quantile indices are sought, so the updated table is
    returned whatever comes of them.  A table without a "Value" column or
    without a [vtkIdTypeArray] "Cardinality" column makes the source
    dereference a null pointer: [OutOfBounds]. *)
Definition derive_histogram (QuantileDefinition : QuantileDefinitionType)
    (NumberOfIntervals : Z) (heap : Z -> Z) (histogramTab : vtkTable)
    : vtkTable * result (option vtkAbstractArray) :=
  match GetColumnByName histogramTab "Value",
        GetColumnByName histogramTab "Cardinality" with
  | Some vals, Some (vtkIdTypeArray card) =>
      let nRowHist := GetNumberOfRows histogramTab in
      let counts := entry_counts nRowHist card in
      let n := total_count counts in
      let cdf := mk_cdf (running_sums 0 counts) heap in
      let inv_n := (1 / inject_Z n)%Q in
      let P := (- (1))%Q :: map (fun c => inv_n * inject_Z c)%Q counts in
      let tab1 := SetColumn histogramTab "Cardinality" (vtkIdTypeArray (set_first n card)) in
      let tab2 := SetColumn tab1 "P" (vtkDoubleArray P) in
      (tab2,
       quantileIndices <- quantile_indices QuantileDefinition NumberOfIntervals
                            cdf nRowHist n ;;
       if Z.of_nat (length quantileIndices) <=? NumberOfIntervals + 1
       then quantile_values QuantileDefinition vals quantileIndices
       else OutOfBounds)
  | _, _ => (histogramTab, OutOfBounds)
  end.

(** [for ( b = 0; b < nBlocks; ++ b )]: the blocks as the loop leaves
    them, and the quantile table when the loop reaches its end.  [heap b]
    is the memory around the CDF array of block [b]. *)
Fixpoint derive_blocks (QuantileDefinition : QuantileDefinitionType)
    (NumberOfIntervals : Z) (heap : Z -> Z -> Z) (b : Z)
    (blocks : vtkMultiBlockDataSet) (quantileTab : vtkTable)
    : vtkMultiBlockDataSet * result vtkTable :=
  match blocks with
  | [] => ([], Ok quantileTab)
  | (varName, block) :: rest =>
      match SafeDownCast_vtkTable block with
      | None =>
          let (rest', r) := derive_blocks QuantileDefinition NumberOfIntervals heap
                              (b + 1) rest quantileTab in
          ((varName, block) :: rest', r)
      | Some histogramTab =>
          let (histogramTab', r) :=
            derive_histogram QuantileDefinition NumberOfIntervals (heap b) histogramTab in
          match r with
          | Ok quantCol =>
              let quantileTab' :=
                match quantCol with
                | Some col => SetColumn quantileTab varName col
                | None => quantileTab
                end in
              let (rest', r') := derive_blocks QuantileDefinition NumberOfIntervals heap
                                   (b + 1) rest quantileTab' in
              ((varName, TableBlock histogramTab') :: rest', r')
          | InconsistentTable =>
              ((varName, TableBlock histogramTab') :: rest, InconsistentTable)
          | OutOfBounds =>
              ((varName, TableBlock histogramTab') :: rest, OutOfBounds)
          | Unfinished =>
              ((varName, TableBlock histogramTab') :: rest, Unfinished)
          end
      end
  end.

(** [Derive]: the model as the call leaves it, and how the call ended:
    [Ok tt] when it ran to a [return] without error,
    [InconsistentTable] when it left through the [vtkErrorMacro] of a
    rank loop. *)
Definition Derive (QuantileDefinition : QuantileDefinitionType)
    (NumberOfIntervals : Z) (heap : Z -> Z -> Z)
    (inMeta : option vtkMultiBlockDataSet)
    : option vtkMultiBlockDataSet * result unit :=
  match inMeta with
  | None => (None, Ok tt)
  | Some blocks =>
      if Z.of_nat (length blocks) <? 1 then (Some blocks, Ok tt)
      else
        let quantileTab :=
          [("Quantile", vtkStringArray (quantile_labels NumberOfIntervals))] in
        match derive_blocks QuantileDefinition NumberOfIntervals heap 0
                blocks quantileTab with
        | (blocks', Ok quantileTab') =>
            (Some (blocks' ++ [("Quantiles", TableBlock quantileTab')])%list, Ok tt)
        | (blocks', InconsistentTable) => (Some blocks', InconsistentTable)
        | (blocks', OutOfBounds) => (Some blocks', OutOfBounds)
        | (blocks', Unfinished) => (Some blocks', Unfinished)
        end
  end.

(** ** Test: empirical CDF, merge with the quantiles, maximum distance *)

(** [std::map<vtkStdString,double>]: entries in ascending order of the
    keys, compared as [std::string]s (byte by byte, a proper prefix
    first). *)
Definition CDF := list (string * double).

(** The cells of a column as [GetValueByName] returns them. *)
Definition variants (a : vtkAbstractArray) : list vtkVariant :=
  match a with
  | vtkDoubleArray d => map VariantDouble d
  | vtkIdTypeArray d => map VariantIdType d
  | vtkStringArray d => map VariantString d
  | vtkVariantArray d => d
  | vtkOtherArray => []
  end.

(** [cdf[key] += x]: [operator[]] creates the entry with value 0. *)
Fixpoint map_add (cdf : CDF) (key : string) (x : double) : CDF :=
  match cdf with
  | [] => [(key, (0 + x)%Q)]
  | (k, v) :: cdf' =>
      match String.compare key k with
      | Lt => (key, (0 + x)%Q) :: cdf
      | Eq => (k, (v + x)%Q) :: cdf'
      | Gt => (k, v) :: map_add cdf' key x
      end
  end.

(** The empirical PDF: one pass over the observations. *)
Definition empirical_pdf (inv_card : double) (observations : list string) : CDF :=
  fold_left (fun cdf o => map_add cdf o inv_card) observations [].

(** [sum += cit->second; cit->second = sum;] from [begin()] to [end()];
    the integrated map and the final [sum]. *)
Fixpoint integrate (sum : double) (cdf : CDF) : CDF * double :=
  match cdf with
  | [] => ([], sum)
  | (k, v) :: cdf' =>
      let sum' := (sum + v)%Q in
      let (rest, total) := integrate sum' cdf' in
      ((k, sum') :: rest, total)
  end.

(** [insert( pair( quantile, -1 ) )] followed by the repair of a new
    entry: 0 at [begin()], the value of the predecessor otherwise.
    [pred] is the value of the entry before the current position. *)
Fixpoint insert_quantile (pred : option double) (cdf : CDF) (quantile : string) : CDF :=
  let inherited := match pred with Some p => p | None => 0%Q end in
  match cdf with
  | [] => [(quantile, inherited)]
  | (k, v) :: cdf' =>
      match String.compare quantile k with
      | Lt => (quantile, inherited) :: cdf
      | Eq => cdf
      | Gt => (k, v) :: insert_quantile (Some v) cdf' quantile
      end
  end.

Definition insert_quantiles (cdf : CDF) (quantiles : list string) : CDF :=
  fold_left (insert_quantile None) quantiles cdf.

(** [a >= b] on [vtkStdString]. *)
Definition string_ge (a b : string) : bool := negb (String.ltb a b).

(** [while ( currentQ < nQuant && key >= quantiles[currentQ] ) ++ currentQ;] *)
Fixpoint advance_quantile (fuel : nat) (quantiles : list string) (nQuant : Z)
    (key : string) (currentQ : Z) : result Z :=
  match fuel with
  | O => Unfinished
  | S fuel' =>
      if currentQ <? nQuant then
        q <- get quantiles currentQ ;;
        if string_ge key q
        then advance_quantile fuel' quantiles nQuant key (currentQ + 1)
        else Ok currentQ
      else Ok currentQ
  end.

Record walk_state : Type := mk_walk {
  currentQ : Z;
  mcdf : double;
  Dmn : double
}.

(** The body of the loop over the CDF jump values, for one entry. *)
Definition walk_step (quantiles : list string) (nQuant : Z) (inv_nq : double)
    (st : walk_state) (cit : string * double) : result walk_state :=
  q0 <- get quantiles 0 ;;
  model <-
    (if string_ge (fst cit) q0 then
       q <- advance_quantile (S (Z.to_nat (nQuant - currentQ st)))
              quantiles nQuant (fst cit) (currentQ st) ;;
       Ok (q, (inject_Z q * inv_nq)%Q)
     else Ok (currentQ st, mcdf st)) ;;
  let d := Qabs (snd cit - snd model) in
  Ok (mk_walk (fst model) (snd model)
              (if double_lt (Dmn st) d then d else Dmn st)).

(** The loop itself; the state is recorded after each entry, so that
    the model CDF at every point of the walk can be spoken of. *)
Fixpoint walk (quantiles : list string) (nQuant : Z) (inv_nq : double)
    (st : walk_state) (cdfEmpirical : CDF) : result (list walk_state) :=
  match cdfEmpirical with
  | [] => Ok []
  | cit :: rest =>
      st' <- walk_step quantiles nQuant inv_nq st cit ;;
      sts <- walk quantiles nQuant inv_nq st' rest ;;
      Ok (st' :: sts)
  end.

Definition initial_walk : walk_state := mk_walk 0 0%Q 0%Q.

(** [sqrt] of <math.h>. *)
Variable sqrt : double -> double.

(** The empirical CDF of a column, before the quantiles are merged in,
    and the sum the sanity check looks at. *)
Definition empirical_cdf (inv_card : double) (observations : list string) : CDF * double :=
  integrate 0%Q (empirical_pdf inv_card observations).

(** One pass of the loop over the requests: the row of the output, or
    [None] after a warning and [continue]. *)
Definition test_request (inData quantileTab : vtkTable) (request : list string)
    : result (option (string * double * double)) :=
  let nQuant := GetNumberOfRows quantileTab in
  let nRowData := GetNumberOfRows inData in
  let inv_nq := (1 / inject_Z nQuant)%Q in
  let inv_card := (1 / inject_Z nRowData)%Q in
  let sqrt_card := sqrt (inject_Z nRowData) in
  match request with
  | [] => OutOfBounds
  | varName :: _ =>
      match GetColumnByName inData varName with
      | None => Ok None
      | Some col =>
          match GetColumnByName quantileTab varName with
          | None => Ok None
          | Some quantCol =>
              let observations := map ToString (variants col) in
              let (cdfEmpirical, sum) := empirical_cdf inv_card observations in
              if double_lt (1 # 1000000) (Qabs (sum - 1))
              then Ok None
              else
                let quantiles := map ToString (variants quantCol) in
                let merged := insert_quantiles cdfEmpirical quantiles in
                sts <- walk quantiles nQuant inv_nq initial_walk merged ;;
                let D := Dmn (last sts initial_walk) in
                Ok (Some (varName, D, (sqrt_card * D)%Q))
          end
      end
  end.

Fixpoint test_requests (inData quantileTab : vtkTable) (Requests : list (list string))
    : result (list (string * double * double)) :=
  match Requests with
  | [] => Ok []
  | request :: rest =>
      row <- test_request inData quantileTab request ;;
      rows <- test_requests inData quantileTab rest ;;
      Ok (match row with Some r => r :: rows | None => rows end)
  end.

(** [Test]: the output table as the call leaves it. *)
Definition Test (Requests : list (list string)) (inData : vtkTable)
    (inMeta : option vtkMultiBlockDataSet) (outMeta : option vtkTable)
    : result (option vtkTable) :=
  match inMeta with
  | None => Ok outMeta
  | Some blocks =>
      let nBlocks := Z.of_nat (length blocks) in
      if nBlocks <? 1 then Ok outMeta
      else
        match nth_error blocks (Z.to_nat (nBlocks - 1)) with
        | None => Ok outMeta
        | Some (name, block) =>
            match SafeDownCast_vtkTable block with
            | None => Ok outMeta
            | Some quantileTab =>
                if negb (String.eqb name "Quantiles") then Ok outMeta
                else
                  match outMeta with
                  | None => Ok None
                  | Some out =>
                      rows <- test_requests inData quantileTab Requests ;;
                      let nameCol := vtkStringArray (map (fun r => fst (fst r)) rows) in
                      let distCol := vtkDoubleArray (map (fun r => snd (fst r)) rows) in
                      let statCol := vtkDoubleArray (map snd rows) in
                      Ok (Some (SetColumn
                                  (SetColumn
                                     (SetColumn out "Variable" nameCol)
                                     "Maximum Distance" distCol)
                                  "Kolmogorov-Smirnov" statCol))
                  end
            end
        end
  end.

(** ** SelectAssessFunctor *)

(** The functor objects with the two arrays they hold. *)
Inductive AssessFunctor : Type :=
| NewDataArrayQuantizer (Data Quantiles : list double)
| NewStringArrayQuantizer (Data Quantiles : list string)
| NewVariantArrayQuantizer (Data Quantiles : list vtkVariant).

(** [dfunc] as the call leaves it; [None] is the null pointer set on
    entry. *)
Definition SelectAssessFunctor (outData : vtkTable)
    (inMeta : option vtkMultiBlockDataSet) (rowNames : list string)
    : result (option AssessFunctor) :=
  match inMeta with
  | None => Ok None
  | Some blocks =>
      let nBlocks := Z.of_nat (length blocks) in
      if nBlocks <? 1 then Ok None
      else
        match nth_error blocks (Z.to_nat (nBlocks - 1)) with
        | None => Ok None
        | Some (name, block) =>
            match SafeDownCast_vtkTable block with
            | None => Ok None
            | Some quantileTab =>
                if negb (String.eqb name "Quantiles") then Ok None
                else
                  varName <- get rowNames 0 ;;
                  match GetColumnByName outData varName with
                  | None => Ok None
                  | Some vals =>
                      match GetColumnByName quantileTab varName with
                      | None => Ok None
                      | Some quantiles =>
                          match tuples vals, tuples quantiles with
                          | Some d, Some q => Ok (Some (NewDataArrayQuantizer d q))
                          | _, _ =>
                              match vals, quantiles with
                              | vtkStringArray d, vtkStringArray q =>
                                  Ok (Some (NewStringArrayQuantizer d q))
                              | vtkVariantArray d, vtkVariantArray q =>
                                  Ok (Some (NewVariantArrayQuantizer d q))
                              | _, _ => Ok None
                              end
                          end
                      end
                  end
            end
        end
  end.

End WithToString.

(** [operator()] of a functor on row [id]; [less] on [vtkVariant] comes
    from vtkVariant.cxx and is a parameter. *)
Definition run_quantizer {V : Type} `{Less V} (Data Quantiles : list V) (id : Z)
    : result Z :=
  val <- get Data id ;;
  match quantize Quantiles val with
  | Some q => Ok q
  | None => OutOfBounds
  end.

Definition assess (variant_less : Less vtkVariant) (dfunc : AssessFunctor) (id : Z)
    : result Z :=
  match dfunc with
  | NewDataArrayQuantizer d q => run_quantizer d q id
  | NewStringArrayQuantizer d q => run_quantizer d q id
  | NewVariantArrayQuantizer d q => run_quantizer d q id
  end.

(** ** Learn: the histogram of each requested column *)

(** [++ histogram[value]] on a [std::map] from values to counts.  The
    map orders and identifies its keys with [operator<] alone: a key
    that is neither below nor above [value] is the entry of [value]. *)
Fixpoint histogram_increment {V : Type} `{Less V} (histogram : list (V * Z)) (value : V)
    : list (V * Z) :=
  match histogram with
  | [] => [(value, 0 + 1)]
  | (k, c) :: histogram' =>
      if less value k then (value, 0 + 1) :: histogram
      else if less k value then (k, c) :: histogram_increment histogram' value
      else (k, c + 1) :: histogram'
  end.

(** The loop over the rows of the column. *)
Definition histogram_of {V : Type} `{Less V} (values : list V) : list (V * Z) :=
  fold_left histogram_increment values [].

Section Learn.

(** [vtkMath::Nan()] and [operator<] of [vtkVariant] are not among the
    sources: both are parameters.  The NaN is only stored, in row 0 of
    the values of a numeric histogram. *)
Variable Nan : double.
Context (variant_less : Less vtkVariant).

(** The histogram table of one column: row 0 holds the value that stands
    for "no value" and the cardinality -1, the rows after it hold the
    entries of the map from [begin()] to [end()].  [None] is the warning
    for an unsupported type, followed by [continue]. *)
Definition learn_histogram (vals : vtkAbstractArray) : option vtkTable :=
  match vals with
  | vtkDoubleArray _ | vtkIdTypeArray _ =>
      match tuples vals with
      | Some dvals =>
          let histogram := histogram_of dvals in
          Some [("Value", vtkDoubleArray (Nan :: map fst histogram));
                ("Cardinality", vtkIdTypeArray (-1 :: map snd histogram))]
      | None => None
      end
  | vtkStringArray svals =>
      let histogram := histogram_of svals in
      Some [("Value", vtkStringArray ("" :: map fst histogram));
            ("Cardinality", vtkIdTypeArray (-1 :: map snd histogram))]
  | vtkVariantArray vvals =>
      let histogram := histogram_of vvals in
      Some [("Value", vtkVariantArray (VariantString "" :: map fst histogram));
            ("Cardinality", vtkIdTypeArray (-1 :: map snd histogram))]
  | vtkOtherArray => None
  end.

(** The loop over the requests: each request contributes its first
    column name; a block is appended for every column that is found and
    supported. *)
Fixpoint learn_requests (inData : vtkTable) (Requests : list (list string))
    (outMeta : vtkMultiBlockDataSet) : result vtkMultiBlockDataSet :=
  match Requests with
  | [] => Ok outMeta
  | request :: rest =>
      match request with
      | [] => OutOfBounds
      | col :: _ =>
          match GetColumnByName inData col with
          | None => learn_requests inData rest outMeta
          | Some vals =>
              match learn_histogram vals with
              | None => learn_requests inData rest outMeta
              | Some histogramTab =>
                  learn_requests inData rest
                    (outMeta ++ [(col, TableBlock histogramTab)])%list
              end
          end
      end
  end.

(** [Learn]: the output model as the call leaves it. *)
Definition Learn (Requests : list (list string)) (inData : option vtkTable)
    (outMeta : option vtkMultiBlockDataSet) : result (option vtkMultiBlockDataSet) :=
  match inData with
  | None => Ok outMeta
  | Some data =>
      match outMeta with
      | None => Ok None
      | Some blocks =>
          out <- learn_requests data Requests blocks ;;
          Ok (Some out)
      end
  end.

End Learn.

(** ** Notions used in the statements *)

(** [a < b] on [vtkStdString], as a proposition. *)
Definition string_lt (a b : string) : Prop := String.compare a b = Lt.


(** The keys of a map, in the order of iteration, and the invariant of
    [std::map]. *)
Definition keys (cdf : CDF) : list string := map fst cdf.

Definition ascending (cdf : CDF) : Prop := StronglySorted string_lt (keys cdf).



(** The entries of a histogram in ascending order of [operator<]. *)
Definition entries_ascending {V : Type} `{Less V} (histogram : list (V * Z)) : Prop :=
  StronglySorted (fun a b => less a b = true) (map fst histogram).

(** Two values that [operator<] does not tell apart. *)
Definition equivalent {V : Type} `{Less V} (a b : V) : bool :=
  negb (less a b) && negb (less b a).

(** The sum of the counts whose key passes a test. *)
Fixpoint counts_where {V : Type} (P : V -> bool) (histogram : list (V * Z)) : Z :=
  match histogram with
  | [] => 0
  | (k, c) :: histogram' => (if P k then c else 0) + counts_where P histogram'
  end.

(** A column [Learn] builds a histogram for: present in the data and of
    a supported array type. *)
Definition learnable (inData : vtkTable) (col : string) : bool :=
  match GetColumnByName inData col with
  | Some vtkOtherArray => false
  | Some _ => true
  | None => false
  end.

(** A map read as a step function: the value of the last entry whose key
    is at or before [k] in the order of the strings, [start] when there
    is none.  In a map in key order this entry has the greatest key at
    or before [k]. *)
Definition step_value_from (start : double) (cdf : CDF) (k : string) : double :=
  fold_left (fun acc e => if string_ge k (fst e) then snd e else acc) cdf start.

Definition step_value (cdf : CDF) (k : string) : double := step_value_from 0%Q cdf k.

(** A histogram table into which [Derive] can write its probabilities:
    it has no column "P" yet, or its column "P" is a [vtkDoubleArray]
    with one cell per row.  With a column "P" of another kind the source
    writes through a null pointer. *)
Definition probabilities_writable (histogramTab : vtkTable) : Prop :=
  match GetColumnByName histogramTab "P" with
  | None => True
  | Some (vtkDoubleArray p) => Z.of_nat (length p) = GetNumberOfRows histogramTab
  | Some _ => False
  end.

(** ** Sample data *)

(** The histogram table of a text column without observations (the
    cardinality record alone) and the histogram table of the numbers
    1, 2, 2, 3, 4, 5, 5, 5, 6, 7. *)
Definition empty_histogram : vtkTable :=
  [("Value", vtkStringArray [""]); ("Cardinality", vtkIdTypeArray [-1])].

Definition sample_histogram : vtkTable :=
  [("Value", vtkDoubleArray [0; 1; 2; 3; 4; 5; 6; 7]%Q);
   ("Cardinality", vtkIdTypeArray [-1; 1; 2; 1; 1; 3; 1; 1])].

(** A column of the two numbers 9 and 10, printed as "9" and "10". *)
Definition print_integer (d : double) : string :=
  NilZero.string_of_int (Z.to_int (Qfloor d)).

(** ** The same functions in double precision

    The definitions above compute with exact rationals.  They serve
    the properties in which the arithmetic of doubles takes no part:
    properties of the tables, the blocks, the strings and the integer
    ranks.  The module below embeds the same functions of the source
    once more with the doubles of the machine: IEEE 754 binary64 under
    round-to-nearest-even, as [PrimFloat] computes them, with its
    infinities, its signed zeros and its NaN.  It serves the properties
    that speak of a value computed in doubles.  Integer and string
    computations are shared with the definitions above.

    In this module [OutOfBounds] stands for every step the language
    leaves undefined: a read or write outside an array, a write through
    a null pointer, an integer division by zero. *)
Module Binary64.

Import PrimFloat SpecFloat FloatOps.

Definition double := float.

(** The conversion of a [vtkIdType] or an [int] to [double]: exact up
    to 53 bits, rounded to nearest beyond ([|z| < 2^63]). *)
Definition double_of_int (z : Z) : double :=
  if z <? 0 then (- of_uint63 (Uint63.of_Z (- z)))%float
  else of_uint63 (Uint63.of_Z z).

(** [ceil], [floor] and [round] of <math.h>, followed by the cast to
    [vtkIdType], and the cast alone.  A finite double other than zero is
    [(-1)^s * m * 2^e]; the four functions are computed on this value
    without rounding.  [round] sends halves away from zero, the cast
    truncates toward zero.  The source casts finite values only (the
    rank targets and the midpoints of finite values); on an infinity or
    a NaN, where the cast is not defined, the functions give 0. *)
Definition floor (x : double) : Z :=
  match Prim2SF x with
  | S754_finite s m e =>
      let z := cond_Zopp s (Zpos m) in
      if 0 <=? e then z * 2 ^ e else z / 2 ^ (- e)
  | _ => 0
  end.

Definition ceil (x : double) : Z :=
  match Prim2SF x with
  | S754_finite s m e =>
      let z := cond_Zopp s (Zpos m) in
      if 0 <=? e then z * 2 ^ e else - ((- z) / 2 ^ (- e))
  | _ => 0
  end.

Definition round (x : double) : Z :=
  match Prim2SF x with
  | S754_finite s m e =>
      if 0 <=? e then cond_Zopp s (Zpos m) * 2 ^ e
      else cond_Zopp s ((2 * Zpos m + 2 ^ (- e)) / (2 * 2 ^ (- e)))
  | _ => 0
  end.

Definition truncate (x : double) : Z :=
  match Prim2SF x with
  | S754_finite s m e =>
      if 0 <=? e then cond_Zopp s (Zpos m) * 2 ^ e
      else cond_Zopp s (Zpos m / 2 ^ (- e))
  | _ => 0
  end.

(** [a < b] on doubles: false as soon as one of them is a NaN.
    [a > b] is [b < a]. *)
#[global] Instance double_Less : Less double := ltb.

(** *** Arrays, tables and multi-block data sets *)

Inductive vtkVariant : Type :=
| VariantDouble (d : double)
| VariantIdType (i : Z)
| VariantString (s : string).

Inductive vtkAbstractArray : Type :=
| vtkDoubleArray (a : list double)
| vtkIdTypeArray (a : list Z)
| vtkStringArray (a : list string)
| vtkVariantArray (a : list vtkVariant)
| vtkOtherArray.

(** The tuples of a [vtkDataArray] as [GetTuple1] returns them: the
    cells of an integer array are converted to [double]. *)
Definition tuples (a : vtkAbstractArray) : option (list double) :=
  match a with
  | vtkDoubleArray d => Some d
  | vtkIdTypeArray d => Some (map double_of_int d)
  | _ => None
  end.

Definition vtkTable := list (string * vtkAbstractArray).

Fixpoint GetColumnByName (t : vtkTable) (name : string) : option vtkAbstractArray :=
  match t with
  | [] => None
  | (c, a) :: t' => if String.eqb c name then Some a else GetColumnByName t' name
  end.

Definition GetNumberOfTuples (a : vtkAbstractArray) : Z :=
  match a with
  | vtkDoubleArray d => Z.of_nat (length d)
  | vtkIdTypeArray d => Z.of_nat (length d)
  | vtkStringArray d => Z.of_nat (length d)
  | vtkVariantArray d => Z.of_nat (length d)
  | vtkOtherArray => 0
  end.

Definition GetNumberOfRows (t : vtkTable) : Z :=
  match t with
  | [] => 0
  | (_, a) :: _ => GetNumberOfTuples a
  end.

(** [AddColumn], and the replacement of a column that is already there
    (the source then writes into the existing array). *)
Fixpoint SetColumn (t : vtkTable) (name : string) (a : vtkAbstractArray) : vtkTable :=
  match t with
  | [] => [(name, a)]
  | (c, old) :: t' =>
      if String.eqb c name then (c, a) :: t' else (c, old) :: SetColumn t' name a
  end.

Inductive vtkDataObject : Type :=
| TableBlock (t : vtkTable)
| OtherBlock
| NullBlock.

Definition vtkMultiBlockDataSet := list (string * vtkDataObject).

Definition SafeDownCast_vtkTable (o : vtkDataObject) : option vtkTable :=
  match o with
  | TableBlock t => Some t
  | _ => None
  end.

(** The cells of a column as [GetValueByName] returns them. *)
Definition variants (a : vtkAbstractArray) : list vtkVariant :=
  match a with
  | vtkDoubleArray d => map VariantDouble d
  | vtkIdTypeArray d => map VariantIdType d
  | vtkStringArray d => map VariantString d
  | vtkVariantArray d => d
  | vtkOtherArray => []
  end.

(** *** Learn *)

Section Learn.

(** [operator<] of [vtkVariant] is not among the sources. *)
Context (variant_less : Less vtkVariant).

(** The histogram table of one column.  The keys of a numeric column
    are the doubles [GetTuple1] returns, ordered and identified by [<]
    on doubles; row 0 holds [vtkMath::Nan()]. *)
Definition learn_histogram (vals : vtkAbstractArray) : option vtkTable :=
  match vals with
  | vtkDoubleArray _ | vtkIdTypeArray _ =>
      match tuples vals with
      | Some dvals =>
          let histogram := histogram_of dvals in
          Some [("Value", vtkDoubleArray (nan :: map fst histogram));
                ("Cardinality", vtkIdTypeArray (-1 :: map snd histogram))]
      | None => None
      end
  | vtkStringArray svals =>
      let histogram := histogram_of svals in
      Some [("Value", vtkStringArray ("" :: map fst histogram));
            ("Cardinality", vtkIdTypeArray (-1 :: map snd histogram))]
  | vtkVariantArray vvals =>
      let histogram := histogram_of vvals in
      Some [("Value", vtkVariantArray (VariantString "" :: map fst histogram));
            ("Cardinality", vtkIdTypeArray (-1 :: map snd histogram))]
  | vtkOtherArray => None
  end.

Fixpoint learn_requests (inData : vtkTable) (Requests : list (list string))
    (outMeta : vtkMultiBlockDataSet) : result vtkMultiBlockDataSet :=
  match Requests with
  | [] => Ok outMeta
  | request :: rest =>
      match request with
      | [] => OutOfBounds
      | col :: _ =>
          match GetColumnByName inData col with
          | None => learn_requests inData rest outMeta
          | Some vals =>
              match learn_histogram vals with
              | None => learn_requests inData rest outMeta
              | Some histogramTab =>
                  learn_requests inData rest
                    (outMeta ++ [(col, TableBlock histogramTab)])%list
              end
          end
      end
  end.

Definition Learn (Requests : list (list string)) (inData : option vtkTable)
    (outMeta : option vtkMultiBlockDataSet) : result (option vtkMultiBlockDataSet) :=
  match inData with
  | None => Ok outMeta
  | Some data =>
      match outMeta with
      | None => Ok None
      | Some blocks =>
          out <- learn_requests data Requests blocks ;;
          Ok (Some out)
      end
  end.

End Learn.

Section WithToString.

(** [vtkVariant::ToString] on a [double] belongs to vtkVariant.cxx, which
    is not among the sources: the formatting of doubles is a parameter. *)
Variable DoubleToString : double -> string.

Definition ToString (v : vtkVariant) : string :=
  match v with
  | VariantDouble d => DoubleToString d
  | VariantIdType i => DecimalString.NilZero.string_of_int (Z.to_int i)
  | VariantString s => s
  end.

(** *** Derive: labels of the quantile table *)

(** [vtkVariant( i * dq ).ToString() + "-quantile"] with
    [dq = 1. / static_cast<double>( NumberOfIntervals )]. *)
Definition generic_label (NumberOfIntervals i : Z) : string :=
  let dq := (1 / double_of_int NumberOfIntervals)%float in
  ToString (VariantDouble (double_of_int i * dq)%float) ++ "-quantile".

(** The body of the labelling loop.  [div( i << 2, NumberOfIntervals )]
    truncates toward zero; with [NumberOfIntervals = 0] it divides an
    [int] by zero. *)
Definition quantile_label (NumberOfIntervals i : Z) : result string :=
  if NumberOfIntervals =? 0 then OutOfBounds
  else
    let num := int_wrap (Z.shiftl i 2) in
    let quot := Z.quot num NumberOfIntervals in
    let rem := Z.rem num NumberOfIntervals in
    if negb (rem =? 0) then Ok (generic_label NumberOfIntervals i)
    else
      Ok match quot with
         | 0 => "Minimum"
         | 1 => "First Quartile"
         | 2 => "Median"
         | 3 => "Third Quartile"
         | 4 => "Maximum"
         | _ => generic_label NumberOfIntervals i
         end.

(** [for ( int i = 0; i <= NumberOfIntervals; ++ i )]. *)
Definition quantile_labels (NumberOfIntervals : Z) : result (list string) :=
  map_result (fun i => quantile_label NumberOfIntervals (Z.of_nat i))
             (seq 0 (Z.to_nat (NumberOfIntervals + 1))).

(** *** Derive: quantile indices of one histogram *)

(** [qIdx1]: [round( np )] in the branch of
    [InverseCDFAveragedSteps], [ceil( np )] in the other. *)
Definition first_quantile_index (QuantileDefinition : QuantileDefinitionType)
    (np : double) : Z :=
  match QuantileDefinition with
  | InverseCDFAveragedSteps => round np
  | InverseCDF => ceil np
  end.

(** The body of the loop over the interior quantiles, for one [k]:
    [np = k * dh], the pair of ranks and the rank cursor it leaves. *)
Definition interior_quantile (QuantileDefinition : QuantileDefinitionType)
    (cdf : cdf_array) (nRowHist : Z) (dh : double) (rank k : Z) : result (Z * Z) :=
  let np := (double_of_int k * dh)%float in
  let qIdx1 := first_quantile_index QuantileDefinition np in
  rank1 <- advance_rank cdf nRowHist qIdx1 rank ;;
  match QuantileDefinition with
  | InverseCDFAveragedSteps =>
      let qIdx2 := floor (np + 1)%float in
      if negb (qIdx1 =? qIdx2) then
        rank2 <- advance_rank cdf nRowHist qIdx2 rank1 ;;
        Ok (rank1, rank2)
      else Ok (rank1, rank1)
  | InverseCDF => Ok (rank1, rank1)
  end.

Fixpoint interior_quantiles (QuantileDefinition : QuantileDefinitionType)
    (cdf : cdf_array) (nRowHist : Z) (dh : double) (rank : Z) (ks : list Z)
    : result (list (Z * Z)) :=
  match ks with
  | [] => Ok []
  | k :: ks' =>
      p <- interior_quantile QuantileDefinition cdf nRowHist dh rank k ;;
      rest <- interior_quantiles QuantileDefinition cdf nRowHist dh (snd p) ks' ;;
      Ok (p :: rest)
  end.

(** [quantileIndices] of one histogram, with
    [dh = n / static_cast<double>( NumberOfIntervals )]. *)
Definition quantile_indices (QuantileDefinition : QuantileDefinitionType)
    (NumberOfIntervals : Z) (cdf : cdf_array) (nRowHist n : Z)
    : result (list (Z * Z)) :=
  let dh := (double_of_int n / double_of_int NumberOfIntervals)%float in
  interior <- interior_quantiles QuantileDefinition cdf nRowHist dh 1
                (interior_ks NumberOfIntervals) ;;
  Ok ((1, 1) :: interior ++ [(nRowHist - 1, nRowHist - 1)])%list.

(** *** Derive: quantile values and the loop over the blocks *)

(** [Qp] of a numeric column for one pair of ranks:
    [.5 * ( a + b )] or the value at the first rank. *)
Definition interpolate (QuantileDefinition : QuantileDefinitionType)
    (dvals : list double) (qit : Z * Z) : result double :=
  match QuantileDefinition with
  | InverseCDFAveragedSteps =>
      a <- get dvals (fst qit) ;;
      b <- get dvals (snd qit) ;;
      Ok (0.5 * (a + b))%float
  | InverseCDF => get dvals (fst qit)
  end.

(** The quantile column of one variable, of the same array type as the
    histogram values ([SetTuple1] on an integer column casts the
    double); [Ok None] is the warning for an unsupported type, followed
    by [continue]. *)
Definition quantile_values (QuantileDefinition : QuantileDefinitionType)
    (vals : vtkAbstractArray) (quantileIndices : list (Z * Z))
    : result (option vtkAbstractArray) :=
  match vals with
  | vtkDoubleArray dvals =>
      Qps <- map_result (interpolate QuantileDefinition dvals) quantileIndices ;;
      Ok (Some (vtkDoubleArray Qps))
  | vtkIdTypeArray ivals =>
      Qps <- map_result (interpolate QuantileDefinition (map double_of_int ivals))
               quantileIndices ;;
      Ok (Some (vtkIdTypeArray (map truncate Qps)))
  | vtkStringArray svals =>
      Qps <- map_result (fun qit => get svals (fst qit)) quantileIndices ;;
      Ok (Some (vtkStringArray Qps))
  | vtkVariantArray vvals =>
      Qps <- map_result (fun qit => get vvals (fst qit)) quantileIndices ;;
      Ok (Some (vtkVariantArray Qps))
  | vtkOtherArray => Ok None
  end.

(** One pass of the loop over the blocks, for a block that is a table.
    The table is updated in place (cardinality in row 0, column "P")
    before the quantile indices are sought, so the updated table is
    returned whatever comes of them.  The probabilities are
    [inv_n * c] with [inv_n = 1. / n].

    The source dereferences a null pointer for a table without a "Value"
    column or without a [vtkIdTypeArray] "Cardinality" column, writes
    outside the columns of a table without rows and, with a column "P"
    that is not a [vtkDoubleArray], writes through the null [probaCol]:
    [OutOfBounds], with the table as it was. *)
Definition derive_histogram (QuantileDefinition : QuantileDefinitionType)
    (NumberOfIntervals : Z) (heap : Z -> Z) (histogramTab : vtkTable)
    : vtkTable * result (option vtkAbstractArray) :=
  match GetColumnByName histogramTab "Value",
        GetColumnByName histogramTab "Cardinality" with
  | Some vals, Some (vtkIdTypeArray (c0 :: card')) =>
      match GetColumnByName histogramTab "P" with
      | None | Some (vtkDoubleArray _) =>
          let card := c0 :: card' in
          let nRowHist := GetNumberOfRows histogramTab in
          let counts := entry_counts nRowHist card in
          let n := total_count counts in
          let cdf := mk_cdf (running_sums 0 counts) heap in
          let inv_n := (1 / double_of_int n)%float in
          let P := (- (1))%float :: map (fun c => inv_n * double_of_int c)%float counts in
          let tab1 := SetColumn histogramTab "Cardinality" (vtkIdTypeArray (n :: card')) in
          let tab2 := SetColumn tab1 "P" (vtkDoubleArray P) in
          (tab2,
           quantileIndices <- quantile_indices QuantileDefinition NumberOfIntervals
                                cdf nRowHist n ;;
           if Z.of_nat (length quantileIndices) <=? NumberOfIntervals + 1
           then quantile_values QuantileDefinition vals quantileIndices
           else OutOfBounds)
      | Some _ => (histogramTab, OutOfBounds)
      end
  | _, _ => (histogramTab, OutOfBounds)
  end.

(** [for ( b = 0; b < nBlocks; ++ b )]: the blocks as the loop leaves
    them, and the quantile table when the loop reaches its end.  [heap b]
    is the memory around the CDF array of block [b]. *)
Fixpoint derive_blocks (QuantileDefinition : QuantileDefinitionType)
    (NumberOfIntervals : Z) (heap : Z -> Z -> Z) (b : Z)
    (blocks : vtkMultiBlockDataSet) (quantileTab : vtkTable)
    : vtkMultiBlockDataSet * result vtkTable :=
  match blocks with
  | [] => ([], Ok quantileTab)
  | (varName, block) :: rest =>
      match SafeDownCast_vtkTable block with
      | None =>
          let (rest', r) := derive_blocks QuantileDefinition NumberOfIntervals heap
                              (b + 1) rest quantileTab in
          ((varName, block) :: rest', r)
      | Some histogramTab =>
          let (histogramTab', r) :=
            derive_histogram QuantileDefinition NumberOfIntervals (heap b) histogramTab in
          match r with
          | Ok quantCol =>
              let quantileTab' :=
                match quantCol with
                | Some col => SetColumn quantileTab varName col
                | None => quantileTab
                end in
              let (rest', r') := derive_blocks QuantileDefinition NumberOfIntervals heap
                                   (b + 1) rest quantileTab' in
              ((varName, TableBlock histogramTab') :: rest', r')
          | InconsistentTable =>
              ((varName, TableBlock histogramTab') :: rest, InconsistentTable)
          | OutOfBounds =>
              ((varName, TableBlock histogramTab') :: rest, OutOfBounds)
          | Unfinished =>
              ((varName, TableBlock histogramTab') :: rest, Unfinished)
          end
      end
  end.

(** [Derive]: the model as the call leaves it, and how the call ended.
    The labels are computed before the loop over the blocks. *)
Definition Derive (QuantileDefinition : QuantileDefinitionType)
    (NumberOfIntervals : Z) (heap : Z -> Z -> Z)
    (inMeta : option vtkMultiBlockDataSet)
    : option vtkMultiBlockDataSet * result unit :=
  match inMeta with
  | None => (None, Ok tt)
  | Some blocks =>
      if Z.of_nat (length blocks) <? 1 then (Some blocks, Ok tt)
      else
        match quantile_labels NumberOfIntervals with
        | Ok labels =>
            let quantileTab := [("Quantile", vtkStringArray labels)] in
            match derive_blocks QuantileDefinition NumberOfIntervals heap 0
                    blocks quantileTab with
            | (blocks', Ok quantileTab') =>
                (Some (blocks' ++ [("Quantiles", TableBlock quantileTab')])%list, Ok tt)
            | (blocks', InconsistentTable) => (Some blocks', InconsistentTable)
            | (blocks', OutOfBounds) => (Some blocks', OutOfBounds)
            | (blocks', Unfinished) => (Some blocks', Unfinished)
            end
        | InconsistentTable => (Some blocks, InconsistentTable)
        | OutOfBounds => (Some blocks, OutOfBounds)
        | Unfinished => (Some blocks, Unfinished)
        end
  end.

(** *** Test *)

(** [std::map<vtkStdString,double>]: entries in ascending order of the
    keys. *)
Definition CDF := list (string * double).

(** [cdf[key] += x]: [operator[]] creates the entry with the value 0. *)
Fixpoint map_add (cdf : CDF) (key : string) (x : double) : CDF :=
  match cdf with
  | [] => [(key, (0 + x)%float)]
  | (k, v) :: cdf' =>
      match String.compare key k with
      | Lt => (key, (0 + x)%float) :: cdf
      | Eq => (k, (v + x)%float) :: cdf'
      | Gt => (k, v) :: map_add cdf' key x
      end
  end.

(** The empirical PDF: one pass over the observations. *)
Definition empirical_pdf (inv_card : double) (observations : list string) : CDF :=
  fold_left (fun cdf o => map_add cdf o inv_card) observations [].

(** [sum += cit->second; cit->second = sum;] from [begin()] to [end()];
    the integrated map and the final [sum]. *)
Fixpoint integrate (sum : double) (cdf : CDF) : CDF * double :=
  match cdf with
  | [] => ([], sum)
  | (k, v) :: cdf' =>
      let sum' := (sum + v)%float in
      let (rest, total) := integrate sum' cdf' in
      ((k, sum') :: rest, total)
  end.

Definition empirical_cdf (inv_card : double) (observations : list string) : CDF * double :=
  integrate 0%float (empirical_pdf inv_card observations).

(** [insert( pair( quantile, -1 ) )] followed by the repair of a new
    entry: 0 at [begin()], the value of the predecessor otherwise. *)
Fixpoint insert_quantile (pred : option double) (cdf : CDF) (quantile : string) : CDF :=
  let inherited := match pred with Some p => p | None => 0%float end in
  match cdf with
  | [] => [(quantile, inherited)]
  | (k, v) :: cdf' =>
      match String.compare quantile k with
      | Lt => (quantile, inherited) :: cdf
      | Eq => cdf
      | Gt => (k, v) :: insert_quantile (Some v) cdf' quantile
      end
  end.

Definition insert_quantiles (cdf : CDF) (quantiles : list string) : CDF :=
  fold_left (insert_quantile None) quantiles cdf.

Record walk_state : Type := mk_walk {
  currentQ : Z;
  mcdf : double;
  Dmn : double
}.

(** The body of the loop over the CDF jump values, for one entry:
    [mcdf = currentQ * inv_nq], [d = fabs( cit->second - mcdf )],
    [if ( d > Dmn ) Dmn = d]. *)
Definition walk_step (quantiles : list string) (nQuant : Z) (inv_nq : double)
    (st : walk_state) (cit : string * double) : result walk_state :=
  q0 <- get quantiles 0 ;;
  model <-
    (if string_ge (fst cit) q0 then
       q <- advance_quantile (S (Z.to_nat (nQuant - currentQ st)))
              quantiles nQuant (fst cit) (currentQ st) ;;
       Ok (q, (double_of_int q * inv_nq)%float)
     else Ok (currentQ st, mcdf st)) ;;
  let d := abs (snd cit - snd model)%float in
  Ok (mk_walk (fst model) (snd model)
              (if (Dmn st <? d)%float then d else Dmn st)).

(** The loop itself; the state is recorded after each entry. *)
Fixpoint walk (quantiles : list string) (nQuant : Z) (inv_nq : double)
    (st : walk_state) (cdfEmpirical : CDF) : result (list walk_state) :=
  match cdfEmpirical with
  | [] => Ok []
  | cit :: rest =>
      st' <- walk_step quantiles nQuant inv_nq st cit ;;
      sts <- walk quantiles nQuant inv_nq st' rest ;;
      Ok (st' :: sts)
  end.

Definition initial_walk : walk_state := mk_walk 0 0%float 0%float.

(** The bound [1.e-6] of the sanity check, as the compiler reads the
    literal: the double nearest to it. *)
Definition tolerance : double := 0x1.0c6f7a0b5ed8dp-20%float.

(** What one pass of the loop over the requests computes, when the
    pass is not left through [continue]: the empirical CDF after the
    integration and its final sum, the map after the quantiles are
    inserted, and the states of the walk. *)
Record test_trace : Type := mk_trace {
  trace_cdf : CDF;
  trace_sum : double;
  trace_merged : CDF;
  trace_states : list walk_state
}.

(** One pass of the loop over the requests, up to the end of the walk;
    [None] after a warning and [continue].  [nQuant], [nRowData],
    [inv_nq = 1. / nQuant] and [inv_card = 1. / nRowData] are computed
    before the loop. *)
Definition test_column (inData quantileTab : vtkTable) (request : list string)
    : result (option (string * test_trace)) :=
  let nQuant := GetNumberOfRows quantileTab in
  let nRowData := GetNumberOfRows inData in
  let inv_nq := (1 / double_of_int nQuant)%float in
  let inv_card := (1 / double_of_int nRowData)%float in
  match request with
  | [] => OutOfBounds
  | varName :: _ =>
      match GetColumnByName inData varName with
      | None => Ok None
      | Some col =>
          match GetColumnByName quantileTab varName with
          | None => Ok None
          | Some quantCol =>
              let observations := map ToString (variants col) in
              let (cdfEmpirical, sum) := empirical_cdf inv_card observations in
              if (tolerance <? abs (sum - 1))%float
              then Ok None
              else
                let quantiles := map ToString (variants quantCol) in
                let merged := insert_quantiles cdfEmpirical quantiles in
                sts <- walk quantiles nQuant inv_nq initial_walk merged ;;
                Ok (Some (varName, mk_trace cdfEmpirical sum merged sts))
          end
      end
  end.

(** The row of the output for one request: the name, [Dmn] as the walk
    leaves it and [sqrt_card * Dmn] with
    [sqrt_card = sqrt( static_cast<double>( nRowData ) )]. *)
Definition test_request (inData quantileTab : vtkTable) (request : list string)
    : result (option (string * double * double)) :=
  let sqrt_card := sqrt (double_of_int (GetNumberOfRows inData)) in
  column <- test_column inData quantileTab request ;;
  Ok match column with
     | Some (varName, trace) =>
         let D := Dmn (last (trace_states trace) initial_walk) in
         Some (varName, D, (sqrt_card * D)%float)
     | None => None
     end.

Fixpoint test_requests (inData quantileTab : vtkTable) (Requests : list (list string))
    : result (list (string * double * double)) :=
  match Requests with
  | [] => Ok []
  | request :: rest =>
      row <- test_request inData quantileTab request ;;
      rows <- test_requests inData quantileTab rest ;;
      Ok (match row with Some r => r :: rows | None => rows end)
  end.

(** [Test]: the output table as the call leaves it. *)
Definition Test (Requests : list (list string)) (inData : vtkTable)
    (inMeta : option vtkMultiBlockDataSet) (outMeta : option vtkTable)
    : result (option vtkTable) :=
  match inMeta with
  | None => Ok outMeta
  | Some blocks =>
      let nBlocks := Z.of_nat (length blocks) in
      if nBlocks <? 1 then Ok outMeta
      else
        match nth_error blocks (Z.to_nat (nBlocks - 1)) with
        | None => Ok outMeta
        | Some (name, block) =>
            match SafeDownCast_vtkTable block with
            | None => Ok outMeta
            | Some quantileTab =>
                if negb (String.eqb name "Quantiles") then Ok outMeta
                else
                  match outMeta with
                  | None => Ok None
                  | Some out =>
                      rows <- test_requests inData quantileTab Requests ;;
                      let nameCol := vtkStringArray (map (fun r => fst (fst r)) rows) in
                      let distCol := vtkDoubleArray (map (fun r => snd (fst r)) rows) in
                      let statCol := vtkDoubleArray (map snd rows) in
                      Ok (Some (SetColumn
                                  (SetColumn
                                     (SetColumn out "Variable" nameCol)
                                     "Maximum Distance" distCol)
                                  "Kolmogorov-Smirnov" statCol))
                  end
            end
        end
  end.

End WithToString.

(** *** SelectAssessFunctor and the quantizers *)

Inductive AssessFunctor : Type :=
| NewDataArrayQuantizer (Data Quantiles : list double)
| NewStringArrayQuantizer (Data Quantiles : list string)
| NewVariantArrayQuantizer (Data Quantiles : list vtkVariant).

Definition SelectAssessFunctor (outData : vtkTable)
    (inMeta : option vtkMultiBlockDataSet) (rowNames : list string)
    : result (option AssessFunctor) :=
  match inMeta with
  | None => Ok None
  | Some blocks =>
      let nBlocks := Z.of_nat (length blocks) in
      if nBlocks <? 1 then Ok None
      else
        match nth_error blocks (Z.to_nat (nBlocks - 1)) with
        | None => Ok None
        | Some (name, block) =>
            match SafeDownCast_vtkTable block with
            | None => Ok None
            | Some quantileTab =>
                if negb (String.eqb name "Quantiles") then Ok None
                else
                  varName <- get rowNames 0 ;;
                  match GetColumnByName outData varName with
                  | None => Ok None
                  | Some vals =>
                      match GetColumnByName quantileTab varName with
                      | None => Ok None
                      | Some quantiles =>
                          match tuples vals, tuples quantiles with
                          | Some d, Some q => Ok (Some (NewDataArrayQuantizer d q))
                          | _, _ =>
                              match vals, quantiles with
                              | vtkStringArray d, vtkStringArray q =>
                                  Ok (Some (NewStringArrayQuantizer d q))
                              | vtkVariantArray d, vtkVariantArray q =>
                                  Ok (Some (NewVariantArrayQuantizer d q))
                              | _, _ => Ok None
                              end
                          end
                      end
                  end
            end
        end
  end.

(** [operator()] of a functor on row [id]. *)
Definition assess (variant_less : Less vtkVariant) (dfunc : AssessFunctor) (id : Z)
    : result Z :=
  match dfunc with
  | NewDataArrayQuantizer d q => run_quantizer d q id
  | NewStringArrayQuantizer d q => run_quantizer d q id
  | NewVariantArrayQuantizer d q => run_quantizer d q id
  end.

(** *** Notions used in the statements *)

(** The label of position [k] written with the quotient and the
    remainder of [4 * k] by [N], which [div( i << 2, N )] returns when
    the shift stays in the range of an [int] and [0 <= k], [0 < N]. *)
Definition label_of (DoubleToString : double -> string) (N k : Z) : string :=
  if negb ((4 * k) mod N =? 0) then generic_label DoubleToString N k
  else
    match (4 * k) / N with
    | 0 => "Minimum"
    | 1 => "First Quartile"
    | 2 => "Median"
    | 3 => "Third Quartile"
    | 4 => "Maximum"
    | _ => generic_label DoubleToString N k
    end.

(** The place of a double that is not a NaN in the order of [<]: the
    class (negative infinity, negative, zero, positive, positive
    infinity), then exponent and mantissa.  The two zeros share their
    place. *)
Definition order_key (x : spec_float) : Z * Z * Z :=
  match x with
  | S754_nan => (0, 0, 0)
  | S754_zero _ => (0, 0, 0)
  | S754_infinity true => (-2, 0, 0)
  | S754_infinity false => (2, 0, 0)
  | S754_finite true m e => (-1, - e, - Zpos m)
  | S754_finite false m e => (1, e, Zpos m)
  end.

Definition key_lt (a b : Z * Z * Z) : Prop :=
  fst (fst a) < fst (fst b)
  \/ (fst (fst a) = fst (fst b)
      /\ (snd (fst a) < snd (fst b)
          \/ (snd (fst a) = snd (fst b) /\ snd a < snd b))).

Definition key (x : double) : Z * Z * Z := order_key (Prim2SF x).

Definition key_ltb (a b : Z * Z * Z) : bool :=
  (fst (fst a) <? fst (fst b))
  || ((fst (fst a) =? fst (fst b))
      && ((snd (fst a) <? snd (fst b))
          || ((snd (fst a) =? snd (fst b)) && (snd a <? snd b)))).

(** The order of the places: [<] on the doubles that are not NaN, with
    a place for the NaN too. *)
Definition order_less : Less double := fun a b => key_ltb (key a) (key b).

(** No cell is a NaN. *)
Definition no_nan (l : list double) : Prop := Forall (fun d => is_nan d = false) l.

(** [a <= b] on doubles, as a proposition: false as soon as one of them
    is a NaN. *)
Definition double_le (a b : double) : Prop := (a <=? b)%float = true.

(** The keys of a map, in the order of iteration, and the invariant of
    [std::map]. *)
Definition keys (cdf : CDF) : list string := map fst cdf.

Definition ascending (cdf : CDF) : Prop := StronglySorted string_lt (keys cdf).

(** [find( k )]. *)
Fixpoint lookup (cdf : CDF) (k : string) : option double :=
  match cdf with
  | [] => None
  | (k', v) :: cdf' => if String.eqb k k' then Some v else lookup cdf' k
  end.

(** What [c] executions of [+= inv_card] leave in an entry created
    with the value 0. *)
Definition accumulated (inv_card : double) (c : nat) : double :=
  Nat.iter c (fun v => (v + inv_card)%float) 0%float.

(** The values [sum += v] takes, entry after entry. *)
Fixpoint running_totals (sum : double) (l : list double) : list double :=
  match l with
  | [] => []
  | v :: l' => (sum + v)%float :: running_totals (sum + v)%float l'
  end.

(** The rational a double stands for, when it is finite. *)
Definition exact_value (x : double) : option Q :=
  match Prim2SF x with
  | S754_zero _ => Some 0%Q
  | S754_finite s m e =>
      let z := cond_Zopp s (Zpos m) in
      Some (if 0 <=? e then inject_Z (z * 2 ^ e) else z # 2 ^ Z.to_pos (- e))
  | _ => None
  end.

(** [r] is the first rank, from [cursor] on, whose CDF cell is not
    below [qIdx]. *)
Definition first_rank_reaching (cdf : cdf_array) (cursor qIdx r : Z) : Prop :=
  cursor <= r
  /\ qIdx <= cdf_get cdf r
  /\ forall j, cursor <= j < r -> cdf_get cdf j < qIdx.

(** The ranks of the pairs never go back: each pair starts at or after
    the cursor [lo], its two ranks are in order, and the next pair
    starts at or after its second rank. *)
Fixpoint ranks_ascend (lo : Z) (pairs : list (Z * Z)) : Prop :=
  match pairs with
  | [] => True
  | p :: pairs' => lo <= fst p /\ fst p <= snd p /\ ranks_ascend (snd p) pairs'
  end.

(** The two values a pair of ranks points at. *)
Definition reads (dvals : list double) (p : Z * Z) (ab : double * double) : Prop :=
  get dvals (fst p) = Ok (fst ab) /\ get dvals (snd p) = Ok (snd ab).

(** The values of a list of pairs, one after the other. *)
Definition flatten (steps : list (double * double)) : list double :=
  flat_map (fun ab => [fst ab; snd ab]) steps.

(** [.5 * ( a + b )]. *)
Definition midpoint (ab : double * double) : double :=
  (0.5 * (fst ab + snd ab))%float.

(** [fabs( cit->second - mcdf )] at each point of a walk. *)
Definition distances (cdf : CDF) (sts : list walk_state) : list double :=
  map (fun p => abs (snd (fst p) - mcdf (snd p))%float) (combine cdf sts).

(** A histogram table into which [Derive] can write its probabilities. *)
Definition probabilities_writable (histogramTab : vtkTable) : Prop :=
  match GetColumnByName histogramTab "P" with
  | None => True
  | Some (vtkDoubleArray p) => Z.of_nat (length p) = GetNumberOfRows histogramTab
  | Some _ => False
  end.

(** *** Rounding, for the order of computed doubles

    [SpecFloat] rounds the exact sum and the exact product of two
    doubles with a shifter that drops one bit at a time.  The notions
    below say what it computes on integers, so that the order of the
    doubles [a + b] and [.5 * x] can be read off the order of their
    exact values. *)

(** [v / 2 ^ k] rounded to the nearest integer, ties to even. *)
Definition rne (v k : Z) : Z :=
  let q := v / 2 ^ k in
  let r := v mod 2 ^ k in
  if 2 * r <? 2 ^ k then q
  else if 2 * r =? 2 ^ k then (if Z.even q then q else q + 1)
  else q + 1.

(** Every finite double, and every exact product by [0.5], is an
    integer multiple of [2 ^ scale]. *)
Definition scale : Z := -1127.

(** The double of sign [s] nearest to [v * 2 ^ scale], for [0 < v]. *)
Definition round_scaled (s : bool) (v : Z) : spec_float :=
  let E := fexp prec emax (Z.log2 v + 1 + scale) in
  let mq := rne v (E - scale) in
  if mq =? 0 then S754_zero s
  else if mq <? 2 ^ 53 then
    if E <=? 971 then S754_finite s (Z.to_pos mq) E else S754_infinity s
  else
    if E + 1 <=? 971 then S754_finite s (Z.to_pos (2 ^ 52)) (E + 1) else S754_infinity s.

(** The same for an integer of either sign; [0] gives [+0]. *)
Definition round_signed (z : Z) : spec_float :=
  if z =? 0 then S754_zero false
  else if 0 <? z then round_scaled false z
  else round_scaled true (- z).

(** The value of a finite double, in units of [2 ^ scale], and its
    half. *)
Definition scaled (x : spec_float) : Z :=
  match x with
  | S754_finite s m e => cond_Zopp s (Zpos m * 2 ^ (e - scale))
  | _ => 0
  end.

Definition half_scaled (x : spec_float) : Z :=
  match x with
  | S754_finite s m e => cond_Zopp s (Zpos m * 2 ^ (e - scale - 1))
  | _ => 0
  end.

(** The place of [- x] in the order, from the place of [x]. *)
Definition key_opp (a : Z * Z * Z) : Z * Z * Z :=
  (- fst (fst a), - snd (fst a), - snd a).

(** [x <= y] on the doubles as [SpecFloat] has them. *)
Definition spec_le (x y : spec_float) : Prop :=
  x <> S754_nan /\ y <> S754_nan /\ ~ key_lt (order_key y) (order_key x).

(** Zero or finite: neither an infinity nor a NaN. *)
Definition is_finite (x : spec_float) : bool :=
  match x with
  | S754_zero _ | S754_finite _ _ _ => true
  | _ => false
  end.

(** *** Sample data *)

(** A printer for the doubles that hold integers: the decimal digits
    of the integer part. *)
Definition print_integer (d : double) : string :=
  DecimalString.NilZero.string_of_int (Z.to_int (truncate d)).

End Binary64.

(** * Properties *)

(** ** Quantizer *)

Section QuantizerFacts.

Context {V : Type} `{Less V}.

(** What the scan returns: it starts at [q], passes the breakpoints
    below the value and stops at the first one that is not, or at [n]. *)
Lemma quantizer_scan_spec (Quantiles : list V) (val : V) :
  forall (fuel : nat) (q : Z),
    0 <= q ->
    Z.of_nat (length Quantiles) - q <= Z.of_nat fuel ->
    let r := quantizer_scan fuel Quantiles val q in
    q <= r <= Z.max q (Z.of_nat (length Quantiles))
    /\ (forall j, q <= j < r ->
          exists b, nth_error Quantiles (Z.to_nat j) = Some b /\ less b val = true)
    /\ (r < Z.of_nat (length Quantiles) ->
          exists b, nth_error Quantiles (Z.to_nat r) = Some b /\ less b val = false).
Proof.
  induction fuel as [|fuel IH]; intros q Hq Hfuel; cbn [quantizer_scan].
  - cbv zeta. split; [lia|]. split; [intros j Hj; lia|]. intros Hr. simpl in Hfuel. lia.
  - destruct (nth_error Quantiles (Z.to_nat q)) as [b|] eqn:Hb.
    + destruct ((q <? Z.of_nat (length Quantiles)) && less b val) eqn:Hc.
      * apply andb_prop in Hc. destruct Hc as [Hlt Hless].
        apply Z.ltb_lt in Hlt.
        specialize (IH (q + 1) ltac:(lia) ltac:(lia)). cbv zeta in IH |- *.
        destruct IH as (Hr & Hbelow & Hstop).
        split; [lia|]. split; [|exact Hstop].
        intros j Hj. destruct (Z.eq_dec j q) as [->|Hne].
        -- exists b. split; assumption.
        -- apply Hbelow. lia.
      * cbv zeta. split; [lia|]. split; [intros j Hj; lia|].
        intros Hr. exists b. split; [assumption|].
        apply Z.ltb_lt in Hr. rewrite Hr in Hc. simpl in Hc. exact Hc.
    + cbv zeta. split; [lia|]. split; [intros j Hj; lia|].
      intros Hr. apply nth_error_None in Hb. lia.
Qed.

End QuantizerFacts.

(** CLAIM C3, as amended: for every observation the quantizer returns 0
    when the observation is strictly below breakpoint[0]; otherwise it
    returns the smallest index [r >= 1] whose breakpoint is not below the
    observation (all breakpoints at indices [1 .. r-1] are below it), or
    [N + 1] when every breakpoint from index 1 on is below it.  The
    returned index lies in [0, N + 1].  Holds for the three functors
    (any value type with its [operator<]). *)
Theorem quantizer_bucket_index {V : Type} `{Less V} (q0 : V) (rest : list V) (val : V) :
  let Quantiles := q0 :: rest in
  let N := Z.of_nat (length rest) in
  exists r,
    quantize Quantiles val = Some r
    /\ 0 <= r <= N + 1
    /\ (less val q0 = true -> r = 0)
    /\ (less val q0 = false ->
          1 <= r
          /\ (forall j, 1 <= j < r ->
                exists b, nth_error Quantiles (Z.to_nat j) = Some b /\ less b val = true)
          /\ (r <= N ->
                exists b, nth_error Quantiles (Z.to_nat r) = Some b /\ less b val = false)).
Proof.
  intros Quantiles N. subst Quantiles. cbv beta iota delta [quantize].
  destruct (less val q0) eqn:Hlt.
  - exists 0. split; [reflexivity|]. split; [lia|]. split; [reflexivity|].
    intros Hf. discriminate Hf.
  - pose proof (quantizer_scan_spec (q0 :: rest) val (length (q0 :: rest)) 1
                  ltac:(lia) ltac:(lia)) as Hs.
    cbv zeta in Hs.
    set (r := quantizer_scan (length (q0 :: rest)) (q0 :: rest) val 1) in *.
    assert (Hn : Z.of_nat (length (q0 :: rest)) = N + 1)
      by (subst N; simpl length; lia).
    rewrite Hn in Hs. destruct Hs as (Hr & Hbelow & Hstop).
    exists r. split; [reflexivity|]. split; [lia|]. split; [intros; discriminate|].
    intros _. split; [lia|]. split; [exact Hbelow|]. intros Hle. apply Hstop. lia.
Qed.

(** CLAIM C3 fails as stated: with breakpoints 1, 2, 3, 4, 5 (N = 4) the
    observation 1 equals breakpoint[0], so index 0 is the smallest index
    whose breakpoint is >= the observation, yet the functor returns 1;
    and the observation 6 is given the index 5, outside [0, N]. *)
Lemma quantizer_bucket_index_counterexample :
  let Quantiles := [1; 2; 3; 4; 5]%Q in
  let N := 4 in
  (* equal to the minimum: index 0 already holds a breakpoint >= the
     observation, the functor returns 1 *)
  (DataArrayQuantizer Quantiles 1%Q = Some 1 /\ (1 <= nth 0 Quantiles 0)%Q)
  (* above the maximum: the functor returns N + 1 *)
  /\ (DataArrayQuantizer Quantiles 6%Q = Some 5 /\ ~ (0 <= 5 <= N)).
Proof.
  cbv zeta. split; split; try reflexivity.
  - discriminate.
  - lia.
Qed.

(** *** Quantizing doubles *)

Lemma double_lt_true (a b : double) : double_lt a b = true <-> (a < b)%Q.
Proof.
  unfold double_lt. rewrite negb_true_iff.
  split.
  - intros Hf. apply Qnot_le_lt. intros Hle. apply Qle_bool_iff in Hle. congruence.
  - intros Hlt. destruct (Qle_bool b a) eqn:Hb; [|reflexivity].
    apply Qle_bool_iff in Hb. exfalso. apply (Qlt_not_le _ _ Hlt Hb).
Qed.

Lemma double_lt_false (a b : double) : double_lt a b = false <-> (b <= a)%Q.
Proof.
  unfold double_lt. rewrite negb_false_iff. apply Qle_bool_iff.
Qed.

(** The functor on doubles, in terms of the order of the numbers. *)
Lemma DataArrayQuantizer_cases (q0 : double) (rest : list double) (dval : double) :
  exists r,
    DataArrayQuantizer (q0 :: rest) dval = Some r
    /\ ((dval < q0)%Q -> r = 0)
    /\ ((q0 <= dval)%Q ->
          1 <= r <= Z.of_nat (length rest) + 1
          /\ (forall j, 1 <= j < r ->
                exists b, nth_error (q0 :: rest) (Z.to_nat j) = Some b /\ (b < dval)%Q)
          /\ (r <= Z.of_nat (length rest) ->
                exists b, nth_error (q0 :: rest) (Z.to_nat r) = Some b /\ (dval <= b)%Q)).
Proof.
  unfold DataArrayQuantizer. cbv beta iota delta [quantize].
  change (@less double double_Less) with double_lt.
  destruct (double_lt dval q0) eqn:Hlt.
  - apply double_lt_true in Hlt. exists 0. split; [reflexivity|].
    split; [reflexivity|]. intros Hge. exfalso. lra.
  - apply double_lt_false in Hlt.
    pose proof (quantizer_scan_spec (q0 :: rest) dval (length (q0 :: rest)) 1
                  ltac:(lia) ltac:(lia)) as Hs.
    cbv zeta in Hs.
    set (r := quantizer_scan (length (q0 :: rest)) (q0 :: rest) dval 1) in *.
    replace (Z.of_nat (length (q0 :: rest))) with (Z.of_nat (length rest) + 1) in Hs
      by (simpl length; lia).
    destruct Hs as (Hr & Hbelow & Hstop).
    exists r. split; [reflexivity|]. split; [intros Hc; exfalso; lra|].
    intros _. split; [lia|]. split.
    + intros j Hj. destruct (Hbelow j Hj) as (b & Hb & Hbv).
      exists b. split; [exact Hb|]. apply double_lt_true. exact Hbv.
    + intros Hle. destruct (Hstop ltac:(lia)) as (b & Hb & Hbv).
      exists b. split; [exact Hb|]. apply double_lt_false. exact Hbv.
Qed.

Lemma StronglySorted_nth_error {A : Type} (R : A -> A -> Prop) (l : list A) :
  StronglySorted R l ->
  forall (i j : nat) (a b : A),
    (i < j)%nat -> nth_error l i = Some a -> nth_error l j = Some b -> R a b.
Proof.
  induction 1 as [|x l Hs IH Hall]; intros i j a b Hij Ha Hb.
  - destruct i; discriminate.
  - destruct j as [|j]; [lia|]. simpl in Hb.
    destruct i as [|i]; simpl in Ha.
    + injection Ha as <-. rewrite Forall_forall in Hall. apply Hall.
      eapply nth_error_In; eassumption.
    + eapply IH; [|eassumption|eassumption]. lia.
Qed.

Lemma last_cons_any {A : Type} (a x y : A) (l : list A) :
  last (a :: l) x = last (a :: l) y.
Proof.
  revert a. induction l as [|b l IH]; intros a; [reflexivity|].
  change (last (b :: l) x = last (b :: l) y). apply IH.
Qed.

Lemma nth_error_last {A : Type} (x : A) (l : list A) :
  nth_error (x :: l) (length l) = Some (last l x).
Proof.
  revert x. induction l as [|y l IH]; intros x; [reflexivity|].
  simpl length. change (nth_error (x :: y :: l) (S (length l))) with (nth_error (y :: l) (length l)).
  rewrite IH. f_equal. destruct l as [|a l]; [reflexivity|].
  change (last (y :: a :: l) x) with (last (a :: l) x). apply last_cons_any.
Qed.

(** The functor on doubles is monotone in the observation, whatever the
    breakpoints are. *)
Lemma DataArrayQuantizer_monotone (Quantiles : list double) (v w : double) :
  Quantiles <> [] ->
  (v <= w)%Q ->
  exists r s,
    DataArrayQuantizer Quantiles v = Some r
    /\ DataArrayQuantizer Quantiles w = Some s
    /\ r <= s.
Proof.
  intros Hne Hvw. destruct Quantiles as [|q0 rest]; [congruence|].
  destruct (DataArrayQuantizer_cases q0 rest v) as (r & Hr & Hr0 & Hr1).
  destruct (DataArrayQuantizer_cases q0 rest w) as (s & Hs & Hs0 & Hs1).
  exists r, s. split; [exact Hr|]. split; [exact Hs|].
  destruct (Qlt_le_dec v q0) as [Hv|Hv].
  - rewrite (Hr0 Hv).
    destruct (Qlt_le_dec w q0) as [Hw|Hw]; [rewrite (Hs0 Hw); lia|].
    destruct (Hs1 Hw) as (Hsb & _). lia.
  - assert (Hw : (q0 <= w)%Q) by lra.
    destruct (Hr1 Hv) as (Hrb & Hbelow & _).
    destruct (Hs1 Hw) as (Hsb & _ & Hstop).
    destruct (Z_lt_le_dec s r) as [Hlt|]; [|assumption].
    exfalso.
    destruct (Hbelow s ltac:(lia)) as (b & Hb & Hbv).
    destruct (Hstop ltac:(lia)) as (b' & Hb' & Hbw).
    rewrite Hb in Hb'. injection Hb' as <-. lra.
Qed.

Lemma DataArrayQuantizer_sorted (Quantiles : list double) (obs : list double) :
  Quantiles <> [] ->
  StronglySorted Qle obs ->
  exists buckets,
    map (DataArrayQuantizer Quantiles) obs = map Some buckets
    /\ StronglySorted Z.le buckets.
Proof.
  intros Hne. induction 1 as [|v obs Hs IH Hall].
  - exists []. split; [reflexivity|constructor].
  - destruct IH as (buckets & Hmap & Hsorted).
    destruct (DataArrayQuantizer_monotone Quantiles v v Hne (Qle_refl v))
      as (r & _ & Hr & _ & _).
    exists (r :: buckets). split.
    + simpl. rewrite Hr, Hmap. reflexivity.
    + constructor; [assumption|].
      rewrite Forall_forall. intros s Hin.
      apply (in_map Some) in Hin. rewrite <- Hmap in Hin.
      apply in_map_iff in Hin. destruct Hin as (w & Hw & Hwin).
      rewrite Forall_forall in Hall. specialize (Hall w Hwin).
      destruct (DataArrayQuantizer_monotone Quantiles v w Hne Hall)
        as (r' & s' & Hr' & Hs' & Hle).
      congruence.
Qed.

(** CLAIM C4, as amended: with breakpoints in non-decreasing order,
    quantizing the minimum breakpoint returns bucket 1 (bucket 0 is kept
    for observations strictly below it); quantizing the maximum
    breakpoint returns an index between 1 and N, and N itself when the
    breakpoints are strictly increasing; and quantizing any sorted
    (non-decreasing) list of observations yields a non-decreasing
    sequence of bucket indices. *)
Theorem quantizer_breakpoints_roundtrip (q0 : double) (rest : list double) :
  StronglySorted Qle (q0 :: rest) ->
  let Quantiles := q0 :: rest in
  let N := Z.of_nat (length rest) in
  DataArrayQuantizer Quantiles q0 = Some 1
  /\ (1 <= N ->
      exists r,
        DataArrayQuantizer Quantiles (last rest q0) = Some r
        /\ 1 <= r <= N
        /\ (StronglySorted Qlt Quantiles -> r = N))
  /\ (forall obs, StronglySorted Qle obs ->
        exists buckets,
          map (DataArrayQuantizer Quantiles) obs = map Some buckets
          /\ StronglySorted Z.le buckets).
Proof.
  intros Hsorted Quantiles N. subst Quantiles.
  assert (Hq0 : forall j b, (0 < j)%nat -> nth_error (q0 :: rest) j = Some b -> (q0 <= b)%Q).
  { intros j b Hj Hb.
    eapply (StronglySorted_nth_error Qle); [exact Hsorted|exact Hj|reflexivity|exact Hb]. }
  split; [|split].
  - destruct (DataArrayQuantizer_cases q0 rest q0) as (r & Hr & _ & Hr1).
    destruct (Hr1 (Qle_refl q0)) as (Hrb & Hbelow & _).
    rewrite Hr. f_equal.
    destruct (Z.eq_dec r 1) as [|Hne]; [assumption|exfalso].
    destruct (Hbelow 1 ltac:(lia)) as (b & Hb & Hbv).
    specialize (Hq0 (Z.to_nat 1) b ltac:(lia) Hb). lra.
  - intros HN.
    destruct (DataArrayQuantizer_cases q0 rest (last rest q0)) as (r & Hr & _ & Hr1).
    exists r. split; [exact Hr|].
    pose proof (nth_error_last q0 rest) as Hlast.
    assert (Hmax : (q0 <= last rest q0)%Q).
    { apply (Hq0 (length rest)); [lia|exact Hlast]. }
    destruct (Hr1 Hmax) as (Hrb & Hbelow & Hstop).
    assert (HrN : r <= N).
    { destruct (Z_le_gt_dec r N) as [|Hgt]; [assumption|exfalso].
      destruct (Hbelow N ltac:(lia)) as (b & Hb & Hbv).
      subst N. rewrite Nat2Z.id in Hb. rewrite Hlast in Hb. injection Hb as <-. lra. }
    split; [lia|].
    intros Hstrict.
    destruct (Z.eq_dec r N) as [|Hne]; [assumption|exfalso].
    destruct (Hstop HrN) as (b & Hb & Hbv).
    assert (Hlt : (b < last rest q0)%Q).
    { eapply (StronglySorted_nth_error Qlt); [exact Hstrict| |exact Hb|exact Hlast].
      subst N. lia. }
    lra.
  - intros obs Hobs. apply DataArrayQuantizer_sorted; [discriminate|assumption].
Qed.

(** The theorem of C4 at the breakpoints 1, 2, 2, 4, 7. *)
Lemma quantizer_breakpoints_roundtrip_witness :
  StronglySorted Qle [1; 2; 2; 4; 7]%Q
  /\ DataArrayQuantizer [1; 2; 2; 4; 7]%Q 1%Q = Some 1.
Proof.
  assert (Hs : StronglySorted Qle [1; 2; 2; 4; 7]%Q).
  { repeat (constructor; [|repeat (constructor; try (unfold Qle; simpl; lia))]).
    constructor. }
  split; [exact Hs|].
  exact (proj1 (quantizer_breakpoints_roundtrip 1%Q [2; 2; 4; 7]%Q Hs)).
Defined.

(** CLAIM C4 fails as stated: the minimum of the breakpoints 1, 2, 3, 4, 5
    is given bucket 1, not 0; and the maximum of the breakpoints
    1, 2, 5, 5, 5 (N = 4) is given bucket 2, not N. *)
Lemma quantizer_breakpoints_roundtrip_counterexample :
  (* the minimum breakpoint is not given bucket 0 *)
  DataArrayQuantizer [1; 2; 3; 4; 5]%Q 1%Q = Some 1
  /\ DataArrayQuantizer [1; 2; 3; 4; 5]%Q 1%Q <> Some 0
  (* a maximum breakpoint that repeats is not given bucket N = 4 *)
  /\ StronglySorted Qle [1; 2; 5; 5; 5]%Q
  /\ DataArrayQuantizer [1; 2; 5; 5; 5]%Q 5%Q = Some 2.
Proof.
  split; [reflexivity|]. split; [discriminate|]. split; [|reflexivity].
  repeat (constructor; [|repeat (constructor; try (unfold Qle; simpl; lia))]).
  constructor.
Qed.

(** ** Labels of the quantile table *)

Lemma int_wrap_small (z : Z) : - 2 ^ 31 <= z < 2 ^ 31 -> int_wrap z = z.
Proof.
  intros Hz. unfold int_wrap. rewrite Z.mod_small; lia.
Qed.

Ltac strip_suffix H :=
  repeat
    match type of H with
    | (?s ++ _)%string = _ =>
        destruct s as [|? s]; simpl in H; [discriminate H|injection H as _ H]
    end.

(** ** Rounding of the target rank *)






(** ** The rank loops of Derive *)

(** The fuel given to the rank loop is never used up. *)
Lemma advance_finished (cdf : cdf_array) (nRowHist qIdx : Z) :
  forall (fuel : nat) (rank : Z),
    (Z.to_nat (nRowHist - rank + 1) < fuel)%nat ->
    advance fuel cdf nRowHist qIdx rank <> Unfinished.
Proof.
  induction fuel as [|fuel IH]; intros rank Hfuel; [lia|].
  cbn [advance].
  destruct (qIdx >? cdf_get cdf rank); [|discriminate].
  destruct (rank + 1 >? nRowHist) eqn:Hover; [discriminate|].
  apply IH. lia.
Qed.

Lemma advance_rank_finished (cdf : cdf_array) (nRowHist qIdx rank : Z) :
  advance_rank cdf nRowHist qIdx rank <> Unfinished.
Proof.
  unfold advance_rank. apply advance_finished. lia.
Qed.

(** *** No loop of Derive uses up its fuel *)

Lemma bind_finished {A B : Type} (r : result A) (f : A -> result B) :
  r <> Unfinished -> (forall a, f a <> Unfinished) -> bind r f <> Unfinished.
Proof.
  intros Hr Hf. destruct r; cbn [bind]; try discriminate; [apply Hf|congruence].
Qed.

Lemma map_result_finished {A B : Type} (f : A -> result B) (l : list A) :
  (forall x, f x <> Unfinished) -> map_result f l <> Unfinished.
Proof.
  intros Hf. induction l as [|x l IH]; cbn [map_result]; [discriminate|].
  apply bind_finished; [apply Hf|]. intros y.
  apply bind_finished; [exact IH|]. discriminate.
Qed.

Lemma get_finished {A : Type} (a : list A) (i : Z) : get a i <> Unfinished.
Proof.
  unfold get. destruct (i <? 0); [discriminate|].
  destruct (nth_error a (Z.to_nat i)); discriminate.
Qed.

Lemma interior_quantile_finished (def : QuantileDefinitionType) (cdf : cdf_array)
    (nRowHist : Z) (dh : double) (rank k : Z) :
  interior_quantile def cdf nRowHist dh rank k <> Unfinished.
Proof.
  unfold interior_quantile.
  apply bind_finished; [apply advance_rank_finished|]. intros rank1.
  destruct def; [discriminate|].
  destruct (negb _); [|discriminate].
  apply bind_finished; [apply advance_rank_finished|]. discriminate.
Qed.

Lemma interior_quantiles_finished (def : QuantileDefinitionType) (cdf : cdf_array)
    (nRowHist : Z) (dh : double) (ks : list Z) :
  forall rank, interior_quantiles def cdf nRowHist dh rank ks <> Unfinished.
Proof.
  induction ks as [|k ks IH]; intros rank; cbn [interior_quantiles]; [discriminate|].
  apply bind_finished; [apply interior_quantile_finished|]. intros p.
  apply bind_finished; [apply IH|]. discriminate.
Qed.

Lemma quantile_values_finished (def : QuantileDefinitionType) (vals : vtkAbstractArray)
    (quantileIndices : list (Z * Z)) :
  quantile_values def vals quantileIndices <> Unfinished.
Proof.
  assert (Hi : forall dvals qit, interpolate def dvals qit <> Unfinished).
  { intros dvals qit. destruct def; cbn [interpolate]; [apply get_finished|].
    apply bind_finished; [apply get_finished|]. intros a.
    apply bind_finished; [apply get_finished|]. discriminate. }
  destruct vals; cbn [quantile_values]; try discriminate;
    (apply bind_finished; [apply map_result_finished|discriminate]);
    intros qit; try apply Hi; apply get_finished.
Qed.

Lemma derive_histogram_finished (def : QuantileDefinitionType) (N : Z) (heap : Z -> Z)
    (histogramTab : vtkTable) :
  snd (derive_histogram def N heap histogramTab) <> Unfinished.
Proof.
  unfold derive_histogram.
  destruct (GetColumnByName histogramTab "Value") as [vals|]; [|discriminate].
  destruct (GetColumnByName histogramTab "Cardinality") as [[| card | | |]|];
    try discriminate.
  cbn [snd]. apply bind_finished.
  - unfold quantile_indices.
    apply bind_finished; [apply interior_quantiles_finished|]. discriminate.
  - intros quantileIndices. destruct (_ <=? _); [|discriminate].
    apply quantile_values_finished.
Qed.

Lemma derive_blocks_finished (def : QuantileDefinitionType) (N : Z) (heap : Z -> Z -> Z)
    (blocks : vtkMultiBlockDataSet) :
  forall b quantileTab, snd (derive_blocks def N heap b blocks quantileTab) <> Unfinished.
Proof.
  induction blocks as [|[varName block] blocks IH]; intros b quantileTab;
    cbn [derive_blocks]; [discriminate|].
  destruct (SafeDownCast_vtkTable block) as [histogramTab|].
  - pose proof (derive_histogram_finished def N (heap b) histogramTab) as Hh.
    destruct (derive_histogram def N (heap b) histogramTab) as [tab' r]. cbn [snd] in Hh.
    destruct r as [quantCol| | |]; try discriminate; [|congruence].
    match goal with
    | |- context [derive_blocks def N heap (b + 1) blocks ?qt] =>
        specialize (IH (b + 1) qt);
        destruct (derive_blocks def N heap (b + 1) blocks qt) as [rest' r']
    end.
    exact IH.
  - specialize (IH (b + 1) quantileTab).
    destruct (derive_blocks def N heap (b + 1) blocks quantileTab) as [rest' r'].
    exact IH.
Qed.

(** [Derive] comes to an end on every model. *)
Lemma Derive_finished (DoubleToString : double -> string) (def : QuantileDefinitionType)
    (N : Z) (heap : Z -> Z -> Z) (inMeta : option vtkMultiBlockDataSet) :
  snd (Derive DoubleToString def N heap inMeta) <> Unfinished.
Proof.
  unfold Derive. destruct inMeta as [blocks|]; [|discriminate].
  destruct (_ <? 1); [discriminate|].
  match goal with
  | |- context [derive_blocks def N heap 0 blocks ?qt] =>
      pose proof (derive_blocks_finished def N heap blocks 0 qt) as Hb;
      destruct (derive_blocks def N heap 0 blocks qt) as [blocks' r]
  end.
  cbn [snd] in Hb. destruct r; try discriminate. congruence.
Qed.



(** The last running sum is the total count. *)
Lemma running_sums_length (n : Z) (card : list Z) :
  length (running_sums n card) = length card.
Proof.
  revert n. induction card as [|c card IH]; intros n; simpl; [reflexivity|].
  rewrite IH. reflexivity.
Qed.



(** *** The targets stay below the total count *)

Lemma floor_fraction (a : Z) (p : positive) : floor (a # p) = a / Zpos p.
Proof. reflexivity. Qed.


(** *** The pairs of ranks form a chain *)





Lemma interior_ks_length (N : Z) : length (interior_ks N) = Z.to_nat (N - 1).
Proof.
  unfold interior_ks. rewrite length_map, length_seq. reflexivity.
Qed.

(** *** The values read along a chain are in order *)

Lemma get_in_range {A : Type} (a : list A) (i : Z) :
  0 <= i < Z.of_nat (length a) -> exists x, get a i = Ok x.
Proof.
  intros Hi. unfold get.
  destruct (Z.ltb_spec i 0); [lia|].
  destruct (nth_error a (Z.to_nat i)) as [x|] eqn:Hx; [exists x; reflexivity|].
  apply nth_error_None in Hx. lia.
Qed.

Lemma get_nth_error {A : Type} (a : list A) (i : Z) (x : A) :
  get a i = Ok x -> 0 <= i /\ nth_error a (Z.to_nat i) = Some x.
Proof.
  unfold get. destruct (Z.ltb_spec i 0); [discriminate|].
  destruct (nth_error a (Z.to_nat i)); [|discriminate].
  intros Heq; injection Heq as ->. split; [assumption|reflexivity].
Qed.

(** ** Derive: leaving through the error of a rank loop *)

Section DeriveAbort.

Variable DoubleToString : double -> string.

Lemma derive_blocks_abort (def : QuantileDefinitionType) (N : Z) (heap : Z -> Z -> Z)
    (varName : string) (histogramTab : vtkTable) (rest : vtkMultiBlockDataSet) :
  forall (front front' : vtkMultiBlockDataSet) (b : Z) (quantileTab quantileTab' : vtkTable),
    derive_blocks def N heap b front quantileTab = (front', Ok quantileTab') ->
    snd (derive_histogram def N (heap (b + Z.of_nat (length front))) histogramTab)
    = InconsistentTable ->
    derive_blocks def N heap b (front ++ (varName, TableBlock histogramTab) :: rest)%list
      quantileTab
    = ((front'
          ++ (varName,
              TableBlock
                (fst (derive_histogram def N (heap (b + Z.of_nat (length front)))
                        histogramTab)))
          :: rest)%list,
       InconsistentTable).
Proof.
  induction front as [|[name block] front IH]; intros front' b qt qt' Hfront Herr.
  - cbn [derive_blocks] in Hfront. injection Hfront as <- <-.
    cbn [app length derive_blocks SafeDownCast_vtkTable] in *.
    replace (b + Z.of_nat 0) with b in * by lia.
    destruct (derive_histogram def N (heap b) histogramTab) as [tab' r].
    cbn [fst snd] in *. subst r. reflexivity.
  - cbn [app length derive_blocks] in *.
    replace (b + Z.of_nat (S (length front))) with (b + 1 + Z.of_nat (length front))
      in * by lia.
    destruct (SafeDownCast_vtkTable block) as [tab|].
    + destruct (derive_histogram def N (heap b) tab) as [tab' r].
      destruct r as [quantCol| | |]; try (injection Hfront; discriminate).
      destruct (derive_blocks def N heap (b + 1) front _) as [done r'] eqn:Hrec.
      injection Hfront as <- ->.
      erewrite IH; [reflexivity|exact Hrec|exact Herr].
    + destruct (derive_blocks def N heap (b + 1) front qt) as [done r'] eqn:Hrec.
      injection Hfront as <- ->.
      erewrite IH; [reflexivity|exact Hrec|exact Herr].
Qed.

(** CLAIM C5, as amended: when a rank loop of [Derive] runs past the
    histogram bound for a block, after the blocks before it were derived
    without error, the error is reported and [Derive] returns at once:
    the blocks after the failing one are left exactly as they were (no
    quantiles are derived for them) and no "Quantiles" block is appended;
    the failing table keeps the cardinality and "P" written before the
    loop. *)
Theorem derive_rank_overflow_aborts (def : QuantileDefinitionType) (N : Z)
    (heap : Z -> Z -> Z) (front front' rest : vtkMultiBlockDataSet)
    (varName : string) (histogramTab : vtkTable) (quantileTab' : vtkTable) :
  derive_blocks def N heap 0 front
    [("Quantile", vtkStringArray (quantile_labels DoubleToString N))]
  = (front', Ok quantileTab') ->
  snd (derive_histogram def N (heap (Z.of_nat (length front))) histogramTab)
  = InconsistentTable ->
  Derive DoubleToString def N heap
    (Some (front ++ (varName, TableBlock histogramTab) :: rest)%list)
  = (Some (front'
             ++ (varName,
                 TableBlock
                   (fst (derive_histogram def N (heap (Z.of_nat (length front)))
                           histogramTab)))
             :: rest)%list,
     InconsistentTable).
Proof.
  intros Hfront Herr. unfold Derive.
  replace (Z.of_nat (length (front ++ (varName, TableBlock histogramTab) :: rest)%list) <? 1)
    with false
    by (symmetry; apply Z.ltb_ge; rewrite length_app; simpl length; lia).
  rewrite (derive_blocks_abort def N heap varName histogramTab rest
             front front' 0 _ quantileTab' Hfront Herr).
  reflexivity.
Qed.

End DeriveAbort.

(** The theorem of C5 on a model of an empty histogram followed by a
    sound one, with zeroes in the memory behind the CDF array. *)
Lemma derive_rank_overflow_aborts_witness :
  Derive (fun _ => "") InverseCDFAveragedSteps 4 (fun _ _ => 0)
    (Some ([] ++ ("x", TableBlock empty_histogram)
              :: [("y", TableBlock sample_histogram)])%list)
  = (Some ([] ++ ("x", TableBlock
                         (fst (derive_histogram InverseCDFAveragedSteps 4 (fun _ => 0)
                                 empty_histogram)))
              :: [("y", TableBlock sample_histogram)])%list,
     InconsistentTable).
Proof.
  apply (derive_rank_overflow_aborts (fun _ => "") InverseCDFAveragedSteps 4
           (fun _ _ => 0) [] [] [("y", TableBlock sample_histogram)] "x"
           empty_histogram
           [("Quantile", vtkStringArray (quantile_labels (fun _ => "") 4))]).
  - reflexivity.
  - reflexivity.
Defined.

(** CLAIM C5 fails as stated: in the model of the empty histogram "x"
    followed by the sound histogram "y" the error of "x" ends the call;
    "y" is not derived and no "Quantiles" block is appended, although
    "y" alone is derived without error. *)
Lemma derive_rank_overflow_counterexample :
  let inMeta := [("x", TableBlock empty_histogram); ("y", TableBlock sample_histogram)] in
  let after := Derive (fun _ => "") InverseCDFAveragedSteps 4 (fun _ _ => 0) (Some inMeta) in
  (* the rank loop of column x reports its error *)
  snd after = InconsistentTable
  (* column y is left as it was and no block is appended *)
  /\ (exists x', fst after = Some [("x", x'); ("y", TableBlock sample_histogram)])
  (* alone, column y is derived and the "Quantiles" block is appended *)
  /\ (exists y' quantileTab,
        Derive (fun _ => "") InverseCDFAveragedSteps 4 (fun _ _ => 0)
          (Some [("y", TableBlock sample_histogram)])
        = (Some [("y", y'); ("Quantiles", TableBlock quantileTab)], Ok tt)
        /\ y' <> TableBlock sample_histogram
        /\ GetColumnByName quantileTab "y" <> None).
Proof.
  cbv zeta. split; [reflexivity|]. split.
  - eexists. vm_compute. reflexivity.
  - eexists. eexists. split; [vm_compute; reflexivity|]. split; discriminate.
Qed.

(** ** Derive on a histogram without entries *)

Lemma advance_rank_empty (g : Z -> Z) (qIdx : Z) :
  advance_rank (mk_cdf [] g) 1 qIdx 1
  = if qIdx >? g 1 then InconsistentTable else Ok 1.
Proof.
  unfold advance_rank. cbn. unfold cdf_get. cbn.
  destruct (qIdx >? g 1); reflexivity.
Qed.

Lemma quantile_indices_empty (def : QuantileDefinitionType) (g : Z -> Z) :
  quantile_indices def 4 (mk_cdf [] g) 1 0
  = if (0 >? g 1) || (match def with
                      | InverseCDFAveragedSteps => 1 >? g 1
                      | InverseCDF => false
                      end)
    then InconsistentTable
    else Ok [(1, 1); (1, 1); (1, 1); (1, 1); (0, 0)].
Proof.
  unfold quantile_indices, interior_ks.
  change (map Z.of_nat (seq 1 (Z.to_nat (4 - 1)))) with [1; 2; 3].
  set (dh := (inject_Z 0 / inject_Z 4)%Q).
  assert (Hq1 : forall k, In k [1; 2; 3] ->
                first_quantile_index def (inject_Z k * dh)%Q = 0).
  { intros k [<-|[<-|[<-|[]]]]; destruct def; reflexivity. }
  assert (Hq2 : forall k, In k [1; 2; 3] -> floor (inject_Z k * dh + 1)%Q = 1).
  { intros k [<-|[<-|[<-|[]]]]; reflexivity. }
  cbn [interior_quantiles]. unfold interior_quantile.
  rewrite !Hq1, !Hq2 by (simpl; tauto).
  rewrite !advance_rank_empty.
  destruct (0 >? g 1) eqn:H0; [reflexivity|]. cbn [orb].
  destruct def.
  - repeat (cbn [bind snd fst]; rewrite ?advance_rank_empty, ?H0). reflexivity.
  - destruct (1 >? g 1) eqn:H1.
    + cbn [bind snd fst negb Z.eqb]. rewrite ?advance_rank_empty, ?H1. reflexivity.
    + repeat (cbn [bind snd fst negb Z.eqb]; rewrite ?advance_rank_empty, ?H0, ?H1).
      reflexivity.
Qed.

(** CLAIM C6 is not met by the code.  On a model whose only block is a
    histogram table holding nothing but the cardinality record
    (N = 4, either definition) [Derive] is not a no-op: it writes the
    cardinality 0 and the column "P" into the table, divides by the
    total count 0, and its first rank loop reads [cdf[1]] of an array of
    one cell; what is found there decides whether the call ends in its
    error or goes on to read a value outside the histogram. *)
Theorem derive_empty_histogram (def : QuantileDefinitionType) (heap : Z -> Z -> Z) :
  let inMeta := Some [("x", TableBlock empty_histogram)] in
  let after := Derive (fun _ => "") def 4 heap inMeta in
  let nRowHist := GetNumberOfRows empty_histogram in
  (* the table is written: cardinality 0 and the column "P" *)
  fst after
  = Some [("x", TableBlock [("Value", vtkStringArray [""]);
                            ("Cardinality", vtkIdTypeArray [0]);
                            ("P", vtkDoubleArray [(- (1))%Q])])]
  (* the divisor of [inv_n = 1. / n] is zero *)
  /\ total_count (entry_counts nRowHist [-1]) = 0
  (* the rank loop starts by reading cdf[1], outside the array *)
  /\ cdf_in_bounds nRowHist 1 = false
  (* the call ends in its error or in a read outside the values,
     depending on the memory behind the array *)
  /\ snd after
     = if (0 >? heap 0 1) || (match def with
                              | InverseCDFAveragedSteps => 1 >? heap 0 1
                              | InverseCDF => false
                              end)
       then InconsistentTable
       else OutOfBounds.
Proof.
  cbv zeta.
  assert (Hh : derive_histogram def 4 (heap 0) empty_histogram
               = ([("Value", vtkStringArray [""]);
                   ("Cardinality", vtkIdTypeArray [0]);
                   ("P", vtkDoubleArray [(- (1))%Q])],
                  if (0 >? heap 0 1) || (match def with
                                         | InverseCDFAveragedSteps => 1 >? heap 0 1
                                         | InverseCDF => false
                                         end)
                  then InconsistentTable
                  else OutOfBounds)).
  { unfold derive_histogram, empty_histogram.
    cbn [GetColumnByName String.eqb Ascii.eqb Bool.eqb GetNumberOfRows GetNumberOfTuples
         length Z.of_nat Pos.of_succ_nat entry_counts Z.to_nat Pos.to_nat Pos.iter_op
         Nat.add firstn tl total_count fold_left running_sums map set_first SetColumn].
    rewrite quantile_indices_empty.
    destruct (_ || _); reflexivity. }
  unfold Derive.
  cbn [length Z.of_nat Pos.of_succ_nat Z.ltb Z.compare Pos.compare Pos.compare_cont
       derive_blocks SafeDownCast_vtkTable].
  rewrite Hh.
  split; [|split; [reflexivity|split; [reflexivity|]]];
    destruct (_ || _); reflexivity.
Qed.

(** ** The order of [vtkStdString] keys *)

Lemma string_compare_refl (a : string) : String.compare a a = Eq.
Proof. apply String_as_OT.cmp_eq. reflexivity. Qed.

Lemma string_compare_Gt (a b : string) : String.compare a b = Gt <-> string_lt b a.
Proof.
  unfold string_lt. rewrite (String.compare_antisym b a).
  destruct (String.compare a b); simpl; split; congruence.
Qed.

Lemma string_lt_trans (a b c : string) : string_lt a b -> string_lt b c -> string_lt a c.
Proof.
  unfold string_lt. intros Hab Hbc.
  apply String_as_OT.cmp_lt in Hab. apply String_as_OT.cmp_lt in Hbc.
  apply String_as_OT.cmp_lt. eapply String_as_OT.lt_trans; eassumption.
Qed.

Lemma string_lt_irrefl (a : string) : ~ string_lt a a.
Proof. unfold string_lt. rewrite string_compare_refl. discriminate. Qed.

Lemma string_ltb_lt (a b : string) : String.ltb a b = true <-> string_lt a b.
Proof.
  unfold String.ltb, string_lt. destruct (String.compare a b); split; congruence.
Qed.

Lemma string_ge_true (a b : string) : string_ge a b = true <-> ~ string_lt a b.
Proof.
  unfold string_ge. rewrite negb_true_iff, <- string_ltb_lt.
  destruct (String.ltb a b); split; congruence.
Qed.

Lemma string_ge_false (a b : string) : string_ge a b = false <-> string_lt a b.
Proof.
  unfold string_ge. rewrite negb_false_iff. apply string_ltb_lt.
Qed.

Lemma string_trichotomy (a b : string) : string_lt a b \/ a = b \/ string_lt b a.
Proof.
  destruct (String.compare a b) eqn:Hc.
  - right. left. apply String_as_OT.cmp_eq. exact Hc.
  - left. exact Hc.
  - right. right. apply string_compare_Gt. exact Hc.
Qed.

Lemma string_ge_trans (a b c : string) :
  string_ge a b = true -> string_ge b c = true -> string_ge a c = true.
Proof.
  rewrite !string_ge_true. intros Hab Hbc Hac.
  destruct (string_trichotomy a b) as [H|[->|H]].
  - exact (Hab H).
  - exact (Hbc Hac).
  - apply Hbc. eapply string_lt_trans; eassumption.
Qed.

Lemma string_lt_ge (a b : string) : string_lt a b -> string_ge b a = true.
Proof.
  intros Hab. apply string_ge_true. intros Hba.
  apply (string_lt_irrefl a). eapply string_lt_trans; eassumption.
Qed.

Lemma string_ge_refl (a : string) : string_ge a a = true.
Proof. apply string_ge_true. apply string_lt_irrefl. Qed.

(** ** Maps in key order *)

Lemma map_add_keys (cdf : CDF) (key : string) (x : double) (k : string) :
  In k (keys (map_add cdf key x)) <-> k = key \/ In k (keys cdf).
Proof.
  induction cdf as [|[k1 v1] cdf IH]; cbn [map_add].
  - simpl. intuition congruence.
  - destruct (String.compare key k1) eqn:Hc.
    + apply String_as_OT.cmp_eq in Hc. subst k1. simpl. intuition congruence.
    + simpl. intuition congruence.
    + simpl. simpl in IH. rewrite IH. intuition congruence.
Qed.

Lemma map_add_ascending (cdf : CDF) (key : string) (x : double) :
  ascending cdf -> ascending (map_add cdf key x).
Proof.
  unfold ascending. induction cdf as [|[k1 v1] cdf IH]; intros Hs; cbn [map_add].
  - simpl. constructor; constructor.
  - simpl in Hs. apply StronglySorted_inv in Hs. destruct Hs as [Hs Hall].
    destruct (String.compare key k1) eqn:Hc.
    + simpl. constructor; assumption.
    + simpl. constructor.
      * constructor; assumption.
      * constructor; [exact Hc|].
        eapply Forall_impl; [|exact Hall]. intros k Hk.
        eapply string_lt_trans; [exact Hc|exact Hk].
    + simpl. constructor; [apply IH; assumption|].
      rewrite Forall_forall in *. intros k Hk.
      apply (map_add_keys cdf key x k) in Hk. destruct Hk as [->|Hk].
      * apply string_compare_Gt. exact Hc.
      * apply Hall. exact Hk.
Qed.

Lemma empirical_pdf_invariant (inv_card : double) (observations : list string) :
  forall cdf,
    ascending cdf ->
    let cdf' := fold_left (fun cdf o => map_add cdf o inv_card) observations cdf in
    ascending cdf'
    /\ (forall k, In k (keys cdf') <-> In k observations \/ In k (keys cdf)).
Proof.
  induction observations as [|o observations IH]; intros cdf Hs; cbn [fold_left].
  - cbv zeta. split; [assumption|]. simpl. tauto.
  - destruct (IH (map_add cdf o inv_card) (map_add_ascending cdf o inv_card Hs))
      as [Hs' Hk'].
    cbv zeta. split; [exact Hs'|]. intros k. rewrite Hk', map_add_keys.
    simpl. intuition congruence.
Qed.

Lemma integrate_keys (cdf : CDF) : forall sum, keys (fst (integrate sum cdf)) = keys cdf.
Proof.
  induction cdf as [|[k v] cdf IH]; intros sum; cbn [integrate]; [reflexivity|].
  specialize (IH (sum + v)%Q). destruct (integrate (sum + v)%Q cdf) as [rest total].
  simpl in *. rewrite IH. reflexivity.
Qed.

(** *** Sums over the entries whose key satisfies a test *)

Lemma ascending_nil : ascending [].
Proof. constructor. Qed.

(** ** The walk over the merged CDF *)





(** The map the walk receives is in key order. *)
Lemma insert_quantile_keys (cdf : CDF) (quantile : string) (k : string) :
  forall pred,
    In k (keys (insert_quantile pred cdf quantile)) <-> k = quantile \/ In k (keys cdf).
Proof.
  induction cdf as [|[k1 v1] cdf IH]; intros pred; cbn [insert_quantile].
  - simpl. intuition congruence.
  - destruct (String.compare quantile k1) eqn:Hc.
    + apply String_as_OT.cmp_eq in Hc. subst k1. simpl. intuition congruence.
    + simpl. intuition congruence.
    + simpl. specialize (IH (Some v1)). simpl in IH. rewrite IH. intuition congruence.
Qed.

Lemma insert_quantile_ascending (cdf : CDF) (quantile : string) :
  forall pred, ascending cdf -> ascending (insert_quantile pred cdf quantile).
Proof.
  unfold ascending. induction cdf as [|[k1 v1] cdf IH]; intros pred Hs; cbn [insert_quantile].
  - simpl. constructor; constructor.
  - simpl in Hs. apply StronglySorted_inv in Hs. destruct Hs as [Hs Hall].
    destruct (String.compare quantile k1) eqn:Hc.
    + simpl. constructor; assumption.
    + simpl. constructor.
      * constructor; assumption.
      * constructor; [exact Hc|].
        eapply Forall_impl; [|exact Hall]. intros k Hk.
        eapply string_lt_trans; [exact Hc|exact Hk].
    + simpl. constructor; [apply IH; assumption|].
      rewrite Forall_forall in *. intros k Hk.
      apply (insert_quantile_keys cdf quantile k (Some v1)) in Hk. destruct Hk as [->|Hk].
      * apply string_compare_Gt. exact Hc.
      * apply Hall. exact Hk.
Qed.

Lemma empirical_cdf_ascending (inv_card : double) (observations : list string) :
  ascending (fst (empirical_cdf inv_card observations)).
Proof.
  unfold ascending, empirical_cdf. rewrite integrate_keys.
  exact (proj1 (empirical_pdf_invariant inv_card observations [] ascending_nil)).
Qed.

Lemma merged_cdf_ascending (inv_card : double) (observations quantiles : list string) :
  ascending (insert_quantiles (fst (empirical_cdf inv_card observations)) quantiles).
Proof.
  unfold insert_quantiles.
  generalize (empirical_cdf_ascending inv_card observations).
  generalize (fst (empirical_cdf inv_card observations)).
  induction quantiles as [|q quantiles IH]; intros cdf Hs; cbn [fold_left]; [assumption|].
  apply IH. apply insert_quantile_ascending. assumption.
Qed.

(** *** No loop of Test uses up its fuel *)

Lemma advance_quantile_finished (quantiles : list string) (nQuant : Z) (key : string) :
  forall (fuel : nat) (c : Z),
    (Z.to_nat (nQuant - c) < fuel)%nat ->
    advance_quantile fuel quantiles nQuant key c <> Unfinished.
Proof.
  induction fuel as [|fuel IH]; intros c Hfuel; [lia|].
  cbn [advance_quantile].
  destruct (Z.ltb_spec c nQuant); [|discriminate].
  apply bind_finished; [apply get_finished|]. intros q.
  destruct (string_ge key q); [|discriminate].
  apply IH. lia.
Qed.

Lemma walk_finished (quantiles : list string) (nQuant : Z) (inv_nq : double)
    (cdfEmpirical : CDF) :
  forall st, walk quantiles nQuant inv_nq st cdfEmpirical <> Unfinished.
Proof.
  induction cdfEmpirical as [|cit rest IH]; intros st; cbn [walk]; [discriminate|].
  apply bind_finished.
  - unfold walk_step. apply bind_finished; [apply get_finished|]. intros q0.
    apply bind_finished; [|discriminate].
    destruct (string_ge (fst cit) q0); [|discriminate].
    apply bind_finished; [|discriminate].
    apply advance_quantile_finished. lia.
  - intros st'. apply bind_finished; [apply IH|]. discriminate.
Qed.

Section TestFinished.

Variable DoubleToString : double -> string.
Variable sqrt : double -> double.

Lemma test_request_finished (inData quantileTab : vtkTable) (request : list string) :
  test_request DoubleToString sqrt inData quantileTab request <> Unfinished.
Proof.
  unfold test_request. destruct request as [|varName _]; [discriminate|].
  destruct (GetColumnByName inData varName) as [col|]; [|discriminate].
  destruct (GetColumnByName quantileTab varName) as [quantCol|]; [|discriminate].
  destruct (empirical_cdf _ _) as [cdfEmpirical sum].
  destruct (double_lt _ _); [discriminate|].
  apply bind_finished; [apply walk_finished|]. discriminate.
Qed.

Lemma test_requests_finished (inData quantileTab : vtkTable)
    (Requests : list (list string)) :
  test_requests DoubleToString sqrt inData quantileTab Requests <> Unfinished.
Proof.
  induction Requests as [|request rest IH]; cbn [test_requests]; [discriminate|].
  apply bind_finished; [apply test_request_finished|]. intros row.
  apply bind_finished; [exact IH|]. discriminate.
Qed.

(** [Test] comes to an end on every input. *)
Lemma Test_finished (Requests : list (list string)) (inData : vtkTable)
    (inMeta : option vtkMultiBlockDataSet) (outMeta : option vtkTable) :
  Test DoubleToString sqrt Requests inData inMeta outMeta <> Unfinished.
Proof.
  unfold Test. destruct inMeta as [blocks|]; [|discriminate].
  destruct (_ <? 1); [discriminate|].
  destruct (nth_error _ _) as [[name block]|]; [|discriminate].
  destruct (SafeDownCast_vtkTable block) as [quantileTab|]; [|discriminate].
  destruct (negb _); [discriminate|].
  destruct outMeta as [out|]; [|discriminate].
  apply bind_finished; [apply test_requests_finished|]. discriminate.
Qed.

End TestFinished.

(** ** The quantile table is the last block *)

Lemma nth_error_snoc {A : Type} (front : list A) (x : A) :
  nth_error (front ++ [x]) (Z.to_nat (Z.of_nat (length (front ++ [x])) - 1)) = Some x.
Proof.
  rewrite length_app. simpl length.
  replace (Z.to_nat (Z.of_nat (length front + 1) - 1)) with (length front) by lia.
  rewrite nth_error_app2 by lia. rewrite Nat.sub_diag. reflexivity.
Qed.

Section LastBlock.

Variable DoubleToString : double -> string.
Variable sqrt : double -> double.

(** CLAIM C10: when the model has no block, or its last block is not a
    table, or the last block carries a name other than "Quantiles",
    [Test] leaves its output table untouched and [SelectAssessFunctor]
    leaves the functor null, whatever the blocks before the last one are
    (a "Quantiles" table among them included). *)
Theorem quantiles_block_must_be_last (Requests : list (list string))
    (inData outData : vtkTable) (outMeta : option vtkTable) (rowNames : list string)
    (blocks : vtkMultiBlockDataSet) :
  (blocks = []
   \/ exists front name block,
        blocks = (front ++ [(name, block)])%list
        /\ (SafeDownCast_vtkTable block = None \/ name <> "Quantiles")) ->
  Test DoubleToString sqrt Requests inData (Some blocks) outMeta = Ok outMeta
  /\ SelectAssessFunctor outData (Some blocks) rowNames = Ok None.
Proof.
  intros [->|(front & name & block & -> & Hbad)]; [split; reflexivity|].
  unfold Test, SelectAssessFunctor.
  rewrite nth_error_snoc.
  destruct (Z.of_nat (length (front ++ [(name, block)])) <? 1); [split; reflexivity|].
  destruct Hbad as [Hcast|Hname].
  - rewrite Hcast. split; reflexivity.
  - destruct (SafeDownCast_vtkTable block); [|split; reflexivity].
    apply String.eqb_neq in Hname. rewrite Hname. split; reflexivity.
Qed.

(** What both operations compute depends on the last block only. *)
Lemma last_block_only (Requests : list (list string))
    (inData outData : vtkTable) (outMeta : option vtkTable) (rowNames : list string)
    (front : vtkMultiBlockDataSet) (last : string * vtkDataObject) :
  Test DoubleToString sqrt Requests inData (Some (front ++ [last])%list) outMeta
  = Test DoubleToString sqrt Requests inData (Some [last]) outMeta
  /\ SelectAssessFunctor outData (Some (front ++ [last])%list) rowNames
     = SelectAssessFunctor outData (Some [last]) rowNames.
Proof.
  unfold Test, SelectAssessFunctor.
  rewrite nth_error_snoc.
  replace (Z.of_nat (length (front ++ [last])) <? 1) with false
    by (symmetry; apply Z.ltb_ge; rewrite length_app; simpl length; lia).
  split; reflexivity.
Qed.

End LastBlock.

(** The theorem of C10 on a model whose "Quantiles" table comes first
    and a histogram table last. *)
Lemma quantiles_block_must_be_last_witness :
  let quantileTab := [("Quantile", vtkStringArray ["Minimum"; "Maximum"]);
                      ("x", vtkDoubleArray [1; 2]%Q)] in
  let histogramTab := [("Value", vtkDoubleArray [0; 1; 2]%Q);
                       ("Cardinality", vtkIdTypeArray [2; 1; 1])] in
  let inData := [("x", vtkDoubleArray [1; 2]%Q)] in
  let blocks := [("Quantiles", TableBlock quantileTab); ("x", TableBlock histogramTab)] in
  Test (fun _ => "") (fun x => x) [["x"]] inData (Some blocks) (Some []) = Ok (Some [])
  /\ SelectAssessFunctor inData (Some blocks) ["x"] = Ok None.
Proof.
  cbv zeta.
  apply (quantiles_block_must_be_last (fun _ => "") (fun x => x)).
  right. eexists [_], "x", _. split; [reflexivity|].
  right. discriminate.
Defined.

(** * Further properties of Learn, Derive and Test *)

(** ** Learn: the histogram of a column *)

Lemma total_count_cons (c : Z) (counts : list Z) :
  total_count (c :: counts) = c + total_count counts.
Proof.
  unfold total_count. cbn [fold_left].
  assert (Hgen : forall l a, fold_left Z.add l a = a + fold_left Z.add l 0).
  { induction l as [|x l IH]; intros a; cbn [fold_left]; [lia|].
    rewrite (IH (a + x)), (IH (0 + x)). lia. }
  rewrite Hgen. lia.
Qed.

Section HistogramFacts.

Context {V : Type} `{Less V}.

Lemma histogram_increment_total (histogram : list (V * Z)) (value : V) :
  total_count (map snd (histogram_increment histogram value))
  = total_count (map snd histogram) + 1.
Proof.
  induction histogram as [|[k c] histogram IH]; cbn [histogram_increment].
  - reflexivity.
  - destruct (less value k); [|destruct (less k value)]; cbn [map snd];
      rewrite ?total_count_cons; cbn [map snd] in *; rewrite ?total_count_cons, ?IH; lia.
Qed.

Lemma histogram_increment_positive (histogram : list (V * Z)) (value : V) :
  Forall (fun c => 0 < c) (map snd histogram) ->
  Forall (fun c => 0 < c) (map snd (histogram_increment histogram value)).
Proof.
  induction histogram as [|[k c] histogram IH]; intros Hpos; cbn [histogram_increment].
  - repeat constructor.
  - cbn [map snd] in Hpos. apply Forall_cons_iff in Hpos. destruct Hpos as [Hc Hpos].
    destruct (less value k); [|destruct (less k value)]; cbn [map snd].
    + constructor; [lia|]. constructor; assumption.
    + constructor; [assumption|]. apply IH. assumption.
    + constructor; [lia|assumption].
Qed.

Lemma histogram_increment_keys (histogram : list (V * Z)) (value x : V) :
  In x (map fst (histogram_increment histogram value)) ->
  x = value \/ In x (map fst histogram).
Proof.
  induction histogram as [|[k c] histogram IH]; cbn [histogram_increment].
  - simpl. intuition.
  - destruct (less value k); [|destruct (less k value)]; simpl; intuition.
Qed.

Lemma histogram_of_counts (values : list V) :
  forall histogram,
    Forall (fun c => 0 < c) (map snd histogram) ->
    let histogram' := fold_left histogram_increment values histogram in
    Forall (fun c => 0 < c) (map snd histogram')
    /\ total_count (map snd histogram')
       = total_count (map snd histogram) + Z.of_nat (length values).
Proof.
  induction values as [|v values IH]; intros histogram Hpos; cbn [fold_left].
  - cbv zeta. split; [assumption|]. simpl. lia.
  - destruct (IH (histogram_increment histogram v)
                (histogram_increment_positive histogram v Hpos)) as [Hp Ht].
    cbv zeta. split; [exact Hp|].
    rewrite Ht, histogram_increment_total. simpl length. lia.
Qed.

(** With a transitive [operator<] the entries stay in ascending order. *)
Hypothesis less_trans :
  forall a b c : V, less a b = true -> less b c = true -> less a c = true.

Lemma histogram_increment_ascending (histogram : list (V * Z)) (value : V) :
  entries_ascending histogram -> entries_ascending (histogram_increment histogram value).
Proof.
  unfold entries_ascending.
  induction histogram as [|[k c] histogram IH]; intros Hs; cbn [histogram_increment].
  - simpl. constructor; constructor.
  - cbn [map fst] in Hs. apply StronglySorted_inv in Hs. destruct Hs as [Hs Hall].
    destruct (less value k) eqn:Hvk; [|destruct (less k value) eqn:Hkv]; cbn [map fst].
    + constructor; [constructor; assumption|].
      constructor; [exact Hvk|].
      eapply Forall_impl; [|exact Hall]. intros x Hx. eapply less_trans; eassumption.
    + constructor; [apply IH; assumption|].
      rewrite Forall_forall in *. intros x Hx.
      apply histogram_increment_keys in Hx. destruct Hx as [->|Hx]; [exact Hkv|].
      apply Hall. exact Hx.
    + constructor; assumption.
Qed.

Lemma histogram_of_ascending (values : list V) :
  forall histogram,
    entries_ascending histogram ->
    entries_ascending (fold_left histogram_increment values histogram).
Proof.
  induction values as [|v values IH]; intros histogram Hs; cbn [fold_left]; [assumption|].
  apply IH. apply histogram_increment_ascending. assumption.
Qed.

End HistogramFacts.

Section HistogramCounts.

Context {V : Type} `{Less V}.

(** [operator<] is a strict weak order. *)
Hypothesis less_irrefl : forall a : V, less a a = false.
Hypothesis less_trans :
  forall a b c : V, less a b = true -> less b c = true -> less a c = true.
Hypothesis less_equivalent :
  forall a b c : V, equivalent a b = true -> equivalent c a = equivalent c b.

Lemma counts_where_increment (P : V -> bool) (histogram : list (V * Z)) (value : V) :
  (forall k, equivalent value k = true -> P k = P value) ->
  counts_where P (histogram_increment histogram value)
  = counts_where P histogram + (if P value then 1 else 0).
Proof.
  intros HP. induction histogram as [|[k c] histogram IH]; cbn [histogram_increment].
  - simpl. destruct (P value); lia.
  - destruct (less value k) eqn:Hvk; [|destruct (less k value) eqn:Hkv];
      cbn [counts_where].
    + destruct (P value), (P k); lia.
    + rewrite IH. destruct (P value), (P k); lia.
    + assert (Hk : P k = P value).
      { apply HP. unfold equivalent. rewrite Hvk, Hkv. reflexivity. }
      rewrite Hk. destruct (P value); lia.
Qed.

Lemma counts_where_histogram_of (x : V) (values : list V) :
  forall histogram,
    counts_where (equivalent x) (fold_left histogram_increment values histogram)
    = counts_where (equivalent x) histogram
      + Z.of_nat (length (filter (equivalent x) values)).
Proof.
  induction values as [|v values IH]; intros histogram; cbn [fold_left filter].
  - simpl. lia.
  - rewrite IH, counts_where_increment.
    + destruct (equivalent x v); [simpl length|]; lia.
    + intros k Hk. symmetry. apply less_equivalent. exact Hk.
Qed.

Lemma counts_where_none (P : V -> bool) (histogram : list (V * Z)) :
  Forall (fun k => P k = false) (map fst histogram) -> counts_where P histogram = 0.
Proof.
  induction histogram as [|[k c] histogram IH]; intros Hall; cbn [counts_where]; [reflexivity|].
  cbn [map fst] in Hall. apply Forall_cons_iff in Hall. destruct Hall as [Hk Hall].
  rewrite Hk, (IH Hall). reflexivity.
Qed.

(** In an ascending histogram the count of a key is the sum over the
    keys equivalent to it: there is no other such key. *)
Lemma counts_where_entry (histogram : list (V * Z)) (k : V) (c : Z) :
  entries_ascending histogram ->
  In (k, c) histogram ->
  counts_where (equivalent k) histogram = c.
Proof.
  unfold entries_ascending.
  induction histogram as [|[k1 c1] histogram IH]; intros Hs Hin; [destruct Hin|].
  cbn [map fst] in Hs. apply StronglySorted_inv in Hs. destruct Hs as [Hs Hall].
  cbn [counts_where]. destruct Hin as [Heq|Hin].
  - injection Heq as -> ->.
    unfold equivalent at 1. rewrite less_irrefl. cbn [negb andb].
    rewrite counts_where_none; [lia|].
    eapply Forall_impl; [|exact Hall]. intros x Hx. cbv beta in Hx.
    unfold equivalent. rewrite Hx. reflexivity.
  - rewrite (IH Hs Hin).
    assert (Hk : less k1 k = true).
    { rewrite Forall_forall in Hall. apply Hall. apply in_map_iff.
      exists (k, c). split; [reflexivity|exact Hin]. }
    unfold equivalent. rewrite Hk. rewrite andb_false_r. lia.
Qed.

Lemma histogram_of_entry (values : list V) (k : V) (c : Z) :
  In (k, c) (histogram_of values) ->
  c = Z.of_nat (length (filter (equivalent k) values)).
Proof.
  intros Hin. unfold histogram_of in *.
  assert (Hs : entries_ascending (fold_left histogram_increment values (@nil (V * Z)))).
  { apply histogram_of_ascending; [exact less_trans|constructor]. }
  pose proof (counts_where_entry _ k c Hs Hin) as Hc.
  rewrite counts_where_histogram_of in Hc. cbn [counts_where] in Hc. lia.
Qed.

(** Every value of the column has its entry. *)
Lemma histogram_increment_present (histogram : list (V * Z)) (value : V) :
  exists k, In k (map fst (histogram_increment histogram value))
            /\ equivalent value k = true.
Proof.
  induction histogram as [|[k c] histogram IH]; cbn [histogram_increment].
  - exists value. split; [left; reflexivity|].
    unfold equivalent. rewrite less_irrefl. reflexivity.
  - destruct (less value k) eqn:Hvk; [|destruct (less k value) eqn:Hkv].
    + exists value. split; [left; reflexivity|].
      unfold equivalent. rewrite less_irrefl. reflexivity.
    + destruct IH as (k' & Hin & Heq). exists k'. split; [right; exact Hin|exact Heq].
    + exists k. split; [left; reflexivity|].
      unfold equivalent. rewrite Hvk, Hkv. reflexivity.
Qed.

Lemma histogram_increment_keeps (histogram : list (V * Z)) (value x : V) :
  In x (map fst histogram) -> In x (map fst (histogram_increment histogram value)).
Proof.
  induction histogram as [|[k c] histogram IH]; cbn [histogram_increment]; [intros []|].
  destruct (less value k); [|destruct (less k value)]; simpl; intuition.
Qed.

Lemma histogram_of_present (values : list V) (v : V) :
  In v values ->
  exists k, In k (map fst (histogram_of values)) /\ equivalent v k = true.
Proof.
  unfold histogram_of. generalize (@nil (V * Z)).
  induction values as [|w values IH]; intros histogram Hin; [destruct Hin|].
  cbn [fold_left]. destruct Hin as [->|Hin]; [|apply IH; exact Hin].
  destruct (histogram_increment_present histogram v) as (k & Hk & Heq).
  exists k. split; [|exact Heq].
  clear - Hk. revert Hk. generalize (histogram_increment histogram v).
  induction values as [|w values IH]; intros h Hk; cbn [fold_left]; [exact Hk|].
  apply IH. apply histogram_increment_keeps. exact Hk.
Qed.

End HistogramCounts.

Lemma histogram_of_keys_values {V : Type} `{Less V} (values : list V) (x : V) :
  forall histogram,
    In x (map fst (fold_left histogram_increment values histogram)) ->
    In x values \/ In x (map fst histogram).
Proof.
  induction values as [|v values IH]; intros histogram Hin; cbn [fold_left] in Hin.
  - right. exact Hin.
  - destruct (IH _ Hin) as [Hv|Hk]; [left; right; exact Hv|].
    apply histogram_increment_keys in Hk. destruct Hk as [->|Hk].
    + left. left. reflexivity.
    + right. exact Hk.
Qed.

(** *** The order of strings *)

Lemma string_equivalent (a b : string) : equivalent a b = String.eqb a b.
Proof.
  unfold equivalent. change (@less string string_Less) with String.ltb.
  destruct (String.eqb_spec a b) as [->|Hne].
  - assert (Hf : String.ltb b b = false).
    { destruct (String.ltb b b) eqn:Hl; [|reflexivity].
      apply string_ltb_lt in Hl. exfalso. exact (string_lt_irrefl b Hl). }
    rewrite Hf. reflexivity.
  - destruct (string_trichotomy a b) as [Hl|[Heq|Hl]]; [|congruence|];
      apply string_ltb_lt in Hl; rewrite Hl; [reflexivity|apply andb_false_r].
Qed.

Lemma string_less_irrefl (a : string) : less a a = false.
Proof.
  change (@less string string_Less) with String.ltb.
  destruct (String.ltb a a) eqn:Hl; [|reflexivity].
  apply string_ltb_lt in Hl. exfalso. exact (string_lt_irrefl a Hl).
Qed.

Lemma string_less_trans (a b c : string) :
  less a b = true -> less b c = true -> less a c = true.
Proof.
  change (@less string string_Less) with String.ltb.
  rewrite !string_ltb_lt. apply string_lt_trans.
Qed.

Lemma string_less_equivalent (a b c : string) :
  equivalent a b = true -> equivalent c a = equivalent c b.
Proof.
  rewrite (string_equivalent a b). intros Hab. apply String.eqb_eq in Hab.
  subst b. reflexivity.
Qed.

Lemma filter_eqb_count_occ (k : string) (l : list string) :
  length (filter (String.eqb k) l) = count_occ string_dec l k.
Proof.
  induction l as [|x l IH]; [reflexivity|].
  cbn [filter count_occ]. destruct (string_dec x k) as [->|Hne].
  - rewrite String.eqb_refl. simpl length. rewrite IH. reflexivity.
  - replace (String.eqb k x) with false; [exact IH|].
    symmetry. apply String.eqb_neq. congruence.
Qed.

Lemma StronglySorted_impl {A : Type} (R R' : A -> A -> Prop) (l : list A) :
  (forall a b, R a b -> R' a b) -> StronglySorted R l -> StronglySorted R' l.
Proof.
  intros HR. induction 1 as [|x l Hs IH Hall]; constructor; [assumption|].
  eapply Forall_impl; [|exact Hall]. intros b. apply HR.
Qed.

Section LearnFacts.

Variable Nan : double.
Context (variant_less : Less vtkVariant).

(** X2 ([Learn], text column): the histogram table of a column of
    strings holds the empty string and the cardinality -1 in row 0 and,
    after it, one row per distinct string in strictly ascending order of
    [vtkStdString].  The strings of the rows are exactly the strings of
    the column, the count of a row is the number of occurrences of its
    string, and the counts add up to the number of cells. *)
Theorem learn_text_histogram (svals : list string) :
  exists histogram,
    learn_histogram Nan variant_less (vtkStringArray svals)
    = Some [("Value", vtkStringArray ("" :: map fst histogram));
            ("Cardinality", vtkIdTypeArray (-1 :: map snd histogram))]
    /\ StronglySorted string_lt (map fst histogram)
    /\ (forall k, In k (map fst histogram) <-> In k svals)
    /\ (forall k c, In (k, c) histogram ->
          0 < c /\ c = Z.of_nat (count_occ string_dec svals k))
    /\ total_count (map snd histogram) = Z.of_nat (length svals).
Proof.
  exists (histogram_of svals).
  destruct (histogram_of_counts svals [] ltac:(constructor)) as [Hpos Htotal].
  cbv zeta in Hpos, Htotal.
  split; [reflexivity|]. split; [|split; [|split]].
  - eapply StronglySorted_impl;
      [|exact (histogram_of_ascending string_less_trans svals [] ltac:(constructor))].
    intros a b Hab. apply string_ltb_lt. exact Hab.
  - intros k. split.
    + intros Hk. destruct (histogram_of_keys_values svals k [] Hk) as [Hv|[]]. exact Hv.
    + intros Hk.
      destruct (histogram_of_present string_less_irrefl svals k Hk) as (k' & Hk' & Heq).
      rewrite string_equivalent in Heq. apply String.eqb_eq in Heq. subst k'. exact Hk'.
  - intros k c Hin. split.
    + rewrite Forall_forall in Hpos. apply Hpos. apply in_map_iff.
      exists (k, c). split; [reflexivity|exact Hin].
    + rewrite (histogram_of_entry string_less_irrefl string_less_trans
                 string_less_equivalent svals k c Hin).
      rewrite <- filter_eqb_count_occ. do 2 f_equal.
      apply filter_ext. intros s. apply string_equivalent.
  - exact Htotal.
Qed.

End LearnFacts.

Section LearnBlocks.

Variable Nan : double.
Context (variant_less : Less vtkVariant).

Lemma learnable_histogram (inData : vtkTable) (col : string) :
  learnable inData col = true <->
  exists vals histogramTab,
    GetColumnByName inData col = Some vals
    /\ learn_histogram Nan variant_less vals = Some histogramTab.
Proof.
  unfold learnable. destruct (GetColumnByName inData col) as [vals|].
  - destruct vals; cbn [learn_histogram tuples]; split;
      try (intros _; eexists; eexists; split; reflexivity);
      try (intros; reflexivity).
    + discriminate.
    + intros (vals & tab & Hv & Ht). injection Hv as <-. discriminate Ht.
  - split; [discriminate|]. intros (vals & tab & Hv & _). discriminate Hv.
Qed.

Lemma learn_requests_appends (inData : vtkTable) (Requests : list (list string)) :
  Forall (fun request => request <> []) Requests ->
  forall blocks,
    exists new,
      learn_requests Nan variant_less inData Requests blocks = Ok (blocks ++ new)%list
      /\ map fst new = filter (learnable inData) (map (hd "") Requests)
      /\ Forall (fun b =>
                   exists vals histogramTab,
                     GetColumnByName inData (fst b) = Some vals
                     /\ learn_histogram Nan variant_less vals = Some histogramTab
                     /\ snd b = TableBlock histogramTab) new.
Proof.
  induction 1 as [|request Requests Hne Hall IH]; intros blocks.
  - exists []. rewrite app_nil_r. repeat split. constructor.
  - destruct request as [|col others]; [congruence|].
    cbn [learn_requests map hd filter].
    destruct (learnable inData col) eqn:Hlearn.
    + apply learnable_histogram in Hlearn. destruct Hlearn as (vals & tab & Hv & Ht).
      rewrite Hv, Ht.
      destruct (IH (blocks ++ [(col, TableBlock tab)])%list) as (new & Hnew & Hnames & Hb).
      exists ((col, TableBlock tab) :: new). split; [|split].
      * rewrite Hnew, <- app_assoc. reflexivity.
      * cbn [map fst]. rewrite Hnames. reflexivity.
      * constructor; [|exact Hb]. exists vals, tab. cbn [fst snd].
        repeat split; assumption.
    + destruct (GetColumnByName inData col) as [vals|] eqn:Hv; [|apply IH].
      destruct (learn_histogram Nan variant_less vals) as [tab|] eqn:Ht; [|apply IH].
      assert (Hl : learnable inData col = true).
      { apply learnable_histogram. exists vals, tab. split; assumption. }
      congruence.
Qed.

(** X3 ([Learn], the output model): the blocks the model already holds
    are kept in place, and one block is appended per request whose first
    column is present in the data with a supported array type, in the
    order of the requests; the block carries the name of the column and
    the histogram table of that column.  Requests for a missing column
    or for a column of another type leave no trace. *)
Theorem learn_appends_blocks (Requests : list (list string)) (inData : vtkTable)
    (blocks : vtkMultiBlockDataSet) :
  Forall (fun request => request <> []) Requests ->
  exists new,
    Learn Nan variant_less Requests (Some inData) (Some blocks)
    = Ok (Some (blocks ++ new)%list)
    /\ map fst new = filter (learnable inData) (map (hd "") Requests)
    /\ Forall (fun b =>
                 exists vals histogramTab,
                   GetColumnByName inData (fst b) = Some vals
                   /\ learn_histogram Nan variant_less vals = Some histogramTab
                   /\ snd b = TableBlock histogramTab) new.
Proof.
  intros Hne. destruct (learn_requests_appends inData Requests Hne blocks)
    as (new & Hnew & Hnames & Hb).
  exists new. unfold Learn. rewrite Hnew. cbn [bind]. repeat split; assumption.
Qed.

End LearnBlocks.

(** The theorem of X3 on three requests, of which the second names a
    column the data do not have. *)
Lemma learn_appends_blocks_witness :
  let inData := [("x", vtkDoubleArray [1; 2]%Q); ("s", vtkStringArray ["a"; "b"])] in
  let blocks := [("old", OtherBlock)] in
  exists new,
    Learn 0%Q (fun _ _ => false) [["s"]; ["u"]; ["x"; "y"]] (Some inData) (Some blocks)
    = Ok (Some (blocks ++ new)%list)
    /\ map fst new = ["s"; "x"]
    /\ Forall (fun b =>
                 exists vals histogramTab,
                   GetColumnByName inData (fst b) = Some vals
                   /\ learn_histogram 0%Q (fun _ _ => false) vals = Some histogramTab
                   /\ snd b = TableBlock histogramTab) new.
Proof.
  cbv zeta.
  apply (learn_appends_blocks 0%Q (fun _ _ => false) [["s"]; ["u"]; ["x"; "y"]]
           [("x", vtkDoubleArray [1; 2]%Q); ("s", vtkStringArray ["a"; "b"])]
           [("old", OtherBlock)]).
  repeat constructor; discriminate.
Defined.

(** ** Derive: what is written into the histogram table *)

Lemma GetColumnByName_SetColumn_same (t : vtkTable) (name : string) (a : vtkAbstractArray) :
  GetColumnByName (SetColumn t name a) name = Some a.
Proof.
  induction t as [|[c old] t IH]; cbn [SetColumn GetColumnByName].
  - rewrite String.eqb_refl. reflexivity.
  - destruct (String.eqb c name) eqn:Hc; cbn [GetColumnByName]; rewrite Hc; [reflexivity|exact IH].
Qed.

Lemma GetColumnByName_SetColumn_other (t : vtkTable) (name other : string)
    (a : vtkAbstractArray) :
  other <> name ->
  GetColumnByName (SetColumn t name a) other = GetColumnByName t other.
Proof.
  intros Hne. induction t as [|[c old] t IH]; cbn [SetColumn GetColumnByName].
  - replace (String.eqb name other) with false; [reflexivity|].
    symmetry. apply String.eqb_neq. congruence.
  - destruct (String.eqb c name) eqn:Hc; cbn [GetColumnByName].
    + apply String.eqb_eq in Hc. subst c.
      replace (String.eqb name other) with false; [reflexivity|].
      symmetry. apply String.eqb_neq. congruence.
    + destruct (String.eqb c other); [reflexivity|exact IH].
Qed.

Lemma SetColumn_current (t : vtkTable) (name : string) (a : vtkAbstractArray) :
  GetColumnByName t name = Some a -> SetColumn t name a = t.
Proof.
  induction t as [|[c old] t IH]; cbn [SetColumn GetColumnByName]; [discriminate|].
  destruct (String.eqb c name) eqn:Hc.
  - intros Heq. injection Heq as ->. reflexivity.
  - intros Hget. rewrite (IH Hget). reflexivity.
Qed.

Lemma GetNumberOfRows_SetColumn (t : vtkTable) (name : string) (a : vtkAbstractArray) :
  t <> [] ->
  (forall old, GetColumnByName t name = Some old ->
               GetNumberOfTuples a = GetNumberOfTuples old) ->
  GetNumberOfRows (SetColumn t name a) = GetNumberOfRows t.
Proof.
  intros Hne Hlen. destruct t as [|[c old] t]; [congruence|].
  cbn [SetColumn]. cbn [GetColumnByName] in Hlen.
  destruct (String.eqb c name); cbn [GetNumberOfRows]; [|reflexivity].
  apply Hlen. reflexivity.
Qed.

Lemma entry_counts_rows (card : list Z) :
  card <> [] -> entry_counts (Z.of_nat (length card)) card = tl card.
Proof.
  intros _. unfold entry_counts. rewrite Nat2Z.id, firstn_all. reflexivity.
Qed.

Lemma entry_counts_set_first (nRowHist n : Z) (card : list Z) :
  entry_counts nRowHist (set_first n card) = entry_counts nRowHist card.
Proof.
  unfold entry_counts. destruct card as [|c card]; [reflexivity|].
  cbn [set_first]. destruct (Z.to_nat nRowHist); reflexivity.
Qed.

(** The table [Derive] leaves behind, for a table with its two columns
    and as many rows as its cardinalities. *)
Lemma derive_histogram_table (def : QuantileDefinitionType) (N : Z) (heap : Z -> Z)
    (histogramTab : vtkTable) (vals : vtkAbstractArray) (card : list Z) :
  GetColumnByName histogramTab "Value" = Some vals ->
  GetColumnByName histogramTab "Cardinality" = Some (vtkIdTypeArray card) ->
  GetNumberOfRows histogramTab = Z.of_nat (length card) ->
  card <> [] ->
  let n := total_count (tl card) in
  let P := ((- (1))%Q :: map (fun c => (1 / inject_Z n) * inject_Z c)%Q (tl card)) in
  fst (derive_histogram def N heap histogramTab)
  = SetColumn (SetColumn histogramTab "Cardinality" (vtkIdTypeArray (n :: tl card)))
              "P" (vtkDoubleArray P).
Proof.
  intros Hvals Hcard Hrows Hne. cbv zeta.
  unfold derive_histogram. rewrite Hvals, Hcard, Hrows, (entry_counts_rows card Hne).
  cbn [fst]. destruct card as [|c0 counts]; [congruence|]. reflexivity.
Qed.

(** X5 ([Derive] can be repeated): deriving a histogram table that
    [Derive] has already completed gives the same table and the same
    quantile column again: the cardinality found in row 0 never enters
    the sum, and the column "P" is written over. *)
Theorem derive_histogram_idempotent (def : QuantileDefinitionType) (N : Z)
    (heap : Z -> Z) (histogramTab : vtkTable) (vals : vtkAbstractArray) (card : list Z) :
  GetColumnByName histogramTab "Value" = Some vals ->
  GetColumnByName histogramTab "Cardinality" = Some (vtkIdTypeArray card) ->
  GetNumberOfRows histogramTab = Z.of_nat (length card) ->
  card <> [] ->
  probabilities_writable histogramTab ->
  derive_histogram def N heap (fst (derive_histogram def N heap histogramTab))
  = derive_histogram def N heap histogramTab.
Proof.
  intros Hvals Hcard Hrows Hne _.
  pose proof (derive_histogram_table def N heap histogramTab vals card
                Hvals Hcard Hrows Hne) as Htab.
  cbv zeta in Htab.
  set (n := total_count (tl card)) in *.
  set (C := vtkIdTypeArray (n :: tl card)) in *.
  set (P := vtkDoubleArray
              ((- (1))%Q :: map (fun c => (1 / inject_Z n) * inject_Z c)%Q (tl card))) in *.
  set (after := fst (derive_histogram def N heap histogramTab)) in *.
  assert (Hne' : histogramTab <> []) by (intros ->; discriminate Hvals).
  assert (Hv' : GetColumnByName after "Value" = Some vals).
  { rewrite Htab, !GetColumnByName_SetColumn_other by discriminate. exact Hvals. }
  assert (Hc' : GetColumnByName after "Cardinality" = Some C).
  { rewrite Htab, GetColumnByName_SetColumn_other by discriminate.
    apply GetColumnByName_SetColumn_same. }
  assert (Hp' : GetColumnByName after "P" = Some P).
  { rewrite Htab. apply GetColumnByName_SetColumn_same. }
  assert (Hlen : Z.of_nat (length (n :: tl card)) = Z.of_nat (length card)).
  { destruct card; [congruence|reflexivity]. }
  assert (Hr1 : GetNumberOfRows (SetColumn histogramTab "Cardinality" C)
                = Z.of_nat (length card)).
  { rewrite GetNumberOfRows_SetColumn; [exact Hrows|exact Hne'|].
    intros old Hold. rewrite Hcard in Hold. injection Hold as <-.
    subst C. cbn [GetNumberOfTuples]. exact Hlen. }
  assert (Hr' : GetNumberOfRows after = Z.of_nat (length card)).
  { rewrite Htab. destruct histogramTab as [|[c0 a0] rest]; [congruence|].
    cbn [SetColumn GetColumnByName GetNumberOfRows] in *.
    destruct (String.eqb c0 "Cardinality") eqn:Hc0.
    - cbn [SetColumn]. apply String.eqb_eq in Hc0. subst c0. cbn [String.eqb Ascii.eqb Bool.eqb].
      cbn [GetNumberOfRows]. exact Hr1.
    - cbn [SetColumn]. destruct (String.eqb c0 "P") eqn:Hp0; cbn [GetNumberOfRows].
      + subst P. cbn [GetNumberOfTuples]. rewrite <- Hlen. simpl length.
        rewrite length_map. reflexivity.
      + exact Hrows. }
  assert (Hcounts : entry_counts (Z.of_nat (length card)) (n :: tl card) = tl card).
  { destruct card as [|c0 counts]; [congruence|].
    unfold entry_counts. rewrite Nat2Z.id. cbn [length tl firstn]. apply firstn_all. }
  unfold derive_histogram at 1. rewrite Hv', Hc'. unfold C at 1. cbv beta iota.
  rewrite Hr', Hcounts.
  fold n. cbn [set_first]. fold C. fold P.
  rewrite (SetColumn_current after "Cardinality" C Hc').
  rewrite (SetColumn_current after "P" P Hp').
  unfold derive_histogram. rewrite Hvals, Hcard, Hrows, (entry_counts_rows card Hne).
  fold n. replace (set_first n card) with (n :: tl card)
    by (destruct card; [congruence|reflexivity]).
  fold C. fold P. rewrite <- Htab. reflexivity.
Qed.

(** The theorem of X5 on the sample histogram. *)
Lemma derive_histogram_idempotent_witness :
  derive_histogram InverseCDFAveragedSteps 4 (fun _ => 0)
    (fst (derive_histogram InverseCDFAveragedSteps 4 (fun _ => 0) sample_histogram))
  = derive_histogram InverseCDFAveragedSteps 4 (fun _ => 0) sample_histogram.
Proof.
  apply (derive_histogram_idempotent InverseCDFAveragedSteps 4 (fun _ => 0) sample_histogram
           (vtkDoubleArray [0; 1; 2; 3; 4; 5; 6; 7]%Q) [-1; 1; 2; 1; 1; 3; 1; 1]).
  - reflexivity.
  - reflexivity.
  - reflexivity.
  - discriminate.
  - exact I.
Defined.

(** ** Derive: the CDF and the inverse look-up *)

Lemma running_sums_nth (counts : list Z) :
  forall (n : Z) (i : nat),
    (i < length counts)%nat ->
    nth_error (running_sums n counts) i = Some (n + total_count (firstn (S i) counts)).
Proof.
  induction counts as [|c counts IH]; intros n i Hi; [simpl in Hi; lia|].
  cbn [running_sums]. destruct i as [|i].
  - cbn [nth_error firstn]. rewrite total_count_cons. unfold total_count. simpl. f_equal. lia.
  - cbn [nth_error]. rewrite IH by (simpl in Hi; lia).
    change (firstn (S (S i)) (c :: counts)) with (c :: firstn (S i) counts).
    rewrite total_count_cons. f_equal. lia.
Qed.

Lemma cdf_get_prefix (counts : list Z) (heap : Z -> Z) (r : Z) :
  1 <= r <= Z.of_nat (length counts) ->
  cdf_get (mk_cdf (running_sums 0 counts) heap) r
  = total_count (firstn (Z.to_nat r) counts).
Proof.
  intros Hr. unfold cdf_get. cbn [cdf_sums].
  replace (1 <=? r) with true by (symmetry; apply Z.leb_le; lia).
  rewrite running_sums_nth by lia.
  replace (S (Z.to_nat (r - 1))) with (Z.to_nat r) by lia. lia.
Qed.

Lemma total_count_nonneg (counts : list Z) :
  Forall (fun c => 0 <= c) counts -> 0 <= total_count counts.
Proof.
  induction 1 as [|c counts Hc Hall IH]; [unfold total_count; simpl; lia|].
  rewrite total_count_cons. lia.
Qed.

Lemma Forall_firstn_nonneg (counts : list Z) (j : nat) :
  Forall (fun c => 0 <= c) counts -> Forall (fun c => 0 <= c) (firstn j counts).
Proof.
  intros Hall. revert j. induction Hall as [|c counts Hc Hall IH]; intros j.
  - rewrite firstn_nil. constructor.
  - destruct j as [|j]; cbn [firstn]; constructor; [exact Hc|apply IH].
Qed.

Lemma total_count_firstn_le (counts : list Z) :
  Forall (fun c => 0 <= c) counts ->
  forall i j, (i <= j)%nat ->
              total_count (firstn i counts) <= total_count (firstn j counts).
Proof.
  induction 1 as [|c counts Hc Hall IH]; intros i j Hij.
  - rewrite !firstn_nil. lia.
  - destruct i as [|i].
    + cbn [firstn]. change (total_count []) with 0.
      apply total_count_nonneg. apply Forall_firstn_nonneg. constructor; assumption.
    + destruct j as [|j]; [lia|]. cbn [firstn]. rewrite !total_count_cons.
      specialize (IH i j ltac:(lia)). lia.
Qed.

(** X6 ([Derive], the CDF array): cell [r] of the array, for a rank
    [r] from 1 to the last row of the histogram, holds the sum of the
    counts of the rows 1 .. r; the last cell holds the sum of all
    counts; with counts that are not negative the cells ascend. *)
Theorem cdf_running_sums (counts : list Z) (heap : Z -> Z) :
  let cdf := mk_cdf (running_sums 0 counts) heap in
  let last := Z.of_nat (length counts) in
  (forall r, 1 <= r <= last -> cdf_get cdf r = total_count (firstn (Z.to_nat r) counts))
  /\ (1 <= last -> cdf_get cdf last = total_count counts)
  /\ (Forall (fun c => 0 <= c) counts ->
      forall r s, 1 <= r -> r <= s -> s <= last -> cdf_get cdf r <= cdf_get cdf s).
Proof.
  cbv zeta. split; [|split].
  - intros r Hr. apply cdf_get_prefix. exact Hr.
  - intros Hlast. rewrite cdf_get_prefix by lia. rewrite Nat2Z.id, firstn_all. reflexivity.
  - intros Hnn r s Hr Hrs Hs. rewrite !cdf_get_prefix by lia.
    apply total_count_firstn_le; [exact Hnn|lia].
Qed.

(** ** Learn followed by Derive *)




(** ** Derive: the model it leaves behind *)





Section DeriveModel.

Variable DoubleToString : double -> string.


End DeriveModel.


(** ** Test: the maximum distance *)

Lemma walk_step_distance (quantiles : list string) (nQuant : Z) (inv_nq : double)
    (st st' : walk_state) (cit : string * double) :
  walk_step quantiles nQuant inv_nq st cit = Ok st' ->
  let d := Qabs (snd cit - mcdf st') in
  (Dmn st <= Dmn st')%Q /\ (d <= Dmn st')%Q /\ (Dmn st' = Dmn st \/ Dmn st' = d).
Proof.
  unfold walk_step.
  destruct (get quantiles 0) as [q0| | |]; cbn [bind]; try discriminate.
  match goal with
  | |- context [bind ?m _] => destruct m as [model| | |]; cbn [bind]; try discriminate
  end.
  set (d := Qabs (snd cit - snd model)).
  intros Heq. injection Heq as <-. cbv zeta. destruct st as [cq m D0].
  cbv beta iota delta [mcdf Dmn]. fold d.
  destruct (double_lt D0 d) eqn:Hlt.
  - apply double_lt_true in Hlt. split; [lra|]. split; [lra|]. right. reflexivity.
  - apply double_lt_false in Hlt. split; [lra|]. split; [lra|]. left. reflexivity.
Qed.

Lemma walk_distances (quantiles : list string) (nQuant : Z) (inv_nq : double)
    (cdfEmpirical : CDF) :
  forall st sts,
    walk quantiles nQuant inv_nq st cdfEmpirical = Ok sts ->
    let D := Dmn (last sts st) in
    length sts = length cdfEmpirical
    /\ (Dmn st <= D)%Q
    /\ Forall2 (fun cit st' => (Qabs (snd cit - mcdf st') <= D)%Q) cdfEmpirical sts
    /\ (D = Dmn st
        \/ exists cit st', In (cit, st') (combine cdfEmpirical sts)
                           /\ D = Qabs (snd cit - mcdf st')).
Proof.
  induction cdfEmpirical as [|cit rest IH]; intros st sts Hw; cbn [walk] in Hw.
  - injection Hw as <-. cbv zeta. cbn [last]. split; [reflexivity|].
    split; [lra|]. split; [constructor|]. left. reflexivity.
  - destruct (walk_step quantiles nQuant inv_nq st cit) as [st1| | |] eqn:Hstep;
      cbn [bind] in Hw; try discriminate.
    destruct (walk quantiles nQuant inv_nq st1 rest) as [sts1| | |] eqn:Hrest;
      cbn [bind] in Hw; try discriminate.
    injection Hw as <-.
    destruct (walk_step_distance _ _ _ _ _ _ Hstep) as (Hup & Hd & Hcase).
    destruct (IH st1 sts1 Hrest) as (Hlen & Hmono & Hall & Hatt).
    cbv zeta in *.
    assert (Hlast : last (st1 :: sts1) st = last sts1 st1).
    { destruct sts1 as [|s sts1]; [reflexivity|].
      change (last (st1 :: s :: sts1) st) with (last (s :: sts1) st).
      apply last_cons_any. }
    rewrite Hlast. split; [simpl; lia|]. split; [lra|]. split.
    + constructor; [exact (Qle_trans _ _ _ Hd Hmono)|exact Hall].
    + destruct Hatt as [Heq|(c & s & Hin & Heq)].
      * rewrite Heq. destruct Hcase as [Hc|Hc].
        -- left. exact Hc.
        -- right. exists cit, st1. split; [left; reflexivity|exact Hc].
      * right. exists c, s. split; [right; exact Hin|exact Heq].
Qed.

(** X10 ([Test], the maximum distance): when the walk over the merged
    CDF ends, [Dmn] is not negative, no point of the walk has its
    empirical and model CDF further apart than [Dmn], and [Dmn] is 0 or
    is the distance at one of the points. *)
Theorem walk_maximum_distance (quantiles : list string) (nQuant : Z) (inv_nq : double)
    (cdfEmpirical : CDF) (sts : list walk_state) :
  walk quantiles nQuant inv_nq initial_walk cdfEmpirical = Ok sts ->
  let D := Dmn (last sts initial_walk) in
  (0 <= D)%Q
  /\ Forall2 (fun cit st => (Qabs (snd cit - mcdf st) <= D)%Q) cdfEmpirical sts
  /\ (D = 0%Q
      \/ exists cit st, In (cit, st) (combine cdfEmpirical sts)
                        /\ D = Qabs (snd cit - mcdf st)).
Proof.
  intros Hw. destruct (walk_distances _ _ _ _ _ _ Hw) as (_ & Hmono & Hall & Hatt).
  cbv zeta in *. split; [exact Hmono|]. split; [exact Hall|exact Hatt].
Qed.

(** The theorem of X10 on a walk over three points. *)
Lemma walk_maximum_distance_witness :
  let quantiles := ["1"; "3"] in
  let cdfEmpirical := [("1", 1 # 3); ("2", 2 # 3); ("3", 1)]%Q in
  let sts :=
    match walk quantiles 2 (1 # 2)%Q initial_walk cdfEmpirical with
    | Ok sts => sts
    | _ => []
    end in
  let D := Dmn (last sts initial_walk) in
  (0 <= D)%Q
  /\ Forall2 (fun cit st => (Qabs (snd cit - mcdf st) <= D)%Q) cdfEmpirical sts
  /\ (D = 0%Q
      \/ exists cit st, In (cit, st) (combine cdfEmpirical sts)
                        /\ D = Qabs (snd cit - mcdf st)).
Proof.
  intros quantiles cdfEmpirical sts.
  apply (walk_maximum_distance quantiles 2 (1 # 2)%Q cdfEmpirical sts).
  vm_compute. reflexivity.
Defined.

(** ** Test: the quantiles merged into the empirical CDF *)

(** An entry of a map in key order holds the value of the step function
    at its key. *)
Lemma step_value_entry (cdf : CDF) (k : string) (v : double) :
  ascending cdf ->
  In (k, v) cdf ->
  forall start, step_value_from start cdf k = v.
Proof.
  unfold ascending, step_value_from.
  induction cdf as [|[k1 v1] cdf IH]; intros Hs Hin start; [contradiction|].
  cbn [keys map fst] in Hs. apply StronglySorted_inv in Hs. destruct Hs as [Hs Hall].
  cbn [fold_left fst snd]. destruct Hin as [Heq|Hin].
  - injection Heq as -> ->. rewrite string_ge_refl.
    clear IH Hs. revert Hall. generalize v. 
    induction cdf as [|[k2 v2] cdf IH]; intros acc Hall; [reflexivity|].
    cbn [map fst] in Hall. apply Forall_cons_iff in Hall. destruct Hall as [Hlt Hall].
    cbn [fold_left fst snd].
    replace (string_ge k k2) with false by (symmetry; apply string_ge_false; exact Hlt).
    apply IH. exact Hall.
  - apply IH; assumption.
Qed.

(** Inserting a key does not change the step function. *)
Lemma insert_quantile_step (quantile k : string) :
  forall (cdf : CDF) (pred : option double) (start : double),
    (string_ge k quantile = true ->
     start = match pred with Some p => p | None => 0%Q end) ->
    step_value_from start (insert_quantile pred cdf quantile) k
    = step_value_from start cdf k.
Proof.
  unfold step_value_from.
  induction cdf as [|[k1 v1] cdf IH]; intros pred start Hstart; cbn [insert_quantile].
  - cbn [fold_left fst snd]. destruct (string_ge k quantile); [|reflexivity].
    symmetry. apply Hstart. reflexivity.
  - destruct (String.compare quantile k1) eqn:Hc.
    + reflexivity.
    + cbn [fold_left fst snd]. destruct (string_ge k quantile); [|reflexivity].
      rewrite <- Hstart by reflexivity. reflexivity.
    + cbn [fold_left fst snd]. apply IH. intros Hge.
      replace (string_ge k k1) with true; [reflexivity|].
      symmetry. apply (string_ge_trans k quantile k1 Hge).
      apply string_lt_ge. apply string_compare_Gt. exact Hc.
Qed.

Lemma insert_quantile_keeps (quantile : string) (e : string * double) :
  forall (cdf : CDF) (pred : option double),
    In e cdf -> In e (insert_quantile pred cdf quantile).
Proof.
  induction cdf as [|[k1 v1] cdf IH]; intros pred Hin; [contradiction|].
  cbn [insert_quantile]. destruct (String.compare quantile k1).
  - exact Hin.
  - right. exact Hin.
  - destruct Hin as [Heq|Hin]; [left; exact Heq|right; apply IH; exact Hin].
Qed.

(** X11 ([Test], the merge of the quantiles): inserting the quantiles
    into the empirical CDF keeps the map in key order and keeps every
    entry of the empirical CDF; the keys afterwards are the keys before
    and the quantiles; and every entry, old or new, holds the value of
    the empirical CDF as a step function at its key: the value of the
    greatest key of the empirical CDF at or before it in the order of
    the strings, 0 when there is none. *)
Theorem merged_cdf_step_function (cdfEmpirical : CDF) (quantiles : list string) :
  ascending cdfEmpirical ->
  let merged := insert_quantiles cdfEmpirical quantiles in
  ascending merged
  /\ (forall k, In k (keys merged) <-> In k (keys cdfEmpirical) \/ In k quantiles)
  /\ (forall e, In e cdfEmpirical -> In e merged)
  /\ (forall k v, In (k, v) merged -> v = step_value cdfEmpirical k).
Proof.
  intros Hs. cbv zeta. unfold insert_quantiles.
  revert cdfEmpirical Hs.
  induction quantiles as [|q quantiles IH]; intros cdf Hs; cbn [fold_left].
  - split; [exact Hs|]. split; [intros k; simpl; tauto|]. split; [tauto|].
    intros k v Hin. symmetry. apply step_value_entry; assumption.
  - destruct (IH (insert_quantile None cdf q) (insert_quantile_ascending cdf q None Hs))
      as (Hasc & Hkeys & Hkeep & Hval).
    split; [exact Hasc|]. split; [|split].
    + intros k. rewrite Hkeys, insert_quantile_keys. simpl. intuition congruence.
    + intros e He. apply Hkeep. apply insert_quantile_keeps. exact He.
    + intros k v Hin. rewrite (Hval k v Hin). unfold step_value.
      apply insert_quantile_step. intros _. reflexivity.
Qed.

(** The theorem of X11 on a map of two entries and three breakpoints. *)
Lemma merged_cdf_step_function_witness :
  let cdfEmpirical := [("b", 1 # 2); ("d", 1)]%Q in
  let merged := insert_quantiles cdfEmpirical ["a"; "c"; "d"] in
  ascending merged
  /\ (forall k, In k (keys merged) <-> In k (keys cdfEmpirical) \/ In k ["a"; "c"; "d"])
  /\ (forall e, In e cdfEmpirical -> In e merged)
  /\ (forall k v, In (k, v) merged -> v = step_value cdfEmpirical k).
Proof.
  apply (merged_cdf_step_function [("b", 1 # 2); ("d", 1)]%Q ["a"; "c"; "d"]).
  repeat constructor.
Defined.

(** ** Test: the output table *)

Section TestOutput.

Variable DoubleToString : double -> string.
Variable sqrt : double -> double.

(** The rows of the loop over the requests: one per request that is
    not skipped, in the order of the requests. *)
Lemma test_requests_rows (inData quantileTab : vtkTable) (Requests : list (list string)) :
  forall rows,
    test_requests DoubleToString sqrt inData quantileTab Requests = Ok rows ->
    exists kept,
      Forall2 (fun request row =>
                 test_request DoubleToString sqrt inData quantileTab request = Ok row)
              Requests kept
      /\ rows = concat (map (fun row => match row with Some r => [r] | None => [] end) kept).
Proof.
  induction Requests as [|request rest IH]; intros rows Hrows; cbn [test_requests] in Hrows.
  - injection Hrows as <-. exists []. split; [constructor|reflexivity].
  - destruct (test_request DoubleToString sqrt inData quantileTab request)
      as [row| | |] eqn:Hrow; cbn [bind] in Hrows; try discriminate.
    destruct (test_requests DoubleToString sqrt inData quantileTab rest)
      as [rows'| | |]; cbn [bind] in Hrows; try discriminate.
    destruct (IH rows' eq_refl) as (kept & Hkept & ->).
    injection Hrows as <-. exists (row :: kept).
    split; [constructor; assumption|]. destruct row; reflexivity.
Qed.

(** X13 ([Test], the output table): when [Test] finds the quantile
    table in the last block and is given an empty output table, it
    leaves the three columns "Variable", "Maximum Distance" and
    "Kolmogorov-Smirnov" there, in this order, with one row per request
    that was not skipped, in the order of the requests: the name, the
    distance and the statistic of that request. *)
Theorem Test_output_table (Requests : list (list string)) (inData : vtkTable)
    (front : vtkMultiBlockDataSet) (quantileTab out' : vtkTable) :
  Test DoubleToString sqrt Requests inData
    (Some (front ++ [("Quantiles", TableBlock quantileTab)])%list) (Some [])
  = Ok (Some out') ->
  exists kept,
    Forall2 (fun request row =>
               test_request DoubleToString sqrt inData quantileTab request = Ok row)
            Requests kept
    /\ let rows := concat (map (fun row => match row with Some r => [r] | None => [] end)
                             kept) in
       out' = [("Variable", vtkStringArray (map (fun r => fst (fst r)) rows));
               ("Maximum Distance", vtkDoubleArray (map (fun r => snd (fst r)) rows));
               ("Kolmogorov-Smirnov", vtkDoubleArray (map snd rows))].
Proof.
  unfold Test. rewrite nth_error_snoc.
  replace (Z.of_nat (length (front ++ [("Quantiles", TableBlock quantileTab)])) <? 1)
    with false
    by (symmetry; apply Z.ltb_ge; rewrite length_app; simpl length; lia).
  cbn [SafeDownCast_vtkTable]. change (String.eqb "Quantiles" "Quantiles") with true.
  cbn [negb].
  destruct (test_requests DoubleToString sqrt inData quantileTab Requests)
    as [rows| | |] eqn:Hrows; cbn [bind]; try discriminate.
  intros Hout. injection Hout as <-.
  destruct (test_requests_rows inData quantileTab Requests rows Hrows) as (kept & Hkept & ->).
  exists kept. split; [exact Hkept|]. reflexivity.
Qed.

End TestOutput.

(** The theorem of X13 on two requests, the second for a column the
    data do not have. *)
Lemma Test_output_table_witness :
  let inData := [("x", vtkDoubleArray [1; 2; 2; 5]%Q)] in
  let quantileTab := [("Quantile", vtkStringArray ["Minimum"; "Maximum"]);
                      ("x", vtkDoubleArray [3; 4]%Q)] in
  let Requests := [["x"]; ["y"]] in
  let out' :=
    match Test print_integer (fun x => x) Requests inData
            (Some [("Quantiles", TableBlock quantileTab)]) (Some []) with
    | Ok (Some t) => t
    | _ => []
    end in
  exists kept,
    Forall2 (fun request row =>
               test_request print_integer (fun x => x) inData quantileTab request = Ok row)
            Requests kept
    /\ let rows := concat (map (fun row => match row with Some r => [r] | None => [] end)
                             kept) in
       out' = [("Variable", vtkStringArray (map (fun r => fst (fst r)) rows));
               ("Maximum Distance", vtkDoubleArray (map (fun r => snd (fst r)) rows));
               ("Kolmogorov-Smirnov", vtkDoubleArray (map snd rows))].
Proof.
  intros inData quantileTab Requests out'.
  apply (Test_output_table print_integer (fun x => x) Requests inData [] quantileTab out').
  vm_compute. reflexivity.
Defined.

(** ** Text columns: Learn, Derive and the quantizer *)









Section TextPipeline.

Variable Nan : double.
Context (variant_less : Less vtkVariant).
Variable DoubleToString : double -> string.



End TextPipeline.



(** ** Learn: a column of variants *)

Section LearnVariant.

Variable Nan : double.
Context (variant_less : Less vtkVariant).

(** X18 ([Learn], column of variants): whenever [operator<] of
    [vtkVariant] is a strict weak order, the histogram table of a column
    of variants holds the empty variant and the cardinality -1 in row 0
    and, after it, one row per class of equivalent values, in ascending
    order; the count of a row is positive and is the number of cells
    equivalent to its value, every cell has its row, and the counts add
    up to the number of cells. *)
Theorem learn_variant_histogram (vvals : list vtkVariant) :
  (forall a : vtkVariant, less a a = false) ->
  (forall a b c : vtkVariant, less a b = true -> less b c = true -> less a c = true) ->
  (forall a b c : vtkVariant, equivalent a b = true -> equivalent c a = equivalent c b) ->
  exists histogram,
    learn_histogram Nan variant_less (vtkVariantArray vvals)
    = Some [("Value", vtkVariantArray (VariantString "" :: map fst histogram));
            ("Cardinality", vtkIdTypeArray (-1 :: map snd histogram))]
    /\ StronglySorted (fun a b => less a b = true) (map fst histogram)
    /\ (forall k c, In (k, c) histogram ->
          0 < c /\ c = Z.of_nat (length (filter (equivalent k) vvals)))
    /\ (forall v, In v vvals -> exists k, In k (map fst histogram) /\ equivalent v k = true)
    /\ total_count (map snd histogram) = Z.of_nat (length vvals).
Proof.
  intros Hirrefl Htrans Hequiv. exists (histogram_of vvals).
  destruct (histogram_of_counts vvals [] ltac:(constructor)) as [Hpos Htotal].
  cbv zeta in Hpos, Htotal.
  split; [reflexivity|]. split; [|split; [|split]].
  - exact (histogram_of_ascending Htrans vvals [] ltac:(constructor)).
  - intros k c Hin. split.
    + rewrite Forall_forall in Hpos. apply Hpos. apply in_map_iff.
      exists (k, c). split; [reflexivity|exact Hin].
    + exact (histogram_of_entry Hirrefl Htrans Hequiv vvals k c Hin).
  - intros v Hv. exact (histogram_of_present Hirrefl vvals v Hv).
  - exact Htotal.
Qed.

End LearnVariant.

(** The theorem of X18 on three variants, ordered by the integers they
    hold. *)
Lemma learn_variant_histogram_witness :
  let rank := fun v => match v with VariantIdType i => i | _ => 0 end in
  let variant_less : Less vtkVariant := fun a b => rank a <? rank b in
  let vvals := [VariantIdType 2; VariantIdType 1; VariantIdType 2] in
  exists histogram,
    learn_histogram 0%Q variant_less (vtkVariantArray vvals)
    = Some [("Value", vtkVariantArray (VariantString "" :: map fst histogram));
            ("Cardinality", vtkIdTypeArray (-1 :: map snd histogram))]
    /\ StronglySorted (fun a b => less a b = true) (map fst histogram)
    /\ (forall k c, In (k, c) histogram ->
          0 < c /\ c = Z.of_nat (length (filter (equivalent k) vvals)))
    /\ (forall v, In v vvals -> exists k, In k (map fst histogram) /\ equivalent v k = true)
    /\ total_count (map snd histogram) = 3.
Proof.
  intros rank variant_less vvals.
  apply (learn_variant_histogram 0%Q variant_less vvals).
  - intros a. apply Z.ltb_irrefl.
  - intros a b c Hab Hbc. apply Z.ltb_lt. apply Z.ltb_lt in Hab. apply Z.ltb_lt in Hbc. lia.
  - intros a b c Hab. unfold equivalent, less, variant_less in *.
    apply andb_prop in Hab. destruct Hab as [H1 H2].
    apply negb_true_iff in H1. apply negb_true_iff in H2.
    apply Z.ltb_ge in H1. apply Z.ltb_ge in H2.
    replace (rank b) with (rank a) by lia. reflexivity.
Defined.

(** * Properties in double precision *)

Import PrimFloat SpecFloat FloatOps FloatAxioms.
Import Binary64.

(** ** The order of doubles *)

Lemma key_lt_irrefl (a : Z * Z * Z) : ~ key_lt a a.
Proof. unfold key_lt. lia. Qed.

Lemma key_lt_trans (a b c : Z * Z * Z) : key_lt a b -> key_lt b c -> key_lt a c.
Proof. unfold key_lt. lia. Qed.

Lemma key_trichotomy (a b : Z * Z * Z) : key_lt a b \/ a = b \/ key_lt b a.
Proof.
  destruct a as [[a1 a2] a3], b as [[b1 b2] b3]. unfold key_lt. cbn [fst snd].
  destruct (Z.lt_trichotomy a1 b1) as [H|[H|H]]; [lia| |lia].
  destruct (Z.lt_trichotomy a2 b2) as [H2|[H2|H2]]; [lia| |lia].
  destruct (Z.lt_trichotomy a3 b3) as [H3|[H3|H3]]; [lia| |lia].
  right. left. congruence.
Qed.

Lemma SFcompare_key (x y : spec_float) :
  x <> S754_nan -> y <> S754_nan ->
  (SFcompare x y = Some Lt /\ key_lt (order_key x) (order_key y))
  \/ (SFcompare x y = Some Eq /\ order_key x = order_key y)
  \/ (SFcompare x y = Some Gt /\ key_lt (order_key y) (order_key x)).
Proof.
  intros Hx Hy.
  destruct x as [sx|sx| |sx mx ex]; [| |congruence|];
    destruct y as [sy|sy| |sy my ey]; try congruence;
    try (destruct sx); try (destruct sy); cbn [SFcompare order_key];
    unfold key_lt; cbn [fst snd];
    try (left; split; [reflexivity|lia]);
    try (right; left; split; reflexivity);
    try (right; right; split; [reflexivity|lia]).
  - (* both negative *)
    destruct (Z.compare_spec ex ey) as [He|He|He].
    + subst ey. change (Pos.compare_cont Eq mx my) with (Pos.compare mx my).
      destruct (Pos.compare_spec mx my) as [Hm|Hm|Hm]; cbn [CompOpp].
      * subst my. right. left. split; reflexivity.
      * right. right. split; [reflexivity|lia].
      * left. split; [reflexivity|lia].
    + right. right. split; [reflexivity|lia].
    + left. split; [reflexivity|lia].
  - (* both positive *)
    destruct (Z.compare_spec ex ey) as [He|He|He].
    + subst ey. change (Pos.compare_cont Eq mx my) with (Pos.compare mx my).
      destruct (Pos.compare_spec mx my) as [Hm|Hm|Hm].
      * subst my. right. left. split; reflexivity.
      * left. split; [reflexivity|lia].
      * right. right. split; [reflexivity|lia].
    + left. split; [reflexivity|lia].
    + right. right. split; [reflexivity|lia].
Qed.

Lemma SFcompare_nan_l (y : spec_float) : SFcompare S754_nan y = None.
Proof. reflexivity. Qed.

Lemma SFcompare_nan_r (x : spec_float) : SFcompare x S754_nan = None.
Proof. destruct x; reflexivity. Qed.

Lemma Prim2SF_nan (x : double) : Prim2SF x = S754_nan <-> is_nan x = true.
Proof.
  unfold Prim2SF. destruct (is_nan x); [tauto|].
  split; [|discriminate].
  destruct (is_zero x); [discriminate|].
  destruct (is_infinity x); [discriminate|].
  destruct (Z.frexp x) as [r e].
  destruct (shr_fexp prec emax _ _ _) as [shr e'].
  destruct (shr_m shr); discriminate.
Qed.

Lemma Prim2SF_not_nan (x : double) : is_nan x = false -> Prim2SF x <> S754_nan.
Proof. intros Hx Hn. apply Prim2SF_nan in Hn. congruence. Qed.

(** The three comparisons of two doubles that are not NaN. *)
Lemma double_compare (x y : double) :
  is_nan x = false -> is_nan y = false ->
  ((x <? y)%float = true /\ (x <=? y)%float = true /\ (y <? x)%float = false
   /\ (y <=? x)%float = false /\ key_lt (key x) (key y))
  \/ ((x <? y)%float = false /\ (x <=? y)%float = true /\ (y <? x)%float = false
      /\ (y <=? x)%float = true /\ key x = key y)
  \/ ((x <? y)%float = false /\ (x <=? y)%float = false /\ (y <? x)%float = true
      /\ (y <=? x)%float = true /\ key_lt (key y) (key x)).
Proof.
  intros Hx Hy. apply Prim2SF_not_nan in Hx. apply Prim2SF_not_nan in Hy.
  rewrite !ltb_spec, !leb_spec. unfold SFltb, SFleb, key.
  destruct (SFcompare_key (Prim2SF x) (Prim2SF y) Hx Hy) as [[Hc Hk]|[[Hc Hk]|[Hc Hk]]];
    destruct (SFcompare_key (Prim2SF y) (Prim2SF x) Hy Hx) as [[Hd Hl]|[[Hd Hl]|[Hd Hl]]];
    rewrite Hc, Hd;
    try (exfalso; rewrite ?Hk in *; rewrite ?Hl in *;
         first [ eapply key_lt_irrefl; eassumption
               | eapply key_lt_irrefl; eapply key_lt_trans; eassumption ]).
  - left. repeat split; try reflexivity; assumption.
  - right. left. repeat split; try reflexivity; assumption.
  - right. right. repeat split; try reflexivity; assumption.
Qed.

(** A comparison with a NaN is false. *)
Lemma double_compare_nan (x y : double) :
  is_nan x = true \/ is_nan y = true ->
  (x <? y)%float = false /\ (x <=? y)%float = false.
Proof.
  intros H. rewrite ltb_spec, leb_spec. unfold SFltb, SFleb.
  destruct H as [H|H]; apply Prim2SF_nan in H; rewrite H.
  - split; reflexivity.
  - rewrite SFcompare_nan_r. split; reflexivity.
Qed.

Lemma is_nan_cases (x : double) : is_nan x = true \/ is_nan x = false.
Proof. destruct (is_nan x); tauto. Qed.

Lemma ltb_not_nan (x y : double) :
  (x <? y)%float = true -> is_nan x = false /\ is_nan y = false.
Proof.
  intros H. destruct (is_nan_cases x) as [Hx|Hx], (is_nan_cases y) as [Hy|Hy];
    try (split; assumption);
    destruct (double_compare_nan x y ltac:(tauto)) as [Hl _]; congruence.
Qed.

Lemma leb_not_nan (x y : double) :
  (x <=? y)%float = true -> is_nan x = false /\ is_nan y = false.
Proof.
  intros H. destruct (is_nan_cases x) as [Hx|Hx], (is_nan_cases y) as [Hy|Hy];
    try (split; assumption);
    destruct (double_compare_nan x y ltac:(tauto)) as [_ Hl]; congruence.
Qed.

Lemma ltb_key (x y : double) :
  (x <? y)%float = true <->
  is_nan x = false /\ is_nan y = false /\ key_lt (key x) (key y).
Proof.
  split.
  - intros H. destruct (ltb_not_nan x y H) as [Hx Hy].
    split; [exact Hx|]. split; [exact Hy|].
    destruct (double_compare x y Hx Hy) as [H1|[H1|H1]]; [tauto| |];
      destruct H1 as (H1 & _); congruence.
  - intros (Hx & Hy & Hk).
    destruct (double_compare x y Hx Hy) as [H1|[H1|H1]]; [tauto| |].
    + destruct H1 as (_ & _ & _ & _ & He). rewrite He in Hk.
      exfalso. eapply key_lt_irrefl; eassumption.
    + destruct H1 as (_ & _ & _ & _ & He).
      exfalso. eapply key_lt_irrefl; eapply key_lt_trans; eassumption.
Qed.

Lemma leb_key (x y : double) :
  (x <=? y)%float = true <->
  is_nan x = false /\ is_nan y = false /\ ~ key_lt (key y) (key x).
Proof.
  split.
  - intros H. destruct (leb_not_nan x y H) as [Hx Hy].
    split; [exact Hx|]. split; [exact Hy|]. intros Hk.
    destruct (double_compare x y Hx Hy) as [H1|[H1|H1]].
    + destruct H1 as (_ & _ & _ & _ & He).
      eapply key_lt_irrefl; eapply key_lt_trans; eassumption.
    + destruct H1 as (_ & _ & _ & _ & He). rewrite He in Hk.
      eapply key_lt_irrefl; eassumption.
    + destruct H1 as (_ & H1 & _). congruence.
  - intros (Hx & Hy & Hk).
    destruct (double_compare x y Hx Hy) as [H1|[H1|H1]]; [tauto|tauto|].
    destruct H1 as (_ & _ & _ & _ & He). contradiction.
Qed.

Lemma ltb_irrefl (x : double) : (x <? x)%float = false.
Proof.
  destruct ((x <? x)%float) eqn:H; [|reflexivity].
  apply ltb_key in H. destruct H as (_ & _ & H). exfalso. eapply key_lt_irrefl; eassumption.
Qed.

Lemma ltb_trans (a b c : double) :
  (a <? b)%float = true -> (b <? c)%float = true -> (a <? c)%float = true.
Proof.
  rewrite !ltb_key. intros (Ha & Hb & H1) (_ & Hc & H2).
  split; [exact Ha|]. split; [exact Hc|]. eapply key_lt_trans; eassumption.
Qed.

Lemma key_not_lt_trans (a b c : Z * Z * Z) :
  ~ key_lt b a -> ~ key_lt c b -> ~ key_lt c a.
Proof.
  destruct a as [[a1 a2] a3], b as [[b1 b2] b3], c as [[c1 c2] c3].
  unfold key_lt. cbn [fst snd]. lia.
Qed.

Lemma leb_trans (a b c : double) :
  double_le a b -> double_le b c -> double_le a c.
Proof.
  unfold double_le. rewrite !leb_key. intros (Ha & Hb & H1) (_ & Hc & H2).
  split; [exact Ha|]. split; [exact Hc|]. eapply key_not_lt_trans; eassumption.
Qed.

Lemma leb_refl (a : double) : is_nan a = false -> double_le a a.
Proof.
  intros Ha. apply leb_key. split; [exact Ha|]. split; [exact Ha|]. apply key_lt_irrefl.
Qed.

Lemma ltb_leb (a b : double) : (a <? b)%float = true -> double_le a b.
Proof.
  intros H. apply ltb_key in H. destruct H as (Ha & Hb & H).
  apply leb_key. split; [exact Ha|]. split; [exact Hb|].
  intros Hk. eapply key_lt_irrefl; eapply key_lt_trans; eassumption.
Qed.

(** [a <= b] and [b < a] exclude each other; one of them holds when
    neither is a NaN. *)
Lemma leb_ltb_false (a b : double) : double_le a b -> (b <? a)%float = false.
Proof.
  unfold double_le. intros H. apply leb_key in H. destruct H as (_ & _ & H).
  destruct ((b <? a)%float) eqn:Hlt; [|reflexivity].
  apply ltb_key in Hlt. tauto.
Qed.

Lemma not_ltb_leb (a b : double) :
  is_nan a = false -> is_nan b = false -> (b <? a)%float = false -> double_le a b.
Proof.
  intros Ha Hb H. apply leb_key. split; [exact Ha|]. split; [exact Hb|].
  intros Hk. assert ((b <? a)%float = true) by (apply ltb_key; tauto). congruence.
Qed.

(** Two doubles that [<] does not tell apart, neither of them a NaN,
    have the same place in the order. *)
Lemma equivalent_key (a b : double) :
  is_nan a = false -> is_nan b = false ->
  equivalent a b = true -> key a = key b.
Proof.
  intros Ha Hb He. unfold equivalent in He.
  apply andb_prop in He. destruct He as [H1 H2].
  apply negb_true_iff in H1. apply negb_true_iff in H2.
  change (@less double double_Less) with ltb in H1, H2.
  destruct (key_trichotomy (key a) (key b)) as [H|[H|H]]; [|exact H|].
  - assert ((a <? b)%float = true) by (apply ltb_key; tauto). congruence.
  - assert ((b <? a)%float = true) by (apply ltb_key; tauto). congruence.
Qed.

Lemma leb_key_eq_l (a a' b : double) :
  is_nan a' = false -> key a = key a' -> double_le a b -> double_le a' b.
Proof.
  unfold double_le. rewrite !leb_key. intros Ha' He (_ & Hb & H).
  rewrite <- He. tauto.
Qed.

Lemma leb_key_eq_r (a b b' : double) :
  is_nan b' = false -> key b = key b' -> double_le a b -> double_le a b'.
Proof.
  unfold double_le. rewrite !leb_key. intros Hb' He (Ha & _ & H).
  rewrite <- He. tauto.
Qed.

(** ** [ceil], [floor], [round] and the cast on finite doubles *)

Lemma Qfloor_inject (z : Z) : Qfloor (inject_Z z) = z.
Proof. apply Qfloor_Z. Qed.

Lemma pow_pos_to_pos (e : Z) : e < 0 -> Zpos (2 ^ Z.to_pos (- e)) = 2 ^ (- e).
Proof.
  intros He. rewrite Pos2Z.inj_pow. rewrite Z2Pos.id by lia. reflexivity.
Qed.

(** The four functions compute the ceiling, the floor, the nearest
    integer with halves away from zero, and the truncation of the
    rational the double stands for. *)
Lemma Qle_bool_fraction (z : Z) (d : positive) : Qle_bool 0 (z # d) = (0 <=? z).
Proof.
  unfold Qle_bool. cbn [Qnum Qden]. rewrite Z.mul_1_r. reflexivity.
Qed.

Lemma Qle_bool_inject (z : Z) : Qle_bool 0 (inject_Z z) = (0 <=? z).
Proof. apply Qle_bool_fraction. Qed.

Lemma Qfloor_half_up (z : Z) (d : positive) :
  Qfloor ((z # d) + (1 # 2)) = (2 * z + Zpos d) / (2 * Zpos d).
Proof.
  unfold Qplus, Qfloor. cbn [Qnum Qden]. rewrite Pos2Z.inj_mul.
  f_equal; lia.
Qed.

Lemma Qceiling_half_down (z : Z) (d : positive) :
  Qceiling ((z # d) - (1 # 2)) = - ((2 * (- z) + Zpos d) / (2 * Zpos d)).
Proof.
  unfold Qceiling, Qminus, Qplus, Qopp, Qfloor. cbn [Qnum Qden]. rewrite Pos2Z.inj_mul.
  f_equal. f_equal; lia.
Qed.

(** The four functions compute the ceiling, the floor, the nearest
    integer with halves away from zero, and the truncation of the
    rational the double stands for. *)
Lemma rounding_exact (x : double) (q : Q) :
  exact_value x = Some q ->
  ceil x = Qceiling q
  /\ floor x = Qfloor q
  /\ round x = (if Qle_bool 0 q then Qfloor (q + (1 # 2)) else Qceiling (q - (1 # 2)))
  /\ truncate x = (if Qle_bool 0 q then Qfloor q else Qceiling q).
Proof.
  unfold exact_value, ceil, floor, round, truncate.
  destruct (Prim2SF x) as [s|s| |s m e]; try discriminate.
  - intros Hq; injection Hq as <-. repeat split.
  - cbv zeta. intros Hq; injection Hq as <-.
    destruct (Z.leb_spec 0 e) as [He|He].
    + assert (Hpow : 0 < 2 ^ e) by (apply Z.pow_pos_nonneg; lia).
      split; [rewrite Qceiling_Z; reflexivity|].
      split; [rewrite Qfloor_Z; reflexivity|].
      rewrite Qle_bool_inject.
      rewrite Qceiling_Z, Qfloor_Z.
      unfold inject_Z. rewrite Qfloor_half_up, Qceiling_half_down.
      change (Z.pos 1) with 1.
      assert (Hhalf : forall z, (2 * z + 1) / (2 * 1) = z).
      { intros z. replace (2 * z + 1) with (z * (2 * 1) + 1) by lia.
        rewrite Z.div_add_l by lia. change (1 / (2 * 1)) with 0. lia. }
      rewrite !Hhalf.
      destruct s; cbn [cond_Zopp].
      * replace (0 <=? - Z.pos m * 2 ^ e) with false by (symmetry; apply Z.leb_gt; nia).
        split; [lia|reflexivity].
      * replace (0 <=? Z.pos m * 2 ^ e) with true by (symmetry; apply Z.leb_le; nia).
        split; reflexivity.
    + pose proof (pow_pos_to_pos e He) as Hp.
      assert (Hpow : 0 < 2 ^ (- e)) by (apply Z.pow_pos_nonneg; lia).
      set (d := (2 ^ Z.to_pos (- e))%positive) in *.
      split; [unfold Qceiling; cbn [Qopp Qnum Qden Qfloor]; rewrite Hp; reflexivity|].
      split; [cbn [Qfloor]; rewrite Hp; reflexivity|].
      rewrite Qle_bool_fraction, Qfloor_half_up, Qceiling_half_down.
      unfold Qceiling. cbn [Qopp Qnum Qden Qfloor]. rewrite Hp.
      destruct s; cbn [cond_Zopp].
      * change (0 <=? Z.neg m) with false. cbv iota.
        change (- Z.neg m) with (Z.pos m). split; reflexivity.
      * change (0 <=? Z.pos m) with true. cbv iota. split; reflexivity.
Qed.

(** ** Rounding to nearest *)

Lemma iter_pos_nat {A : Type} (f : A -> A) (p : positive) (x : A) :
  iter_pos f p x = Nat.iter (Pos.to_nat p) f x.
Proof.
  revert x. induction p as [p IH|p IH|]; intros x; cbn [iter_pos].
  - rewrite !IH, Pos2Nat.inj_xI, <- Nat.iter_add, <- Nat.iter_succ_r.
    f_equal. lia.
  - rewrite !IH, Pos2Nat.inj_xO, <- Nat.iter_add. f_equal. lia.
  - reflexivity.
Qed.

Lemma shr_1_spec (m : Z) (r s : bool) : 0 <= m ->
  shr_1 (Build_shr_record m r s) = Build_shr_record (m / 2) (Z.odd m) (r || s).
Proof.
  intros Hm. destruct m as [|p|p]; [reflexivity| |lia].
  destruct p as [p|p|]; cbn [shr_1].
  - f_equal. rewrite Pos2Z.inj_xI. apply Z.div_unique with 1; lia.
  - f_equal. rewrite Pos2Z.inj_xO. apply Z.div_unique with 0; lia.
  - reflexivity.
Qed.

Lemma pow2_pos (k : Z) : 0 <= k -> 0 < 2 ^ k.
Proof. intros Hk. apply Z.pow_pos_nonneg; lia. Qed.

Lemma pow2_succ (k : Z) : 0 <= k -> 2 ^ (k + 1) = 2 * 2 ^ k.
Proof. intros Hk. rewrite Z.pow_add_r by lia. lia. Qed.

(** One more bit of the divisor: the quotient and the remainder. *)
Lemma div_mod_double (m h : Z) : 0 < h ->
  m / (2 * h) = m / h / 2
  /\ m mod (2 * h) = h * (if Z.odd (m / h) then 1 else 0) + m mod h.
Proof.
  intros Hh.
  pose proof (Z.div_mod m h ltac:(lia)) as Hdm.
  pose proof (Z.mod_pos_bound m h Hh) as Hlow.
  pose proof (Z.div_mod (m / h) 2 ltac:(lia)) as Ha.
  pose proof (Z.mod_pos_bound (m / h) 2 ltac:(lia)) as Hbit.
  rewrite <- Zmod_odd.
  set (a := m / h) in *. set (low := m mod h) in *.
  set (q := a / 2) in *. set (b := a mod 2) in *.
  assert (Hm : m = (2 * h) * q + (h * b + low)) by nia.
  split.
  - symmetry. apply Z.div_unique with (h * b + low); [nia|exact Hm].
  - symmetry. apply Z.mod_unique with q; [nia|exact Hm].
Qed.

(** The state of the shifter after [n + 1] steps. *)
Lemma shr_1_iter (m : Z) (n : nat) : 0 <= m ->
  Nat.iter (S n) shr_1 (Build_shr_record m false false)
  = Build_shr_record (m / 2 ^ (Z.of_nat n + 1))
      (Z.odd (m / 2 ^ Z.of_nat n)) (negb (m mod 2 ^ Z.of_nat n =? 0)).
Proof.
  intros Hm. induction n as [|n IH].
  - cbn [Nat.iter]. rewrite shr_1_spec by exact Hm.
    change (2 ^ Z.of_nat 0) with 1. change (2 ^ (Z.of_nat 0 + 1)) with 2.
    rewrite Z.div_1_r, Z.mod_1_r. reflexivity.
  - rewrite Nat.iter_succ, IH.
    assert (Hp : 0 < 2 ^ Z.of_nat n) by (apply pow2_pos; lia).
    assert (Hq : 0 <= m / 2 ^ (Z.of_nat n + 1)).
    { apply Z.div_pos; [exact Hm|]. apply pow2_pos. lia. }
    rewrite shr_1_spec by exact Hq.
    replace (Z.of_nat (S n)) with (Z.of_nat n + 1) by lia.
    rewrite (pow2_succ (Z.of_nat n + 1)) by lia.
    rewrite (pow2_succ (Z.of_nat n)) by lia.
    set (h := 2 ^ Z.of_nat n) in *.
    destruct (div_mod_double m h Hp) as [Hd Hr].
    destruct (div_mod_double m (2 * h) ltac:(lia)) as [Hd2 _].
    pose proof (Z.mod_pos_bound m h Hp) as Hlow.
    f_equal.
    + rewrite Hd2. reflexivity.
    + rewrite Hr. destruct (Z.odd (m / h)); cbn [orb].
      * symmetry. apply negb_true_iff. apply Z.eqb_neq. lia.
      * f_equal. f_equal. lia.
Qed.

(** What the shifter and the rounding of its outcome compute. *)
Lemma round_shr (m : Z) (p : positive) : 0 <= m ->
  let mrs := iter_pos shr_1 p (Build_shr_record m false false) in
  round_nearest_even (shr_m mrs) (loc_of_shr_record mrs) = rne m (Zpos p).
Proof.
  intros Hm mrs. subst mrs. rewrite iter_pos_nat.
  destruct (Pos2Nat.is_succ p) as [n Hn]. rewrite Hn.
  rewrite shr_1_iter by exact Hm.
  assert (Hk : Zpos p = Z.of_nat n + 1) by lia.
  rewrite Hk. unfold rne.
  rewrite (pow2_succ (Z.of_nat n)) by lia.
  assert (Hp : 0 < 2 ^ Z.of_nat n) by (apply pow2_pos; lia).
  set (h := 2 ^ Z.of_nat n) in *.
  destruct (div_mod_double m h Hp) as [Hd Hr].
  pose proof (Z.mod_pos_bound m h Hp) as Hlow.
  rewrite Hr. cbn [shr_m loc_of_shr_record].
  destruct (Z.odd (m / h)).
  - destruct (m mod h =? 0) eqn:He; cbn [negb round_nearest_even].
    + apply Z.eqb_eq in He.
      destruct (Z.ltb_spec (2 * (h * 1 + m mod h)) (2 * h)); [lia|].
      destruct (Z.eqb_spec (2 * (h * 1 + m mod h)) (2 * h)); [|lia].
      reflexivity.
    + apply Z.eqb_neq in He.
      destruct (Z.ltb_spec (2 * (h * 1 + m mod h)) (2 * h)); [lia|].
      destruct (Z.eqb_spec (2 * (h * 1 + m mod h)) (2 * h)); [lia|].
      reflexivity.
  - destruct (Z.ltb_spec (2 * (h * 0 + m mod h)) (2 * h)); [|lia].
    destruct (m mod h =? 0); reflexivity.
Qed.

Lemma rne_bounds (v k : Z) : v / 2 ^ k <= rne v k <= v / 2 ^ k + 1.
Proof.
  unfold rne.
  destruct (2 * (v mod 2 ^ k) <? 2 ^ k); [lia|].
  destruct (2 * (v mod 2 ^ k) =? 2 ^ k); [|lia].
  destruct (Z.even (v / 2 ^ k)); lia.
Qed.

Lemma rne_zero (v : Z) : rne v 0 = v.
Proof.
  unfold rne. change (2 ^ 0) with 1. rewrite Z.div_1_r, Z.mod_1_r. reflexivity.
Qed.

(** Rounding is monotone. *)
Lemma rne_monotone (v w k : Z) : 0 <= k -> v <= w -> rne v k <= rne w k.
Proof.
  intros Hk Hvw.
  assert (Hp : 0 < 2 ^ k) by (apply pow2_pos; exact Hk).
  pose proof (Z.div_le_mono v w (2 ^ k) Hp Hvw) as Hq.
  pose proof (rne_bounds v k) as Hv. pose proof (rne_bounds w k) as Hw.
  destruct (Z.eq_dec (v / 2 ^ k) (w / 2 ^ k)) as [He|He]; [|lia].
  pose proof (Z.div_mod v (2 ^ k) ltac:(lia)) as Hdv.
  pose proof (Z.div_mod w (2 ^ k) ltac:(lia)) as Hdw.
  assert (Hr : v mod 2 ^ k <= w mod 2 ^ k) by nia.
  unfold rne. rewrite He.
  destruct (Z.ltb_spec (2 * (v mod 2 ^ k)) (2 ^ k));
    destruct (Z.ltb_spec (2 * (w mod 2 ^ k)) (2 ^ k)); try lia;
    destruct (Z.eqb_spec (2 * (v mod 2 ^ k)) (2 ^ k));
    destruct (Z.eqb_spec (2 * (w mod 2 ^ k)) (2 ^ k)); try lia;
    destruct (Z.even (w / 2 ^ k)); lia.
Qed.

(** Rounding sees the quotient only. *)
Lemma rne_scale (v k j : Z) : 0 <= k -> 0 <= j -> rne (v * 2 ^ j) (k + j) = rne v k.
Proof.
  intros Hk Hj.
  assert (Hpk : 0 < 2 ^ k) by (apply pow2_pos; exact Hk).
  assert (Hpj : 0 < 2 ^ j) by (apply pow2_pos; exact Hj).
  unfold rne. rewrite Z.pow_add_r by lia.
  rewrite Z.div_mul_cancel_r by lia.
  rewrite Z.mul_mod_distr_r by lia.
  set (q := v / 2 ^ k). set (r := v mod 2 ^ k).
  replace (2 * (r * 2 ^ j) <? 2 ^ k * 2 ^ j) with (2 * r <? 2 ^ k).
  2:{ destruct (Z.ltb_spec (2 * r) (2 ^ k)), (Z.ltb_spec (2 * (r * 2 ^ j)) (2 ^ k * 2 ^ j));
        try reflexivity; nia. }
  replace (2 * (r * 2 ^ j) =? 2 ^ k * 2 ^ j) with (2 * r =? 2 ^ k).
  2:{ destruct (Z.eqb_spec (2 * r) (2 ^ k)), (Z.eqb_spec (2 * (r * 2 ^ j)) (2 ^ k * 2 ^ j));
        try reflexivity; nia. }
  reflexivity.
Qed.

(** A multiple is rounded to its quotient. *)
Lemma rne_exact (m k : Z) : 0 <= k -> rne (m * 2 ^ k) k = m.
Proof.
  intros Hk. rewrite <- (rne_zero m) at 2.
  exact (rne_scale m 0 k ltac:(lia) Hk).
Qed.

(** ** What [binary_round_aux] computes *)

Lemma digits2_size (m : positive) : digits2_pos m = Pos.size m.
Proof. induction m as [m IH|m IH|]; cbn [digits2_pos Pos.size]; congruence. Qed.

Lemma digits2_log2 (m : positive) : Zpos (digits2_pos m) = Z.log2 (Zpos m) + 1.
Proof.
  destruct m as [m|m|]; cbn [digits2_pos Z.log2]; rewrite ?digits2_size; lia.
Qed.

Lemma log2_bounds (v : Z) : 0 < v -> 2 ^ Z.log2 v <= v < 2 ^ (Z.log2 v + 1).
Proof. intros Hv. exact (Z.log2_spec v Hv). Qed.

Lemma fexp_eq (x : Z) : fexp prec emax x = Z.max (x - 53) (-1074).
Proof. reflexivity. Qed.

Lemma shr_fexp_round (m : positive) (e : Z) :
  e <= fexp prec emax (Zpos (digits2_pos m) + e) ->
  exists mrs,
    shr_fexp prec emax (Zpos m) e loc_Exact
    = (mrs, fexp prec emax (Zpos (digits2_pos m) + e))
    /\ round_nearest_even (shr_m mrs) (loc_of_shr_record mrs)
       = rne (Zpos m) (fexp prec emax (Zpos (digits2_pos m) + e) - e).
Proof.
  intros He. unfold shr_fexp, shr. cbn [Zdigits2 shr_record_of_loc].
  set (E := fexp prec emax (Zpos (digits2_pos m) + e)) in *.
  destruct (E - e) as [|p|p] eqn:Hk; [| |lia].
  - eexists. split; [f_equal; lia|]. cbn [shr_m loc_of_shr_record round_nearest_even].
    rewrite rne_zero. reflexivity.
  - eexists. split; [f_equal; lia|]. apply round_shr. lia.
Qed.

(** The second pass: at most one more bit to shift out. *)
Lemma shr_fexp_exact (mq E : Z) : 0 <= mq <= 2 ^ 53 -> -1074 <= E ->
  shr_fexp prec emax mq E loc_Exact
  = if mq <? 2 ^ 53 then (Build_shr_record mq false false, E)
    else (Build_shr_record (2 ^ 52) false false, E + 1).
Proof.
  intros Hmq HE. destruct (Z.ltb_spec mq (2 ^ 53)) as [Hlt|Hge].
  - unfold shr_fexp, shr. cbn [shr_record_of_loc].
    assert (Hd : Zdigits2 mq <= 53).
    { destruct mq as [|p|p]; [cbn; lia| |lia].
      cbn [Zdigits2]. rewrite digits2_log2.
      assert (Z.log2 (Zpos p) < 53) by (apply Z.log2_lt_pow2; lia). lia. }
    rewrite fexp_eq.
    destruct (Z.max (Zdigits2 mq + E - 53) (-1074) - E) as [|p|p] eqn:Hk;
      [reflexivity|lia|reflexivity].
  - assert (mq = 2 ^ 53) by lia. subst mq. unfold shr_fexp.
    change (Zdigits2 (2 ^ 53)) with 54. rewrite fexp_eq.
    replace (Z.max (54 + E - 53) (-1074) - E) with 1 by lia. reflexivity.
Qed.

Lemma rne_below (m : positive) (k : Z) :
  0 <= k -> Z.log2 (Zpos m) + 1 <= k + 53 -> 0 <= rne (Zpos m) k <= 2 ^ 53.
Proof.
  intros Hk Hd.
  pose proof (rne_bounds (Zpos m) k) as Hb.
  pose proof (log2_bounds (Zpos m) ltac:(lia)) as [_ Hm].
  assert (Hp : 0 < 2 ^ k) by (apply pow2_pos; exact Hk).
  assert (Hq : 0 <= Zpos m / 2 ^ k) by (apply Z.div_pos; lia).
  assert (Hu : Zpos m / 2 ^ k < 2 ^ 53).
  { apply Z.div_lt_upper_bound; [exact Hp|].
    rewrite <- Z.pow_add_r by lia.
    eapply Z.lt_le_trans; [exact Hm|]. apply Z.pow_le_mono_r; lia. }
  lia.
Qed.

Lemma binary_round_aux_scaled (s : bool) (m : positive) (e : Z) :
  scale <= e -> e <= fexp prec emax (Zpos (digits2_pos m) + e) ->
  binary_round_aux prec emax s (Zpos m) e loc_Exact
  = round_scaled s (Zpos m * 2 ^ (e - scale)).
Proof.
  intros Hs He. unfold binary_round_aux.
  destruct (shr_fexp_round m e He) as (mrs & -> & ->).
  unfold round_scaled.
  rewrite Z.log2_mul_pow2 by (unfold scale in *; lia).
  replace (e - scale + Z.log2 (Zpos m) + 1 + scale)
    with (Zpos (digits2_pos m) + e) by (rewrite digits2_log2; lia).
  set (E := fexp prec emax (Zpos (digits2_pos m) + e)) in *.
  assert (HE : -1074 <= E /\ Zpos (digits2_pos m) + e - 53 <= E).
  { subst E. rewrite fexp_eq. lia. }
  replace (E - scale) with ((E - e) + (e - scale)) by lia.
  rewrite rne_scale by lia.
  pose proof (rne_below m (E - e) ltac:(lia) ltac:(rewrite <- digits2_log2; lia)) as Hmq.
  set (mq := rne (Zpos m) (E - e)) in *.
  rewrite shr_fexp_exact by lia.
  change (emax - prec) with 971.
  destruct (Z.eqb_spec mq 0) as [H0|H0].
  - rewrite H0. reflexivity.
  - destruct (Z.ltb_spec mq (2 ^ 53)) as [Hlt|Hge].
    + cbn [shr_m]. destruct mq as [|p|p]; [lia| |lia]. reflexivity.
    + reflexivity.
Qed.

Lemma iter_xO (m d : positive) : Zpos (Pos.iter xO m d) = Zpos m * 2 ^ Zpos d.
Proof.
  induction d as [|d IH] using Pos.peano_ind.
  - cbn [Pos.iter]. lia.
  - rewrite Pos.iter_succ, Pos2Z.inj_xO, IH, Pos2Z.inj_succ, Z.pow_succ_r by lia. lia.
Qed.

Lemma shl_align_spec (m : positive) (e e' : Z) :
  (e' <= e -> snd (shl_align m e e') = e'
              /\ Zpos (fst (shl_align m e e')) = Zpos m * 2 ^ (e - e'))
  /\ (e <= e' -> shl_align m e e' = (m, e)).
Proof.
  unfold shl_align. destruct (e' - e) as [|d|d] eqn:Hd; cbn [fst snd].
  - split; intros _; [|reflexivity].
    split; [lia|]. replace (e - e') with 0 by lia. lia.
  - split; [lia|reflexivity].
  - split; [intros _|lia]. split; [reflexivity|].
    rewrite iter_xO. f_equal. f_equal. lia.
Qed.

(** A rounded integer multiple of [2 ^ e]. *)
Lemma binary_round_scaled (s : bool) (m : positive) (e : Z) :
  -1074 <= e ->
  binary_round prec emax s m e = round_scaled s (Zpos m * 2 ^ (e - scale)).
Proof.
  intros He. unfold binary_round.
  set (E := fexp prec emax (Zpos (digits2_pos m) + e)).
  assert (HE : -1074 <= E) by (subst E; rewrite fexp_eq; lia).
  destruct (shl_align_spec m e E) as [Hshl Hid].
  destruct (Z.le_gt_cases e E) as [Hle|Hgt].
  - rewrite (Hid Hle). apply binary_round_aux_scaled; [unfold scale; lia|exact Hle].
  - destruct (Hshl ltac:(lia)) as [H2 H1].
    destruct (shl_align m e E) as [m' e'']. cbn [fst snd] in H1, H2. subst e''.
    assert (Hdig : Zpos (digits2_pos m') + E = Zpos (digits2_pos m) + e).
    { rewrite !digits2_log2, H1, Z.log2_mul_pow2 by lia. lia. }
    rewrite binary_round_aux_scaled.
    + rewrite H1, <- Z.mul_assoc, <- Z.pow_add_r by (unfold scale; lia).
      f_equal. f_equal. f_equal. lia.
    + unfold scale. lia.
    + rewrite Hdig. fold E. lia.
Qed.

(** ** Rounding is monotone *)

Lemma rne_range (v : Z) : 0 < v ->
  0 <= rne v (fexp prec emax (Z.log2 v + 1 + scale) - scale) <= 2 ^ 53.
Proof.
  intros Hv. destruct v as [|p|p]; try lia.
  rewrite fexp_eq. unfold scale. apply rne_below; lia.
Qed.

Lemma round_scaled_key (v : Z) : 0 < v ->
  let E := fexp prec emax (Z.log2 v + 1 + scale) in
  let mq := rne v (E - scale) in
  order_key (round_scaled false v)
  = if mq =? 0 then (0, 0, 0)
    else if mq <? 2 ^ 53 then (if E <=? 971 then (1, E, mq) else (2, 0, 0))
    else (if E + 1 <=? 971 then (1, E + 1, 2 ^ 52) else (2, 0, 0)).
Proof.
  intros Hv E mq. pose proof (rne_range v Hv) as Hmq. fold E mq in Hmq.
  unfold round_scaled. fold E mq.
  destruct (Z.eqb_spec mq 0); [reflexivity|].
  destruct (mq <? 2 ^ 53).
  - destruct (E <=? 971); [|reflexivity].
    cbn [order_key]. rewrite Z2Pos.id by lia. reflexivity.
  - destruct (E + 1 <=? 971); reflexivity.
Qed.

Lemma round_scaled_opp (v : Z) :
  order_key (round_scaled true v) = key_opp (order_key (round_scaled false v)).
Proof.
  unfold round_scaled.
  destruct (_ =? 0); [reflexivity|].
  destruct (_ <? 2 ^ 53).
  - destruct (_ <=? 971); reflexivity.
  - destruct (_ <=? 971); reflexivity.
Qed.

Lemma key_lt_opp (a b : Z * Z * Z) : key_lt (key_opp a) (key_opp b) <-> key_lt b a.
Proof.
  destruct a as [[a1 a2] a3], b as [[b1 b2] b3].
  unfold key_lt, key_opp. cbn [fst snd]. lia.
Qed.

Lemma round_scaled_sign (v : Z) : 0 < v ->
  order_key (round_scaled false v) = (0, 0, 0)
  \/ 0 < fst (fst (order_key (round_scaled false v))).
Proof.
  intros Hv. rewrite round_scaled_key by exact Hv. cbv zeta.
  destruct (_ =? 0); [left; reflexivity|]. right.
  destruct (_ <? 2 ^ 53).
  - destruct (_ <=? 971); cbn [fst]; lia.
  - destruct (_ <=? 971); cbn [fst]; lia.
Qed.

Lemma round_scaled_monotone (v w : Z) : 0 < v <= w ->
  ~ key_lt (order_key (round_scaled false w)) (order_key (round_scaled false v)).
Proof.
  intros Hvw.
  rewrite !round_scaled_key by lia. cbv zeta.
  pose proof (rne_range v ltac:(lia)) as Hv. pose proof (rne_range w ltac:(lia)) as Hw.
  pose proof (Z.log2_le_mono v w ltac:(lia)) as Hlog.
  rewrite !fexp_eq in *. unfold scale in *.
  set (Ev := Z.max (Z.log2 v + 1 + -1127 - 53) (-1074)) in *.
  set (Ew := Z.max (Z.log2 w + 1 + -1127 - 53) (-1074)) in *.
  assert (HE : Ev <= Ew) by lia.
  assert (Hsame : Ev = Ew -> rne v (Ev - -1127) <= rne w (Ew - -1127)).
  { intros <-. apply rne_monotone; lia. }
  assert (Hnext : Ev < Ew -> 2 ^ 52 <= rne w (Ew - -1127)).
  { intros Hlt. pose proof (rne_bounds w (Ew - -1127)) as Hb.
    pose proof (log2_bounds w ltac:(lia)) as [Hlow _].
    assert (Hk : Ew - -1127 = Z.log2 w - 52) by lia.
    assert (2 ^ 52 <= w / 2 ^ (Ew - -1127)); [|lia].
    apply Z.div_le_lower_bound; [apply pow2_pos; lia|].
    rewrite <- Z.pow_add_r by lia. rewrite Hk.
    replace (Z.log2 w - 52 + 52) with (Z.log2 w) by lia. exact Hlow. }
  set (mv := rne v (Ev - -1127)) in *. set (mw := rne w (Ew - -1127)) in *.
  unfold key_lt.
  destruct (Z.eqb_spec mv 0), (Z.eqb_spec mw 0);
    destruct (Z.ltb_spec mv (2 ^ 53)), (Z.ltb_spec mw (2 ^ 53));
    destruct (Z.leb_spec Ev 971), (Z.leb_spec Ew 971);
    destruct (Z.leb_spec (Ev + 1) 971), (Z.leb_spec (Ew + 1) 971);
    cbn [fst snd]; lia.
Qed.

Lemma round_signed_monotone (v w : Z) : v <= w ->
  ~ key_lt (order_key (round_signed w)) (order_key (round_signed v)).
Proof.
  intros Hvw. unfold round_signed.
  destruct (Z.eqb_spec v 0) as [Hv|Hv], (Z.eqb_spec w 0) as [Hw|Hw].
  - apply key_lt_irrefl.
  - destruct (Z.ltb_spec 0 w); [|lia].
    destruct (round_scaled_sign w ltac:(lia)) as [H0|H0].
    + rewrite H0. apply key_lt_irrefl.
    + cbn [order_key]. unfold key_lt. cbn [fst snd]. lia.
  - destruct (Z.ltb_spec 0 v); [lia|].
    rewrite round_scaled_opp.
    destruct (round_scaled_sign (- v) ltac:(lia)) as [H0|H0].
    + rewrite H0. apply key_lt_irrefl.
    + cbn [order_key]. unfold key_lt, key_opp. cbn [fst snd]. lia.
  - destruct (Z.ltb_spec 0 v), (Z.ltb_spec 0 w); try lia.
    + apply round_scaled_monotone. lia.
    + rewrite round_scaled_opp.
      destruct (round_scaled_sign (- v) ltac:(lia)) as [Hv0|Hv0],
               (round_scaled_sign w ltac:(lia)) as [Hw0|Hw0];
        rewrite ?Hv0, ?Hw0; unfold key_lt, key_opp; cbn [fst snd]; lia.
    + rewrite !round_scaled_opp, key_lt_opp. apply round_scaled_monotone. lia.
Qed.

(** ** The order of doubles is the order of their values *)

Lemma valid_finite (s : bool) (m : positive) (e : Z) :
  valid_binary (S754_finite s m e) = true ->
  -1074 <= e <= 971 /\ Z.log2 (Zpos m) <= 52 /\ (-1074 < e -> Z.log2 (Zpos m) = 52).
Proof.
  cbn [valid_binary SpecFloat.valid_binary]. unfold bounded, canonical_mantissa.
  intros H. apply andb_prop in H. destruct H as [Hc Hb].
  apply Z.eqb_eq in Hc. apply Z.leb_le in Hb.
  change (emax - prec) with 971 in Hb.
  rewrite fexp_eq, digits2_log2 in Hc. lia.
Qed.

Lemma magnitude_bounds (s : bool) (m : positive) (e : Z) :
  valid_binary (S754_finite s m e) = true ->
  0 < Zpos m < 2 ^ 53 /\ (-1074 < e -> 2 ^ 52 <= Zpos m).
Proof.
  intros H. destruct (valid_finite s m e H) as (_ & Hl & Hn).
  pose proof (log2_bounds (Zpos m) ltac:(lia)) as [Hlow Hup].
  split; [split; [lia|]|].
  - eapply Z.lt_le_trans; [exact Hup|]. apply Z.pow_le_mono_r; lia.
  - intros He. rewrite <- (Hn He). exact Hlow.
Qed.

(** A larger exponent is a larger magnitude. *)
Lemma magnitude_exponent (s1 s2 : bool) (m1 m2 : positive) (e1 e2 : Z) :
  valid_binary (S754_finite s1 m1 e1) = true ->
  valid_binary (S754_finite s2 m2 e2) = true ->
  e1 < e2 -> Zpos m1 * 2 ^ (e1 - scale) < Zpos m2 * 2 ^ (e2 - scale).
Proof.
  intros H1 H2 He.
  destruct (valid_finite s1 m1 e1 H1) as (Hr1 & _).
  destruct (valid_finite s2 m2 e2 H2) as (Hr2 & _).
  destruct (magnitude_bounds s1 m1 e1 H1) as (Hm1 & _).
  destruct (magnitude_bounds s2 m2 e2 H2) as (_ & Hm2).
  specialize (Hm2 ltac:(lia)). unfold scale.
  assert (Hp1 : 0 < 2 ^ (e1 - -1127)) by (apply pow2_pos; lia).
  assert (Hp2 : 0 < 2 ^ (e2 - -1127)) by (apply pow2_pos; lia).
  assert (Hpow : 2 ^ 53 * 2 ^ (e1 - -1127) <= 2 ^ 52 * 2 ^ (e2 - -1127)).
  { rewrite <- !Z.pow_add_r by lia. apply Z.pow_le_mono_r; lia. }
  nia.
Qed.

Lemma scaled_monotone (x y : spec_float) :
  valid_binary x = true -> valid_binary y = true ->
  is_finite x = true -> is_finite y = true ->
  ~ key_lt (order_key y) (order_key x) -> scaled x <= scaled y.
Proof.
  intros Hx Hy Fx Fy Hk.
  destruct x as [sx|sx| |sx mx ex]; try discriminate;
    destruct y as [sy|sy| |sy my ey]; try discriminate; cbn [scaled].
  - destruct (valid_finite sy my ey Hy) as (Hr & _).
    assert (0 < 2 ^ (ey - scale)) by (apply pow2_pos; unfold scale; lia).
    destruct sy; cbn [order_key cond_Zopp] in *.
    + exfalso. apply Hk. unfold key_lt. cbn [fst snd]. lia.
    + nia.
  - destruct (valid_finite sx mx ex Hx) as (Hr & _).
    assert (0 < 2 ^ (ex - scale)) by (apply pow2_pos; unfold scale; lia).
    destruct sx; cbn [order_key cond_Zopp] in *.
    + nia.
    + exfalso. apply Hk. unfold key_lt. cbn [fst snd]. lia.
  - destruct (valid_finite sx mx ex Hx) as (Hrx & _).
    destruct (valid_finite sy my ey Hy) as (Hry & _).
    assert (Hpx : 0 < 2 ^ (ex - scale)) by (apply pow2_pos; unfold scale; lia).
    assert (Hpy : 0 < 2 ^ (ey - scale)) by (apply pow2_pos; unfold scale; lia).
    destruct sx, sy; cbn [order_key cond_Zopp] in *; unfold key_lt in Hk; cbn [fst snd] in Hk.
    + (* both negative *)
      destruct (Z.lt_trichotomy ex ey) as [He|[He|He]].
      * exfalso. apply Hk. lia.
      * subst ey. assert (Zpos my <= Zpos mx) by lia. nia.
      * pose proof (magnitude_exponent true true my mx ey ex Hy Hx He). lia.
    + nia.
    + exfalso. apply Hk. lia.
    + destruct (Z.lt_trichotomy ex ey) as [He|[He|He]].
      * pose proof (magnitude_exponent false false mx my ex ey Hx Hy He). lia.
      * subst ey. assert (Zpos mx <= Zpos my) by lia. nia.
      * exfalso. apply Hk. lia.
Qed.

Lemma scaled_half (x : spec_float) :
  valid_binary x = true -> scaled x = 2 * half_scaled x.
Proof.
  intros Hx. destruct x as [sx|sx| |sx mx ex]; try reflexivity.
  destruct (valid_finite sx mx ex Hx) as (Hr & _).
  cbn [scaled half_scaled].
  replace (ex - scale) with (ex - scale - 1 + 1) at 1 by lia.
  rewrite pow2_succ by (unfold scale; lia).
  destruct sx; cbn [cond_Zopp]; lia.
Qed.

(** A double is its own rounding. *)
Lemma round_scaled_finite (s : bool) (m : positive) (e : Z) :
  valid_binary (S754_finite s m e) = true ->
  round_scaled s (Zpos m * 2 ^ (e - scale)) = S754_finite s m e.
Proof.
  intros H. destruct (valid_finite s m e H) as (Hr & Hl & Hn).
  destruct (magnitude_bounds s m e H) as (Hm & _).
  unfold round_scaled.
  rewrite Z.log2_mul_pow2 by (unfold scale; lia).
  assert (HE : fexp prec emax (e - scale + Z.log2 (Zpos m) + 1 + scale) = e).
  { rewrite fexp_eq. lia. }
  rewrite HE, rne_exact by (unfold scale; lia).
  destruct (Z.eqb_spec (Zpos m) 0); [lia|].
  destruct (Z.ltb_spec (Zpos m) (2 ^ 53)); [|lia].
  destruct (Z.leb_spec e 971); [|lia].
  reflexivity.
Qed.

Lemma round_signed_scaled (x : spec_float) :
  valid_binary x = true -> is_finite x = true ->
  order_key (round_signed (scaled x)) = order_key x.
Proof.
  intros Hx Fx. destruct x as [sx|sx| |sx mx ex]; try discriminate.
  - reflexivity.
  - destruct (valid_finite sx mx ex Hx) as (Hr & _).
    assert (Hp : 0 < 2 ^ (ex - scale)) by (apply pow2_pos; unfold scale; lia).
    cbn [scaled]. unfold round_signed.
    destruct sx; cbn [cond_Zopp].
    + destruct (Z.eqb_spec (- (Zpos mx * 2 ^ (ex - scale))) 0); [nia|].
      destruct (Z.ltb_spec 0 (- (Zpos mx * 2 ^ (ex - scale)))); [nia|].
      rewrite Z.opp_involutive, round_scaled_finite by exact Hx. reflexivity.
    + destruct (Z.eqb_spec (Zpos mx * 2 ^ (ex - scale)) 0); [nia|].
      destruct (Z.ltb_spec 0 (Zpos mx * 2 ^ (ex - scale))); [|nia].
      rewrite round_scaled_finite by exact Hx. reflexivity.
Qed.

Lemma round_scaled_not_nan (s : bool) (v : Z) : round_scaled s v <> S754_nan.
Proof.
  unfold round_scaled.
  destruct (_ =? 0); [discriminate|].
  destruct (_ <? 2 ^ 53); destruct (_ <=? 971); discriminate.
Qed.

Lemma round_signed_not_nan (z : Z) : round_signed z <> S754_nan.
Proof.
  unfold round_signed. destruct (z =? 0); [discriminate|].
  destruct (0 <? z); apply round_scaled_not_nan.
Qed.

(** ** The exact sum and the exact half, rounded *)

Lemma round_signed_pos (p : positive) (c : Z) : 0 < c ->
  round_signed (Zpos p * c) = round_scaled false (Zpos p * c).
Proof.
  intros Hc. unfold round_signed.
  destruct (Z.eqb_spec (Zpos p * c) 0); [nia|].
  destruct (Z.ltb_spec 0 (Zpos p * c)); [reflexivity|nia].
Qed.

Lemma round_signed_neg (p : positive) (c : Z) : 0 < c ->
  round_signed (Zneg p * c) = round_scaled true (Zpos p * c).
Proof.
  intros Hc. unfold round_signed.
  destruct (Z.eqb_spec (Zneg p * c) 0); [nia|].
  destruct (Z.ltb_spec 0 (Zneg p * c)); [nia|].
  f_equal. lia.
Qed.

(** The sum of two finite doubles is their exact sum, rounded. *)
Lemma SFadd_finite (x y : spec_float) :
  valid_binary x = true -> valid_binary y = true ->
  is_finite x = true -> is_finite y = true ->
  SFadd prec emax x y <> S754_nan
  /\ order_key (SFadd prec emax x y) = order_key (round_signed (scaled x + scaled y)).
Proof.
  intros Hx Hy Fx Fy.
  destruct x as [sx|sx| |sx mx ex]; try discriminate Fx;
    destruct y as [sy|sy| |sy my ey]; try discriminate Fy.
  - destruct sx, sy; split; try discriminate; reflexivity.
  - cbn [SFadd]. split; [discriminate|].
    change (scaled (S754_zero sx)) with 0. rewrite Z.add_0_l.
    symmetry. apply round_signed_scaled; assumption.
  - cbn [SFadd]. split; [discriminate|].
    change (scaled (S754_zero sy)) with 0. rewrite Z.add_0_r.
    symmetry. apply round_signed_scaled; assumption.
  - destruct (valid_finite sx mx ex Hx) as (Hrx & _).
    destruct (valid_finite sy my ey Hy) as (Hry & _).
    cbn [SFadd]. cbv zeta.
    set (ez := Z.min ex ey).
    destruct (shl_align_spec mx ex ez) as [Hax _].
    destruct (shl_align_spec my ey ez) as [Hay _].
    destruct (Hax ltac:(lia)) as [_ HX]. destruct (Hay ltac:(lia)) as [_ HY].
    rewrite HX, HY.
    assert (Hc : 0 < 2 ^ (ez - scale)) by (apply pow2_pos; unfold scale; lia).
    assert (Hsum : scaled (S754_finite sx mx ex) + scaled (S754_finite sy my ey)
                   = (cond_Zopp sx (Zpos mx * 2 ^ (ex - ez))
                      + cond_Zopp sy (Zpos my * 2 ^ (ey - ez))) * 2 ^ (ez - scale)).
    { cbn [scaled].
      replace (ex - scale) with ((ex - ez) + (ez - scale)) by lia.
      replace (ey - scale) with ((ey - ez) + (ez - scale)) by lia.
      rewrite !Z.pow_add_r by (unfold scale; lia).
      destruct sx, sy; cbn [cond_Zopp]; ring. }
    rewrite Hsum.
    destruct (cond_Zopp sx (Zpos mx * 2 ^ (ex - ez))
              + cond_Zopp sy (Zpos my * 2 ^ (ey - ez))) as [|p|p];
      cbn [binary_normalize].
    + split; [discriminate|reflexivity].
    + rewrite binary_round_scaled by lia. rewrite round_signed_pos by exact Hc.
      split; [apply round_scaled_not_nan|reflexivity].
    + rewrite binary_round_scaled by lia. rewrite round_signed_neg by exact Hc.
      split; [apply round_scaled_not_nan|reflexivity].
Qed.

Lemma Prim2SF_half : Prim2SF 0.5 = S754_finite false 4503599627370496 (-53).
Proof. reflexivity. Qed.

Lemma round_signed_cond (s : bool) (v : Z) : 0 < v ->
  round_signed (cond_Zopp s v) = round_scaled s v.
Proof.
  intros Hv. unfold round_signed. destruct s; cbn [cond_Zopp].
  - destruct (Z.eqb_spec (- v) 0); [lia|].
    destruct (Z.ltb_spec 0 (- v)); [lia|].
    rewrite Z.opp_involutive. reflexivity.
  - destruct (Z.eqb_spec v 0); [lia|].
    destruct (Z.ltb_spec 0 v); [reflexivity|lia].
Qed.

(** The half of a finite double is its exact half, rounded. *)
Lemma SFmul_half_finite (x : spec_float) :
  valid_binary x = true -> is_finite x = true ->
  SFmul prec emax (S754_finite false 4503599627370496 (-53)) x <> S754_nan
  /\ order_key (SFmul prec emax (S754_finite false 4503599627370496 (-53)) x)
     = order_key (round_signed (half_scaled x)).
Proof.
  intros Hx Fx. destruct x as [sx|sx| |sx mx ex]; try discriminate Fx.
  - split; [discriminate|reflexivity].
  - destruct (valid_finite sx mx ex Hx) as (Hr & Hl & Hn).
    pose proof (Z.log2_nonneg (Zpos mx)) as Hlog.
    cbn [SFmul xorb].
    assert (Hm : Zpos (4503599627370496 * mx) = Zpos mx * 2 ^ 52).
    { rewrite Pos2Z.inj_mul. change (Zpos 4503599627370496) with (2 ^ 52). lia. }
    rewrite binary_round_aux_scaled.
    + cbn [half_scaled].
      rewrite round_signed_cond
        by (apply Z.mul_pos_pos; [lia|apply pow2_pos; unfold scale; lia]).
      rewrite Hm, <- Z.mul_assoc, <- Z.pow_add_r by (unfold scale; lia).
      replace (52 + (-53 + ex - scale)) with (ex - scale - 1) by lia.
      split; [apply round_scaled_not_nan|reflexivity].
    + unfold scale. lia.
    + rewrite digits2_log2, Hm, Z.log2_mul_pow2, fexp_eq by lia. lia.
Qed.

(** ** Sums and halves keep the order *)

Lemma not_finite_infinity (x : spec_float) :
  x <> S754_nan -> is_finite x = false -> exists s, x = S754_infinity s.
Proof.
  intros Hn Hf. destruct x as [s|s| |s m e]; try discriminate Hf.
  - exists s. reflexivity.
  - congruence.
Qed.

Lemma key_least (x : spec_float) : ~ key_lt (order_key x) (order_key (S754_infinity true)).
Proof.
  destruct x as [s|s| |s m e]; try destruct s; cbn [order_key];
    unfold key_lt; cbn [fst snd]; lia.
Qed.

Lemma key_greatest (x : spec_float) : ~ key_lt (order_key (S754_infinity false)) (order_key x).
Proof.
  destruct x as [s|s| |s m e]; try destruct s; cbn [order_key];
    unfold key_lt; cbn [fst snd]; lia.
Qed.

Lemma above_infinity (z : spec_float) :
  spec_le (S754_infinity false) z -> z = S754_infinity false.
Proof.
  intros (_ & Hn & Hk).
  destruct z as [s|s| |s m e]; try destruct s; try congruence;
    exfalso; apply Hk; cbn [order_key]; unfold key_lt; cbn [fst snd]; lia.
Qed.

Lemma below_infinity (x : spec_float) :
  spec_le x (S754_infinity true) -> x = S754_infinity true.
Proof.
  intros (Hn & _ & Hk).
  destruct x as [s|s| |s m e]; try destruct s; try congruence;
    exfalso; apply Hk; cbn [order_key]; unfold key_lt; cbn [fst snd]; lia.
Qed.

Lemma SFadd_infinity_l (s : bool) (y : spec_float) :
  SFadd prec emax (S754_infinity s) y <> S754_nan ->
  SFadd prec emax (S754_infinity s) y = S754_infinity s.
Proof.
  destruct y as [sy|sy| |sy my ey]; try destruct sy; destruct s; cbn [SFadd];
    congruence.
Qed.

Lemma SFadd_infinity_r (x : spec_float) (s : bool) :
  SFadd prec emax x (S754_infinity s) <> S754_nan ->
  SFadd prec emax x (S754_infinity s) = S754_infinity s.
Proof.
  destruct x as [sx|sx| |sx mx ex]; try destruct sx; destruct s; cbn [SFadd];
    congruence.
Qed.

Lemma SFadd_monotone (x y z w : spec_float) :
  valid_binary x = true -> valid_binary y = true ->
  valid_binary z = true -> valid_binary w = true ->
  spec_le x z -> spec_le y w ->
  SFadd prec emax x y <> S754_nan -> SFadd prec emax z w <> S754_nan ->
  spec_le (SFadd prec emax x y) (SFadd prec emax z w).
Proof.
  intros Vx Vy Vz Vw Hxz Hyw Nxy Nzw.
  split; [exact Nxy|]. split; [exact Nzw|].
  pose proof Hxz as (Nx & Nz & Kxz). pose proof Hyw as (Ny & Nw & Kyw).
  destruct (is_finite x) eqn:Fx.
  2:{ destruct (not_finite_infinity x Nx Fx) as [s ->].
      rewrite (SFadd_infinity_l s y Nxy). destruct s; [apply key_least|].
      rewrite (above_infinity z Hxz) in *.
      rewrite (SFadd_infinity_l false w Nzw). apply key_lt_irrefl. }
  destruct (is_finite y) eqn:Fy.
  2:{ destruct (not_finite_infinity y Ny Fy) as [s ->].
      rewrite (SFadd_infinity_r x s Nxy). destruct s; [apply key_least|].
      rewrite (above_infinity w Hyw) in *.
      rewrite (SFadd_infinity_r z false Nzw). apply key_lt_irrefl. }
  destruct (is_finite z) eqn:Fz.
  2:{ destruct (not_finite_infinity z Nz Fz) as [s ->].
      rewrite (SFadd_infinity_l s w Nzw). destruct s; [|apply key_greatest].
      rewrite (below_infinity x Hxz) in Fx. discriminate Fx. }
  destruct (is_finite w) eqn:Fw.
  2:{ destruct (not_finite_infinity w Nw Fw) as [s ->].
      rewrite (SFadd_infinity_r z s Nzw). destruct s; [|apply key_greatest].
      rewrite (below_infinity y Hyw) in Fy. discriminate Fy. }
  destruct (SFadd_finite x y Vx Vy Fx Fy) as [_ ->].
  destruct (SFadd_finite z w Vz Vw Fz Fw) as [_ ->].
  apply round_signed_monotone.
  pose proof (scaled_monotone x z Vx Vz Fx Fz Kxz).
  pose proof (scaled_monotone y w Vy Vw Fy Fw Kyw). lia.
Qed.

Lemma SFmul_half_not_nan (x : spec_float) :
  valid_binary x = true -> x <> S754_nan ->
  SFmul prec emax (S754_finite false 4503599627370496 (-53)) x <> S754_nan.
Proof.
  intros Vx Nx. destruct (is_finite x) eqn:Fx.
  - apply SFmul_half_finite; assumption.
  - destruct (not_finite_infinity x Nx Fx) as [s ->]. discriminate.
Qed.

Lemma SFmul_half_monotone (x y : spec_float) :
  valid_binary x = true -> valid_binary y = true -> spec_le x y ->
  spec_le (SFmul prec emax (S754_finite false 4503599627370496 (-53)) x)
          (SFmul prec emax (S754_finite false 4503599627370496 (-53)) y).
Proof.
  intros Vx Vy Hxy. pose proof Hxy as (Nx & Ny & Kxy).
  split; [apply SFmul_half_not_nan; assumption|].
  split; [apply SFmul_half_not_nan; assumption|].
  destruct (is_finite x) eqn:Fx.
  2:{ destruct (not_finite_infinity x Nx Fx) as [s ->]. destruct s.
      - cbn [SFmul xorb]. apply key_least.
      - rewrite (above_infinity y Hxy). apply key_lt_irrefl. }
  destruct (is_finite y) eqn:Fy.
  2:{ destruct (not_finite_infinity y Ny Fy) as [s ->]. destruct s.
      - rewrite (below_infinity x Hxy) in Fx. discriminate Fx.
      - cbn [SFmul xorb]. apply key_greatest. }
  destruct (SFmul_half_finite x Vx Fx) as [_ ->].
  destruct (SFmul_half_finite y Vy Fy) as [_ ->].
  apply round_signed_monotone.
  pose proof (scaled_monotone x y Vx Vy Fx Fy Kxy).
  rewrite (scaled_half x Vx), (scaled_half y Vy) in *. lia.
Qed.

(** ** Sums and halves of primitive doubles *)

Lemma double_le_spec (a b : double) :
  double_le a b <-> spec_le (Prim2SF a) (Prim2SF b).
Proof.
  unfold double_le, spec_le. rewrite leb_key. unfold key.
  pose proof (Prim2SF_nan a) as Ha. pose proof (Prim2SF_nan b) as Hb.
  destruct (is_nan a), (is_nan b); intuition congruence.
Qed.

Lemma not_nan_spec (a : double) : is_nan a = false <-> Prim2SF a <> S754_nan.
Proof.
  pose proof (Prim2SF_nan a) as Ha. destruct (is_nan a); intuition congruence.
Qed.

Lemma add_monotone (a b c d : double) :
  double_le a c -> double_le b d ->
  is_nan (a + b)%float = false -> is_nan (c + d)%float = false ->
  double_le (a + b)%float (c + d)%float.
Proof.
  rewrite !double_le_spec, !not_nan_spec, !add_spec. unfold SF64add.
  intros Hac Hbd Nab Ncd.
  apply SFadd_monotone; try apply Prim2SF_valid; assumption.
Qed.

Lemma half_monotone (a b : double) :
  double_le a b -> double_le (0.5 * a)%float (0.5 * b)%float.
Proof.
  rewrite !double_le_spec, !mul_spec, Prim2SF_half. unfold SF64mul.
  intros Hab. apply SFmul_half_monotone; try apply Prim2SF_valid; assumption.
Qed.

Lemma half_not_nan (a : double) : is_nan (0.5 * a)%float = is_nan a.
Proof.
  destruct (is_nan a) eqn:Ha.
  - apply Prim2SF_nan. apply Prim2SF_nan in Ha.
    rewrite mul_spec, Ha. reflexivity.
  - apply not_nan_spec. apply not_nan_spec in Ha.
    rewrite mul_spec, Prim2SF_half. unfold SF64mul.
    apply SFmul_half_not_nan; [apply Prim2SF_valid|exact Ha].
Qed.

(** The midpoints of two steps, the second not below the first on
    either side, are in the same order unless one of them is a NaN. *)
Lemma midpoint_monotone (a b c d : double) :
  double_le a c -> double_le b d ->
  is_nan (midpoint (a, b)) = false -> is_nan (midpoint (c, d)) = false ->
  double_le (midpoint (a, b)) (midpoint (c, d)).
Proof.
  unfold midpoint. cbn [fst snd]. rewrite !half_not_nan.
  intros Hac Hbd Nab Ncd. apply half_monotone. apply add_monotone; assumption.
Qed.

(** The sum of two doubles in order is a NaN only if they are the two
    infinities. *)
Lemma add_nan (a b : double) :
  double_le a b -> is_nan (a + b)%float = true ->
  a = neg_infinity /\ b = infinity.
Proof.
  rewrite double_le_spec. intros (Na & Nb & Hk) Hn.
  apply Prim2SF_nan in Hn. rewrite add_spec in Hn. unfold SF64add in Hn.
  pose proof (Prim2SF_valid a) as Va. pose proof (Prim2SF_valid b) as Vb.
  destruct (is_finite (Prim2SF a)) eqn:Fa.
  - destruct (is_finite (Prim2SF b)) eqn:Fb.
    + destruct (SFadd_finite _ _ Va Vb Fa Fb) as [H _]. contradiction.
    + destruct (not_finite_infinity _ Nb Fb) as [s Hb]. rewrite Hb in Hn.
      destruct (Prim2SF a) as [sa|sa| |sa ma ea]; try discriminate Fa;
        try destruct sa; destruct s; discriminate Hn.
  - destruct (not_finite_infinity _ Na Fa) as [s Ha]. rewrite Ha in Hn, Hk.
    destruct (Prim2SF b) as [sb|sb| |sb mb eb] eqn:Hb; try destruct sb; destruct s;
      try discriminate Hn; try congruence.
    + exfalso. apply Hk. cbn [order_key]. unfold key_lt. cbn [fst snd]. lia.
    + split; apply Prim2SF_inj; [rewrite Ha|rewrite Hb]; reflexivity.
Qed.

(** ** Midpoints of an ascending chain of steps *)

Lemma flatten_In (steps : list (double * double)) (a b : double) :
  In (a, b) steps -> In a (flatten steps) /\ In b (flatten steps).
Proof.
  intros H. unfold flatten. rewrite !in_flat_map.
  split; exists (a, b); cbn [fst snd In]; tauto.
Qed.

(** The midpoints of steps in ascending order are in ascending order,
    unless one of them is a NaN. *)
Lemma midpoints_sorted (steps : list (double * double)) :
  StronglySorted double_le (flatten steps) ->
  no_nan (map midpoint steps) ->
  StronglySorted double_le (map midpoint steps).
Proof.
  induction steps as [|[a b] steps IH]; intros Hs Hn; [constructor|].
  change (flatten ((a, b) :: steps)) with (a :: b :: flatten steps) in Hs.
  apply StronglySorted_inv in Hs. destruct Hs as [Hs Ha].
  apply StronglySorted_inv in Hs. destruct Hs as [Hs Hb].
  cbn [map] in *. inversion Hn as [|q l Hn1 Hn2]; subst q l.
  constructor; [apply IH; assumption|].
  rewrite Forall_forall in *. intros q Hq.
  apply in_map_iff in Hq. destruct Hq as ([c d] & <- & Hcd).
  destruct (flatten_In steps c d Hcd) as [Hc Hd].
  apply midpoint_monotone.
  - apply Ha. right. exact Hc.
  - apply Hb. exact Hd.
  - exact Hn1.
  - apply Hn2. apply (in_map midpoint). exact Hcd.
Qed.

(** A midpoint is a NaN only between the two infinities. *)
Lemma midpoints_no_nan (steps : list (double * double)) :
  StronglySorted double_le (flatten steps) ->
  ~ (In neg_infinity (flatten steps) /\ In infinity (flatten steps)) ->
  no_nan (map midpoint steps).
Proof.
  induction steps as [|[a b] steps IH]; intros Hs Hinf; [constructor|].
  change (flatten ((a, b) :: steps)) with (a :: b :: flatten steps) in *.
  apply StronglySorted_inv in Hs. destruct Hs as [Hs Ha].
  apply StronglySorted_inv in Hs. destruct Hs as [Hs Hb].
  cbn [map]. constructor.
  - destruct (is_nan (midpoint (a, b))) eqn:Hn; [|reflexivity].
    exfalso. apply Hinf. unfold midpoint in Hn. cbn [fst snd] in Hn.
    rewrite half_not_nan in Hn.
    apply Forall_inv in Ha.
    destruct (add_nan a b Ha Hn) as [-> ->].
    split; [left; reflexivity|right; left; reflexivity].
  - apply IH; [exact Hs|]. intros [H1 H2]. apply Hinf.
    split; right; right; assumption.
Qed.

(** ** Labels of the quantile table *)

Lemma map_result_map {A B : Type} (f : A -> result B) (g : A -> B) (l : list A) :
  (forall x, In x l -> f x = Ok (g x)) -> map_result f l = Ok (map g l).
Proof.
  induction l as [|x l IH]; intros Hf; [reflexivity|].
  cbn [map_result map]. rewrite (Hf x (or_introl eq_refl)). cbn [bind].
  rewrite IH by (intros y Hy; apply Hf; right; exact Hy). reflexivity.
Qed.

(** A generic label is none of the five names. *)
Lemma generic_label_is_generic (DoubleToString : double -> string) (N k : Z) :
  ~ In (generic_label DoubleToString N k)
       ["Minimum"; "First Quartile"; "Median"; "Third Quartile"; "Maximum"].
Proof.
  unfold generic_label.
  generalize (ToString DoubleToString
                (VariantDouble (double_of_int k * (1 / double_of_int N))%float)).
  intros s Hin. simpl in Hin.
  destruct Hin as [H|[H|[H|[H|[H|[]]]]]]; symmetry in H; strip_suffix H;
    destruct s; discriminate H.
Qed.

Section Labels.

Variable DoubleToString : double -> string.

Lemma quantile_label_in_range (N k : Z) :
  0 < N < 2 ^ 29 -> 0 <= k <= N ->
  quantile_label DoubleToString N k = Ok (label_of DoubleToString N k).
Proof.
  intros HN Hk. unfold quantile_label, label_of.
  replace (N =? 0) with false by (symmetry; apply Z.eqb_neq; lia).
  rewrite Z.shiftl_mul_pow2 by lia. change (2 ^ 2) with 4.
  rewrite int_wrap_small by lia.
  rewrite Z.quot_div_nonneg, Z.rem_mod_nonneg by lia.
  replace (k * 4) with (4 * k) by lia.
  destruct (negb ((4 * k) mod N =? 0)); reflexivity.
Qed.

Lemma quantile_labels_in_range (N : Z) :
  0 < N < 2 ^ 29 ->
  quantile_labels DoubleToString N
  = Ok (map (fun i => label_of DoubleToString N (Z.of_nat i)) (seq 0 (Z.to_nat (N + 1)))).
Proof.
  intros HN. unfold quantile_labels. apply map_result_map.
  intros i Hi. apply in_seq in Hi. apply quantile_label_in_range; lia.
Qed.

(** CLAIM C8: for 0 < N (below 2^29, so that the [int] [i << 2] stays in
    range) the table holds N + 1 labels, and the label at position k,
    0 <= k <= N, is "Minimum", "First Quartile", "Median",
    "Third Quartile" or "Maximum" exactly when 4k is 0, 1, 2, 3 or 4
    times N; when N does not divide 4k it is the decimal form of the
    double k * (1. / N) followed by "-quantile".  For N = 4 the labels
    are the five names; for N = 3 they are "Minimum", the generic labels
    of 1 * (1. / 3) and 2 * (1. / 3), and "Maximum". *)
Theorem quantile_labels_cases (N : Z) :
  0 < N < 2 ^ 29 ->
  exists labels,
    quantile_labels DoubleToString N = Ok labels
    /\ Z.of_nat (length labels) = N + 1
    /\ (forall k, 0 <= k <= N ->
          exists label,
            nth_error labels (Z.to_nat k) = Some label
            /\ (label = "Minimum" <-> 4 * k = 0 * N)
            /\ (label = "First Quartile" <-> 4 * k = 1 * N)
            /\ (label = "Median" <-> 4 * k = 2 * N)
            /\ (label = "Third Quartile" <-> 4 * k = 3 * N)
            /\ (label = "Maximum" <-> 4 * k = 4 * N)
            /\ ((4 * k) mod N <> 0 ->
                label = DoubleToString (double_of_int k * (1 / double_of_int N))%float
                        ++ "-quantile"))
    /\ quantile_labels DoubleToString 4 =
         Ok ["Minimum"; "First Quartile"; "Median"; "Third Quartile"; "Maximum"]
    /\ quantile_labels DoubleToString 3 =
         Ok ["Minimum"; DoubleToString (1 * (1 / 3))%float ++ "-quantile";
             DoubleToString (2 * (1 / 3))%float ++ "-quantile"; "Maximum"].
Proof.
  intros HN. eexists. split; [apply quantile_labels_in_range; exact HN|].
  split; [rewrite length_map, length_seq; lia|].
  split; [|split; reflexivity].
  intros k Hk. exists (label_of DoubleToString N k).
  split.
  { rewrite nth_error_map, nth_error_seq.
    replace (Z.to_nat k <? Z.to_nat (N + 1))%nat with true
      by (symmetry; apply Nat.ltb_lt; lia).
    cbn [option_map]. rewrite Nat.add_0_l, Z2Nat.id by lia. reflexivity. }
  unfold label_of.
  pose proof (generic_label_is_generic DoubleToString N k) as Hgen. simpl in Hgen.
  pose proof (Z.div_mod (4 * k) N ltac:(lia)) as Hdm.
  pose proof (Z.mod_pos_bound (4 * k) N ltac:(lia)) as Hmod.
  destruct ((4 * k) mod N =? 0) eqn:Hrem; cbn [negb].
  - apply Z.eqb_eq in Hrem. rewrite Hrem in Hdm.
    assert (Hq : (4 * k) / N = 0 \/ (4 * k) / N = 1 \/ (4 * k) / N = 2
                 \/ (4 * k) / N = 3 \/ (4 * k) / N = 4) by nia.
    destruct Hq as [Hq|[Hq|[Hq|[Hq|Hq]]]]; rewrite Hq in *;
      (repeat split; try reflexivity; try discriminate; try lia).
  - apply Z.eqb_neq in Hrem.
    repeat split; try reflexivity; try lia;
      try (intros Heq; exfalso; apply Hgen; rewrite Heq; tauto).
    all: intros Heq; exfalso; apply Hrem; rewrite Heq; apply Z.mod_mul; lia.
Qed.

(** With no interval the first pass of the loop divides by zero. *)
Lemma quantile_labels_no_interval : quantile_labels DoubleToString 0 = OutOfBounds.
Proof. reflexivity. Qed.

End Labels.

(** The theorem of C8 at N = 8. *)
Lemma quantile_labels_cases_witness :
  exists labels,
    quantile_labels (fun _ => "0.5") 8 = Ok labels
    /\ Z.of_nat (length labels) = 8 + 1
    /\ (forall k, 0 <= k <= 8 ->
          exists label,
            nth_error labels (Z.to_nat k) = Some label
            /\ (label = "Minimum" <-> 4 * k = 0 * 8)
            /\ (label = "First Quartile" <-> 4 * k = 1 * 8)
            /\ (label = "Median" <-> 4 * k = 2 * 8)
            /\ (label = "Third Quartile" <-> 4 * k = 3 * 8)
            /\ (label = "Maximum" <-> 4 * k = 4 * 8)
            /\ ((4 * k) mod 8 <> 0 ->
                label = "0.5" ++ "-quantile"))
    /\ quantile_labels (fun _ => "0.5") 4 =
         Ok ["Minimum"; "First Quartile"; "Median"; "Third Quartile"; "Maximum"]
    /\ quantile_labels (fun _ => "0.5") 3 =
         Ok ["Minimum"; "0.5" ++ "-quantile"; "0.5" ++ "-quantile"; "Maximum"].
Proof.
  apply (quantile_labels_cases (fun _ => "0.5") 8). lia.
Defined.

(** ** The target ranks of the interior quantiles *)

(** Where the rank loop stops: at the first rank, from the cursor on,
    whose CDF cell is not below the target. *)
Lemma advance_stops (cdf : cdf_array) (nRowHist qIdx : Z) :
  forall (fuel : nat) (rank r : Z),
    advance fuel cdf nRowHist qIdx rank = Ok r ->
    first_rank_reaching cdf rank qIdx r.
Proof.
  unfold first_rank_reaching.
  induction fuel as [|fuel IH]; intros rank r Hadv; [discriminate|].
  cbn [advance] in Hadv.
  destruct (Z.gtb_spec qIdx (cdf_get cdf rank)) as [Hgt|Hle].
  - destruct (rank + 1 >? nRowHist); [discriminate|].
    destruct (IH _ _ Hadv) as (H1 & H2 & H3).
    split; [lia|]. split; [exact H2|].
    intros j Hj. destruct (Z.eq_dec j rank) as [->|Hne]; [lia|].
    apply H3. lia.
  - injection Hadv as <-. split; [lia|]. split; [exact Hle|]. intros j Hj. lia.
Qed.

Lemma advance_rank_stops (cdf : cdf_array) (nRowHist qIdx rank r : Z) :
  advance_rank cdf nRowHist qIdx rank = Ok r ->
  first_rank_reaching cdf rank qIdx r.
Proof. apply advance_stops. Qed.

Lemma bind_Ok {A B : Type} (r : result A) (f : A -> result B) (y : B) :
  bind r f = Ok y -> exists x, r = Ok x /\ f x = Ok y.
Proof.
  destruct r as [x| | |]; cbn [bind]; intros Heq; try discriminate.
  exists x. split; [reflexivity|exact Heq].
Qed.

(** One pass of the loop over the interior quantiles. *)
Lemma interior_quantile_ranks (def : QuantileDefinitionType) (cdf : cdf_array)
    (nRowHist : Z) (dh : double) (rank k r1 r2 : Z) :
  interior_quantile def cdf nRowHist dh rank k = Ok (r1, r2) ->
  let np := (double_of_int k * dh)%float in
  match def with
  | InverseCDF =>
      first_rank_reaching cdf rank (ceil np) r1 /\ r2 = r1
  | InverseCDFAveragedSteps =>
      first_rank_reaching cdf rank (round np) r1
      /\ (if round np =? floor (np + 1)%float then r2 = r1
          else first_rank_reaching cdf r1 (floor (np + 1)%float) r2)
  end.
Proof.
  unfold interior_quantile. intros Hq.
  apply bind_Ok in Hq. destruct Hq as (rank1 & Hr1 & Hq).
  apply advance_rank_stops in Hr1.
  destruct def; cbn [first_quantile_index] in *.
  - injection Hq as <- <-. split; [exact Hr1|reflexivity].
  - destruct (round _ =? floor _); cbn [negb] in Hq.
    + injection Hq as <- <-. split; [exact Hr1|reflexivity].
    + apply bind_Ok in Hq. destruct Hq as (rank2 & Hr2 & Hq).
      injection Hq as <- <-. apply advance_rank_stops in Hr2.
      split; assumption.
Qed.

(** The passes of the loop, one after the other: the pass of position
    [i] starts with the cursor the pass before it left. *)
Lemma interior_quantiles_passes (def : QuantileDefinitionType) (cdf : cdf_array)
    (nRowHist : Z) (dh : double) :
  forall (ks : list Z) (start : Z * Z) (pairs : list (Z * Z)),
    interior_quantiles def cdf nRowHist dh (snd start) ks = Ok pairs ->
    length pairs = length ks
    /\ forall (i : nat) (k : Z),
         nth_error ks i = Some k ->
         exists prev p,
           nth_error (start :: pairs) i = Some prev
           /\ nth_error pairs i = Some p
           /\ interior_quantile def cdf nRowHist dh (snd prev) k = Ok p.
Proof.
  induction ks as [|k0 ks IH]; intros start pairs Hq; cbn [interior_quantiles] in Hq.
  - injection Hq as <-. split; [reflexivity|]. intros [|i] k Hk; discriminate Hk.
  - apply bind_Ok in Hq. destruct Hq as (p0 & Hp0 & Hq).
    apply bind_Ok in Hq. destruct Hq as (rest & Hrest & Hq). injection Hq as <-.
    destruct (IH p0 rest Hrest) as (Hlen & Hnth).
    split; [simpl; rewrite Hlen; reflexivity|].
    intros [|i] k Hk.
    + injection Hk as <-. exists start, p0. repeat split. exact Hp0.
    + exact (Hnth i k Hk).
Qed.

Lemma interior_ks_nth (N k : Z) :
  0 < k < N -> nth_error (interior_ks N) (Z.to_nat (k - 1)) = Some k.
Proof.
  intros Hk. unfold interior_ks.
  rewrite nth_error_map, nth_error_seq.
  replace (Z.to_nat (k - 1) <? Z.to_nat (N - 1))%nat with true
    by (symmetry; apply Nat.ltb_lt; lia).
  cbn [option_map]. f_equal. lia.
Qed.

(** CLAIM C2: when the loops of Derive over the ranks come to their end,
    the pair of position k, 0 < k < N, holds as its first rank the first
    rank, from the second rank of the pair before it on, whose CDF cell
    reaches the target: ceil(np) under InverseCDF and round(np) under
    InverseCDFAveragedSteps, with the double np = k * (n / N). *)
Theorem quantile_indices_targets (def : QuantileDefinitionType) (N : Z)
    (cdf : cdf_array) (nRowHist n : Z) (pairs : list (Z * Z)) :
  quantile_indices def N cdf nRowHist n = Ok pairs ->
  forall k, 0 < k < N ->
    let np := (double_of_int k * (double_of_int n / double_of_int N))%float in
    let qIdx1 := match def with
                 | InverseCDF => ceil np
                 | InverseCDFAveragedSteps => round np
                 end in
    exists prev r1 r2,
      nth_error pairs (Z.to_nat (k - 1)) = Some prev
      /\ nth_error pairs (Z.to_nat k) = Some (r1, r2)
      /\ first_rank_reaching cdf (snd prev) qIdx1 r1.
Proof.
  intros Hq k Hk np qIdx1. unfold quantile_indices in Hq.
  apply bind_Ok in Hq. destruct Hq as (interior & Hint & Hq). injection Hq as <-.
  destruct (interior_quantiles_passes def cdf nRowHist _ _ (1, 1) interior Hint)
    as (Hlen & Hnth).
  rewrite interior_ks_length in Hlen.
  destruct (Hnth _ _ (interior_ks_nth N k Hk)) as (prev & [r1 r2] & Hprev & Hp & Hpass).
  exists prev, r1, r2.
  split.
  { change ((1, 1) :: interior ++ [(nRowHist - 1, nRowHist - 1)])%list
      with (((1, 1) :: interior) ++ [(nRowHist - 1, nRowHist - 1)])%list.
    rewrite nth_error_app1 by (simpl; lia). exact Hprev. }
  split.
  { replace (Z.to_nat k) with (S (Z.to_nat (k - 1))) by lia.
    cbn [nth_error]. rewrite nth_error_app1 by lia. exact Hp. }
  apply interior_quantile_ranks in Hpass. cbv zeta in Hpass.
  subst qIdx1 np. destruct def; destruct Hpass as [H1 _]; exact H1.
Qed.

(** The theorem of C2 on fourteen values counted once and a hundred
    intervals. *)
Lemma quantile_indices_targets_witness :
  let cdf := mk_cdf (running_sums 0 (repeat 1 14)) (fun _ => 0) in
  exists pairs,
    quantile_indices InverseCDF 100 cdf 15 14 = Ok pairs
    /\ forall k, 0 < k < 100 ->
         let np := (double_of_int k * (double_of_int 14 / double_of_int 100))%float in
         exists prev r1 r2,
           nth_error pairs (Z.to_nat (k - 1)) = Some prev
           /\ nth_error pairs (Z.to_nat k) = Some (r1, r2)
           /\ first_rank_reaching cdf (snd prev) (ceil np) r1.
Proof.
  intros cdf. eexists. split; [vm_compute; reflexivity|].
  apply (quantile_indices_targets InverseCDF 100 cdf 15 14).
  vm_compute. reflexivity.
Defined.

(** The target is computed in doubles: for n = 14, N = 100 and k = 50
    the product 50 * (14 / 100.) lies above 7, its ceiling is 8, and
    the pair of position 50 holds rank 8, where the seventh rank
    already reaches 50 * 14 / 100 = 7. *)
Lemma quantile_indices_rounded_target :
  let cdf := mk_cdf (running_sums 0 (repeat 1 14)) (fun _ => 0) in
  let np := (double_of_int 50 * (double_of_int 14 / double_of_int 100))%float in
  (7 <? np)%float = true
  /\ ceil np = 8
  /\ (pairs <- quantile_indices InverseCDF 100 cdf 15 14 ;; get pairs 50) = Ok (8, 8)
  /\ cdf_get cdf 7 = 7.
Proof. vm_compute. repeat split. Qed.

(** Against C2 as claimed (round under InverseCDF, ceil under
    InverseCDFAveragedSteps): nine values counted once, N = 4, k = 1.
    Then np = 2.25, round(np) = 2 and ceil(np) = 3.  Under InverseCDF
    the pair of position 1 is (3, 3) although rank 2 reaches round(np);
    under InverseCDFAveragedSteps its first rank is 2, where the CDF
    is below ceil(np).  The quantile columns Derive yields differ
    accordingly. *)
Lemma quantile_indices_targets_counterexample :
  let cdf := mk_cdf (running_sums 0 [1; 1; 1; 1; 1; 1; 1; 1; 1]) (fun _ => 0) in
  let np := (double_of_int 1 * (double_of_int 9 / double_of_int 4))%float in
  let histogramTab : vtkTable :=
    [("Value", vtkDoubleArray [nan; 1; 2; 3; 4; 5; 6; 7; 8; 9]%float);
     ("Cardinality", vtkIdTypeArray [-1; 1; 1; 1; 1; 1; 1; 1; 1; 1])] in
  round np = 2 /\ ceil np = 3
  /\ quantile_indices InverseCDF 4 cdf 10 9
     = Ok [(1, 1); (3, 3); (5, 5); (7, 7); (9, 9)]
  /\ ~ first_rank_reaching cdf 1 (round np) 3
  /\ quantile_indices InverseCDFAveragedSteps 4 cdf 10 9
     = Ok [(1, 1); (2, 3); (5, 5); (7, 7); (9, 9)]
  /\ ~ first_rank_reaching cdf 1 (ceil np) 2
  /\ snd (derive_histogram InverseCDF 4 (fun _ => 0) histogramTab)
     = Ok (Some (vtkDoubleArray [1; 3; 5; 7; 9]%float))
  /\ snd (derive_histogram InverseCDFAveragedSteps 4 (fun _ => 0) histogramTab)
     = Ok (Some (vtkDoubleArray [1; 2.5; 5; 7; 9]%float)).
Proof.
  cbv zeta.
  split; [vm_compute; reflexivity|]. split; [vm_compute; reflexivity|].
  split; [vm_compute; reflexivity|].
  split.
  { intros (_ & _ & Hlow). specialize (Hlow 2 ltac:(lia)). vm_compute in Hlow. discriminate Hlow. }
  split; [vm_compute; reflexivity|].
  split.
  { intros (_ & Hreach & _). vm_compute in Hreach. apply Hreach. reflexivity. }
  split; vm_compute; reflexivity.
Qed.

(** ** Derive: the two ranks of a pair *)

(** X17 ([Derive], the second rank): when the rank loops come to their
    end, the two ranks of the pair of position k, 0 < k < N, are in
    order.  Under InverseCDF they are equal.  Under
    InverseCDFAveragedSteps, with the double np = k * (n / N), they are
    equal when round(np) = floor(np + 1.); otherwise the second rank is
    the first rank, from the first rank of the pair on, whose CDF cell
    is not below floor(np + 1.). *)
Theorem quantile_indices_second_rank (def : QuantileDefinitionType) (N : Z)
    (cdf : cdf_array) (nRowHist n : Z) (pairs : list (Z * Z)) :
  quantile_indices def N cdf nRowHist n = Ok pairs ->
  forall k, 0 < k < N ->
    let np := (double_of_int k * (double_of_int n / double_of_int N))%float in
    exists r1 r2,
      nth_error pairs (Z.to_nat k) = Some (r1, r2)
      /\ r1 <= r2
      /\ match def with
         | InverseCDF => r2 = r1
         | InverseCDFAveragedSteps =>
             if round np =? floor (np + 1)%float then r2 = r1
             else first_rank_reaching cdf r1 (floor (np + 1)%float) r2
         end.
Proof.
  intros Hq k Hk np. unfold quantile_indices in Hq.
  apply bind_Ok in Hq. destruct Hq as (interior & Hint & Hq). injection Hq as <-.
  destruct (interior_quantiles_passes def cdf nRowHist _ _ (1, 1) interior Hint)
    as (Hlen & Hnth).
  rewrite interior_ks_length in Hlen.
  destruct (Hnth _ _ (interior_ks_nth N k Hk)) as (prev & [r1 r2] & _ & Hp & Hpass).
  exists r1, r2. split.
  { replace (Z.to_nat k) with (S (Z.to_nat (k - 1))) by lia.
    cbn [nth_error]. rewrite nth_error_app1 by lia. exact Hp. }
  apply interior_quantile_ranks in Hpass. cbv zeta in Hpass. fold np in Hpass.
  destruct def.
  - destruct Hpass as [_ ->]. split; [lia|reflexivity].
  - destruct Hpass as [_ H2]. split; [|exact H2].
    destruct (round np =? floor (np + 1)%float); [lia|].
    unfold first_rank_reaching in H2. tauto.
Qed.

(** The theorem of X17 on nine values counted once, with four
    intervals and averaged steps. *)
Lemma quantile_indices_second_rank_witness :
  let cdf := mk_cdf (running_sums 0 [1; 1; 1; 1; 1; 1; 1; 1; 1]) (fun _ => 0) in
  quantile_indices InverseCDFAveragedSteps 4 cdf 10 9
  = Ok [(1, 1); (2, 3); (5, 5); (7, 7); (9, 9)]
  /\ forall k, 0 < k < 4 ->
       let np := (double_of_int k * (double_of_int 9 / double_of_int 4))%float in
       exists r1 r2,
         nth_error [(1, 1); (2, 3); (5, 5); (7, 7); (9, 9)] (Z.to_nat k) = Some (r1, r2)
         /\ r1 <= r2
         /\ (if round np =? floor (np + 1)%float then r2 = r1
             else first_rank_reaching cdf r1 (floor (np + 1)%float) r2).
Proof.
  intros cdf. split; [vm_compute; reflexivity|].
  apply (quantile_indices_second_rank InverseCDFAveragedSteps 4 cdf 10 9).
  vm_compute. reflexivity.
Defined.

(** ** The order of the derived breakpoints *)

Lemma double_sorted_cons (x y : double) (l : list double) :
  double_le x y -> StronglySorted double_le (y :: l) ->
  StronglySorted double_le (x :: y :: l).
Proof.
  intros Hxy Hs. constructor; [exact Hs|].
  apply StronglySorted_inv in Hs. destruct Hs as [_ Hall].
  constructor; [exact Hxy|].
  eapply Forall_impl; [|exact Hall]. intros z Hz. eapply leb_trans; eassumption.
Qed.

(** Rows [1 ..] of a column in ascending order, read at two ranks in
    order. *)
Lemma get_double_ascending (v0 : double) (vals : list double) (i j : Z) (a b : double) :
  no_nan vals -> StronglySorted double_le vals ->
  1 <= i <= j ->
  get (v0 :: vals) i = Ok a -> get (v0 :: vals) j = Ok b -> double_le a b.
Proof.
  intros Hnan Hs Hij Ha Hb.
  apply get_nth_error in Ha. apply get_nth_error in Hb.
  destruct Ha as (_ & Ha), Hb as (_ & Hb).
  replace (Z.to_nat i) with (S (Z.to_nat (i - 1))) in Ha by lia.
  replace (Z.to_nat j) with (S (Z.to_nat (j - 1))) in Hb by lia.
  cbn [nth_error] in Ha, Hb.
  destruct (Z.eq_dec i j) as [->|Hne].
  - rewrite Ha in Hb. injection Hb as ->. apply leb_refl.
    unfold no_nan in Hnan. rewrite Forall_forall in Hnan. apply Hnan.
    eapply nth_error_In. exact Ha.
  - eapply (StronglySorted_nth_error double_le); [exact Hs| |exact Ha|exact Hb]. lia.
Qed.

Lemma get_double_In (v0 : double) (vals : list double) (i : Z) (a : double) :
  1 <= i -> get (v0 :: vals) i = Ok a -> In a vals.
Proof.
  intros Hi Ha. apply get_nth_error in Ha. destruct Ha as (_ & Ha).
  replace (Z.to_nat i) with (S (Z.to_nat (i - 1))) in Ha by lia.
  cbn [nth_error] in Ha. eapply nth_error_In. exact Ha.
Qed.

Lemma get_bound {A : Type} (a : list A) (i : Z) (x : A) :
  get a i = Ok x -> 0 <= i < Z.of_nat (length a).
Proof.
  intros Hx. apply get_nth_error in Hx. destruct Hx as (Hi & Hx).
  assert (Hlt : (Z.to_nat i < length a)%nat) by (apply nth_error_Some; congruence).
  lia.
Qed.

(** The values read along pairs of ranks that never go back are in
    order. *)
Lemma ranks_values_sorted (v0 : double) (vals : list double) :
  no_nan vals -> StronglySorted double_le vals ->
  forall (pairs : list (Z * Z)) (steps : list (double * double)) (lo : Z) (x : double),
    1 <= lo -> get (v0 :: vals) lo = Ok x ->
    ranks_ascend lo pairs ->
    Forall2 (reads (v0 :: vals)) pairs steps ->
    StronglySorted double_le (x :: flatten steps)
    /\ Forall (fun ab => In (fst ab) vals /\ In (snd ab) vals) steps.
Proof.
  intros Hnan Hs. induction pairs as [|p pairs IH]; intros steps lo x Hlo Hx Hasc Hreads.
  - inversion Hreads; subst. split; [|constructor].
    constructor; constructor.
  - inversion Hreads as [|p' ab pairs' steps' [Ha Hb] Hrest]; subst.
    destruct Hasc as (H1 & H2 & Hasc).
    destruct (IH steps' (snd p) (snd ab) ltac:(lia) Hb Hasc Hrest) as [Hsorted Hin].
    split.
    + cbn [flatten flat_map app].
      apply double_sorted_cons.
      { eapply (get_double_ascending v0 vals lo (fst p)); eauto. }
      apply double_sorted_cons.
      { eapply (get_double_ascending v0 vals (fst p) (snd p)); eauto. lia. }
      exact Hsorted.
    + constructor; [|exact Hin].
      split; [apply (get_double_In v0 vals (fst p)); [lia|exact Ha]
             |apply (get_double_In v0 vals (snd p)); [lia|exact Hb]].
Qed.

(** What the loop over the pairs of ranks reads, and what it writes. *)
Lemma interpolate_reads (def : QuantileDefinitionType) (dvals : list double) :
  forall (pairs : list (Z * Z)) (Qps : list double),
    (def = InverseCDF -> Forall (fun p => snd p = fst p) pairs) ->
    map_result (interpolate def dvals) pairs = Ok Qps ->
    exists steps,
      Forall2 (reads dvals) pairs steps
      /\ Qps = map (fun ab => match def with
                              | InverseCDF => fst ab
                              | InverseCDFAveragedSteps => midpoint ab
                              end) steps.
Proof.
  induction pairs as [|p pairs IH]; intros Qps Hsame Hmap; cbn [map_result] in Hmap.
  - injection Hmap as <-. exists []. split; [constructor|reflexivity].
  - apply bind_Ok in Hmap. destruct Hmap as (q & Hq & Hmap).
    apply bind_Ok in Hmap. destruct Hmap as (rest & Hrest & Hmap). injection Hmap as <-.
    assert (Hsame' : def = InverseCDF -> Forall (fun p => snd p = fst p) pairs).
    { intros Hdef. specialize (Hsame Hdef). apply Forall_cons_iff in Hsame. tauto. }
    destruct (IH rest Hsame' Hrest) as (steps & Hreads & ->).
    destruct def; cbn [interpolate] in Hq.
    + exists ((q, q) :: steps). split; [|reflexivity].
      constructor; [|exact Hreads].
      specialize (Hsame eq_refl). apply Forall_cons_iff in Hsame. destruct Hsame as [Hp _].
      unfold reads. cbn [fst snd]. rewrite Hp. split; exact Hq.
    + apply bind_Ok in Hq. destruct Hq as (a & Ha & Hq).
      apply bind_Ok in Hq. destruct Hq as (b & Hb & Hq). injection Hq as <-.
      exists ((a, b) :: steps). split; [|reflexivity].
      constructor; [|exact Hreads]. split; assumption.
Qed.

(** The pairs of ranks of one histogram never go back. *)
Lemma interior_quantile_ascends (def : QuantileDefinitionType) (cdf : cdf_array)
    (nRowHist : Z) (dh : double) (rank k : Z) (p : Z * Z) :
  interior_quantile def cdf nRowHist dh rank k = Ok p ->
  rank <= fst p /\ fst p <= snd p /\ (def = InverseCDF -> snd p = fst p).
Proof.
  destruct p as [r1 r2]. intros Hp. apply interior_quantile_ranks in Hp. cbv zeta in Hp.
  cbn [fst snd]. unfold first_rank_reaching in Hp.
  destruct def.
  - destruct Hp as ((H1 & _) & ->). split; [exact H1|]. split; [lia|]. reflexivity.
  - destruct Hp as ((H1 & _) & H2). split; [exact H1|]. split; [|discriminate].
    destruct (round _ =? floor _); [lia|]. apply H2.
Qed.

Lemma interior_quantiles_ascend (def : QuantileDefinitionType) (cdf : cdf_array)
    (nRowHist : Z) (dh : double) :
  forall (ks : list Z) (rank : Z) (pairs : list (Z * Z)),
    interior_quantiles def cdf nRowHist dh rank ks = Ok pairs ->
    ranks_ascend rank pairs
    /\ (def = InverseCDF -> Forall (fun p => snd p = fst p) pairs).
Proof.
  induction ks as [|k ks IH]; intros rank pairs Hq; cbn [interior_quantiles] in Hq.
  - injection Hq as <-. split; [exact I|]. intros _. constructor.
  - apply bind_Ok in Hq. destruct Hq as (p & Hp & Hq).
    apply bind_Ok in Hq. destruct Hq as (rest & Hrest & Hq). injection Hq as <-.
    apply interior_quantile_ascends in Hp. destruct Hp as (H1 & H2 & H3).
    destruct (IH _ _ Hrest) as [Hasc Hsame].
    split; [cbn [ranks_ascend]; tauto|].
    intros Hdef. constructor; [apply H3; exact Hdef|apply Hsame; exact Hdef].
Qed.

Lemma ranks_ascend_last (hi : Z) :
  forall (pairs : list (Z * Z)) (lo : Z),
    lo <= hi -> Forall (fun p => snd p <= hi) pairs ->
    ranks_ascend lo pairs -> ranks_ascend lo (pairs ++ [(hi, hi)]).
Proof.
  induction pairs as [|p pairs IH]; intros lo Hlo Hall Hasc.
  - cbn. lia.
  - apply Forall_cons_iff in Hall. destruct Hall as [Hp Hall].
    destruct Hasc as (H1 & H2 & Hasc). cbn [app ranks_ascend].
    split; [exact H1|]. split; [exact H2|]. apply IH; assumption.
Qed.

Lemma reads_bound (dvals : list double) (pairs : list (Z * Z))
    (steps : list (double * double)) :
  Forall2 (reads dvals) pairs steps ->
  Forall (fun p => snd p <= Z.of_nat (length dvals) - 1) pairs.
Proof.
  induction 1 as [|p ab pairs steps [_ Hb] _ IH]; constructor; [|exact IH].
  apply get_bound in Hb. lia.
Qed.

(** The values read by the loop over the pairs of ranks, for a column
    of doubles in ascending order from row 1 on. *)
Lemma quantile_indices_values (def : QuantileDefinitionType) (N : Z) (cdf : cdf_array)
    (n : Z) (v0 : double) (vals : list double) (pairs : list (Z * Z))
    (steps : list (double * double)) :
  no_nan vals -> StronglySorted double_le vals ->
  quantile_indices def N cdf (Z.of_nat (length (v0 :: vals))) n = Ok pairs ->
  Forall2 (reads (v0 :: vals)) pairs steps ->
  StronglySorted double_le (flatten steps)
  /\ Forall (fun ab => In (fst ab) vals /\ In (snd ab) vals) steps.
Proof.
  intros Hnan Hs Hq Hreads. unfold quantile_indices in Hq.
  apply bind_Ok in Hq. destruct Hq as (interior & Hint & Hq). injection Hq as <-.
  apply interior_quantiles_ascend in Hint. destruct Hint as [Hasc _].
  pose proof (reads_bound _ _ _ Hreads) as Hbound.
  apply Forall_cons_iff in Hbound. destruct Hbound as [_ Hbound].
  apply Forall_app in Hbound. destruct Hbound as [Hbound _].
  assert (Hfirst : exists x, get (v0 :: vals) 1 = Ok x).
  { inversion Hreads as [|p ab ps ss [Ha _] _]; subst. cbn [fst] in Ha. eauto. }
  destruct Hfirst as (x & Hx).
  pose proof (get_bound _ _ _ Hx) as Hlen.
  set (L := Z.of_nat (length (v0 :: vals)) - 1) in *.
  assert (Hall : ranks_ascend 1 ((1, 1) :: interior ++ [(L, L)])).
  { cbn [ranks_ascend fst snd]. split; [lia|]. split; [lia|].
    apply ranks_ascend_last; [lia|exact Hbound|exact Hasc]. }
  destruct (ranks_values_sorted v0 vals Hnan Hs _ _ 1 x ltac:(lia) Hx Hall Hreads)
    as [Hsorted Hin].
  split; [|exact Hin].
  apply StronglySorted_inv in Hsorted. tauto.
Qed.

Lemma flatten_first_sorted (steps : list (double * double)) :
  StronglySorted double_le (flatten steps) -> StronglySorted double_le (map fst steps).
Proof.
  induction steps as [|[a b] steps IH]; intros Hs; [constructor|].
  cbn [map flatten flat_map app fst snd] in Hs.
  apply StronglySorted_inv in Hs. destruct Hs as [Hs Hall].
  apply StronglySorted_inv in Hs. destruct Hs as [Hs _].
  cbn [map fst]. constructor; [apply IH; exact Hs|].
  apply Forall_cons_iff in Hall. destruct Hall as [_ Hall].
  rewrite Forall_forall in *. intros x Hx. apply Hall.
  apply in_map_iff in Hx. destruct Hx as ([a' b'] & <- & Hin).
  unfold flatten. apply in_flat_map. exists (a', b'). split; [exact Hin|left; reflexivity].
Qed.

Lemma derive_histogram_Ok (def : QuantileDefinitionType) (N : Z) (heap : Z -> Z)
    (histogramTab tab' : vtkTable) (quantCol : option vtkAbstractArray) :
  derive_histogram def N heap histogramTab = (tab', Ok quantCol) ->
  exists vals c0 card' pairs,
    GetColumnByName histogramTab "Value" = Some vals
    /\ GetColumnByName histogramTab "Cardinality" = Some (vtkIdTypeArray (c0 :: card'))
    /\ quantile_indices def N
         (mk_cdf (running_sums 0
                    (entry_counts (GetNumberOfRows histogramTab) (c0 :: card'))) heap)
         (GetNumberOfRows histogramTab)
         (total_count (entry_counts (GetNumberOfRows histogramTab) (c0 :: card')))
       = Ok pairs
    /\ Z.of_nat (length pairs) <= N + 1
    /\ quantile_values def vals pairs = Ok quantCol.
Proof.
  unfold derive_histogram. intros Hd.
  destruct (GetColumnByName histogramTab "Value") as [vals|]; [|discriminate].
  destruct (GetColumnByName histogramTab "Cardinality") as [[| [|c0 card'] | | |]|];
    try discriminate.
  assert (Hbody :
    (let nRowHist := GetNumberOfRows histogramTab in
     let counts := entry_counts nRowHist (c0 :: card') in
     quantileIndices <- quantile_indices def N (mk_cdf (running_sums 0 counts) heap)
                          nRowHist (total_count counts) ;;
     if Z.of_nat (length quantileIndices) <=? N + 1
     then quantile_values def vals quantileIndices
     else OutOfBounds) = Ok quantCol).
  { destruct (GetColumnByName histogramTab "P") as [[| | | |]|];
      try discriminate; injection Hd as _ Hd; exact Hd. }
  cbv zeta in Hbody. apply bind_Ok in Hbody. destruct Hbody as (pairs & Hpairs & Hbody).
  destruct (Z.leb_spec (Z.of_nat (length pairs)) (N + 1)) as [Hlen|Hlen]; [|discriminate].
  exists vals, c0, card', pairs. repeat split; assumption.
Qed.

Lemma quantile_indices_length (def : QuantileDefinitionType) (N : Z) (cdf : cdf_array)
    (nRowHist n : Z) (pairs : list (Z * Z)) :
  quantile_indices def N cdf nRowHist n = Ok pairs ->
  length pairs = S (S (Z.to_nat (N - 1))).
Proof.
  unfold quantile_indices. intros Hq.
  apply bind_Ok in Hq. destruct Hq as (interior & Hint & Hq). injection Hq as <-.
  destruct (interior_quantiles_passes def cdf nRowHist _ _ (1, 1) interior Hint)
    as (Hlen & _).
  rewrite interior_ks_length in Hlen. cbn [length]. rewrite length_app, Hlen.
  cbn [length]. lia.
Qed.

Lemma quantile_indices_same (N : Z) (cdf : cdf_array) (nRowHist n : Z)
    (pairs : list (Z * Z)) :
  quantile_indices InverseCDF N cdf nRowHist n = Ok pairs ->
  Forall (fun p => snd p = fst p) pairs.
Proof.
  unfold quantile_indices. intros Hq.
  apply bind_Ok in Hq. destruct Hq as (interior & Hint & Hq). injection Hq as <-.
  apply interior_quantiles_ascend in Hint. destruct Hint as [_ Hsame].
  constructor; [reflexivity|]. apply Forall_app. split; [apply Hsame; reflexivity|].
  constructor; [reflexivity|constructor].
Qed.

(** The first and the last pair of ranks read the first and the last
    row of values. *)
Lemma quantile_indices_ends (def : QuantileDefinitionType) (N : Z) (cdf : cdf_array)
    (n : Z) (v0 : double) (vals : list double) (pairs : list (Z * Z))
    (steps : list (double * double)) :
  quantile_indices def N cdf (Z.of_nat (length (v0 :: vals))) n = Ok pairs ->
  Forall2 (reads (v0 :: vals)) pairs steps ->
  exists first last_value mid,
    steps = ((first, first) :: mid ++ [(last_value, last_value)])%list
    /\ hd_error vals = Some first
    /\ last vals first = last_value.
Proof.
  intros Hq Hreads.
  remember (Z.of_nat (length (v0 :: vals))) as nRowHist eqn:HnRow.
  unfold quantile_indices in Hq.
  apply bind_Ok in Hq. destruct Hq as (interior & _ & Hq). injection Hq as <-.
  inversion Hreads as [|p [a b] ps ss [Ha Hb] Hrest]; subst p ps steps.
  apply Forall2_app_inv_l in Hrest. destruct Hrest as (mid & tail & _ & Htail & ->).
  inversion Htail as [|p' [c d] ps' ss' [Hc Hd] Hnil]; subst p' ps' tail.
  inversion Hnil; subst ss'.
  cbn [fst snd] in Ha, Hb, Hc, Hd.
  rewrite Ha in Hb. injection Hb as <-. rewrite Hc in Hd. injection Hd as <-.
  exists a, c, mid. split; [reflexivity|].
  apply get_nth_error in Ha. destruct Ha as (_ & Ha).
  apply get_nth_error in Hc. destruct Hc as (_ & Hc).
  change (Z.to_nat 1) with 1%nat in Ha. cbn [nth_error] in Ha.
  destruct vals as [|v1 vals']; [discriminate Ha|].
  cbn [nth_error] in Ha. injection Ha as <-. split; [reflexivity|].
  replace (Z.to_nat (nRowHist - 1)) with (S (length vals')) in Hc
    by (subst nRowHist; cbn [length]; lia).
  cbn [nth_error] in Hc.
  pose proof (nth_error_last v1 vals') as Hl. rewrite Hc in Hl. injection Hl as ->.
  destruct vals' as [|v2 vals'']; [reflexivity|].
  change (last (v1 :: v2 :: vals'') v1) with (last (v2 :: vals'') v1). reflexivity.
Qed.

(** The breakpoints of a histogram table whose "Value" column holds
    doubles without NaN, in ascending order from row 1 on. *)
Lemma derive_histogram_steps (def : QuantileDefinitionType) (N : Z) (heap : Z -> Z)
    (histogramTab : vtkTable) (v0 : double) (vals : list double)
    (quantCol : option vtkAbstractArray) :
  GetColumnByName histogramTab "Value" = Some (vtkDoubleArray (v0 :: vals)) ->
  GetNumberOfRows histogramTab = Z.of_nat (length (v0 :: vals)) ->
  no_nan vals ->
  StronglySorted double_le vals ->
  snd (derive_histogram def N heap histogramTab) = Ok quantCol ->
  exists Qps steps first last_value mid,
    quantCol = Some (vtkDoubleArray Qps)
    /\ Z.of_nat (length Qps) = N + 1
    /\ Qps = map (fun ab => match def with
                            | InverseCDF => fst ab
                            | InverseCDFAveragedSteps => midpoint ab
                            end) steps
    /\ StronglySorted double_le (flatten steps)
    /\ Forall (fun ab => In (fst ab) vals /\ In (snd ab) vals) steps
    /\ steps = ((first, first) :: mid ++ [(last_value, last_value)])%list
    /\ hd_error vals = Some first
    /\ last vals first = last_value.
Proof.
  intros Hvals Hrows Hnan Hs Hd.
  destruct (derive_histogram def N heap histogramTab) as [tab' r] eqn:Hderive.
  cbn [snd] in Hd. subst r. rename Hderive into Hd.
  apply derive_histogram_Ok in Hd.
  destruct Hd as (vals' & c0 & card' & pairs & Hvals' & _ & Hq & Hlen & Hqv).
  rewrite Hvals in Hvals'. injection Hvals' as <-.
  rewrite Hrows in Hq.
  pose proof (quantile_indices_length _ _ _ _ _ _ Hq) as Hplen.
  cbn [quantile_values] in Hqv.
  apply bind_Ok in Hqv. destruct Hqv as (Qps & HQps & Hqv). injection Hqv as <-.
  destruct (interpolate_reads def _ _ _
              (fun Hdef => quantile_indices_same N _ _ _ _
                             (eq_ind def (fun d => quantile_indices d N _ _ _ = Ok pairs)
                                     Hq InverseCDF Hdef))
              HQps) as (steps & Hreads & HQ).
  destruct (quantile_indices_values _ _ _ _ _ _ _ _ Hnan Hs Hq Hreads) as [Hsorted Hin].
  destruct (quantile_indices_ends _ _ _ _ _ _ _ _ Hq Hreads)
    as (first & last_value & mid & Hshape & Hfirst & Hlast).
  exists Qps, steps, first, last_value, mid.
  split; [reflexivity|]. split.
  { apply Forall2_length in Hreads. rewrite HQ, length_map. lia. }
  repeat split; assumption.
Qed.

(** CLAIM C9: a histogram table whose "Value" column holds doubles (as
    every histogram [Learn] builds for a numeric column) without NaN
    and in ascending order from row 1 on, and for which the pass of
    Derive reaches its end.  The pass yields N + 1 breakpoints.  Under
    InverseCDF they are values of the histogram in non-decreasing
    order.  Under InverseCDFAveragedSteps breakpoint i is the double
    .5 * (a_i + b_i) of two values of the histogram, and the values
    a_0, b_0, a_1, b_1, ... are in non-decreasing order; the
    breakpoints are then in non-decreasing order as soon as none of
    them is a NaN, and none is unless the histogram holds both
    -infinity and +infinity. *)
Theorem derived_breakpoints_order (def : QuantileDefinitionType) (N : Z) (heap : Z -> Z)
    (histogramTab : vtkTable) (v0 : double) (vals : list double) (card : list Z)
    (quantCol : option vtkAbstractArray) :
  GetColumnByName histogramTab "Value" = Some (vtkDoubleArray (v0 :: vals)) ->
  GetColumnByName histogramTab "Cardinality" = Some (vtkIdTypeArray card) ->
  GetNumberOfRows histogramTab = Z.of_nat (length (v0 :: vals)) ->
  length card = length (v0 :: vals) ->
  no_nan vals ->
  StronglySorted double_le vals ->
  snd (derive_histogram def N heap histogramTab) = Ok quantCol ->
  exists Qps,
    quantCol = Some (vtkDoubleArray Qps)
    /\ Z.of_nat (length Qps) = N + 1
    /\ match def with
       | InverseCDF =>
           StronglySorted double_le Qps /\ Forall (fun q => In q vals) Qps
       | InverseCDFAveragedSteps =>
           (no_nan Qps -> StronglySorted double_le Qps)
           /\ (~ (In neg_infinity vals /\ In infinity vals) -> no_nan Qps)
           /\ exists steps,
                Qps = map midpoint steps
                /\ StronglySorted double_le (flatten steps)
                /\ Forall (fun ab => In (fst ab) vals /\ In (snd ab) vals) steps
       end.
Proof.
  intros Hvals _ Hrows _ Hnan Hs Hd.
  destruct (derive_histogram_steps def N heap histogramTab v0 vals quantCol
              Hvals Hrows Hnan Hs Hd)
    as (Qps & steps & _ & _ & _ & HQ & Hlen & Hmap & Hsorted & Hin & _).
  exists Qps. split; [exact HQ|]. split; [exact Hlen|].
  destruct def.
  - rewrite Hmap. split; [apply flatten_first_sorted; exact Hsorted|].
    rewrite Forall_forall in *. intros q Hq.
    apply in_map_iff in Hq. destruct Hq as (ab & <- & Hab). apply (Hin ab Hab).
  - split; [|split].
    + rewrite Hmap. apply midpoints_sorted. exact Hsorted.
    + intros Hinf. rewrite Hmap. apply midpoints_no_nan; [exact Hsorted|].
      intros [Hneg Hpos]. apply Hinf. rewrite Forall_forall in Hin.
      unfold flatten in Hneg, Hpos. rewrite in_flat_map in Hneg, Hpos.
      destruct Hneg as (ab & Hab & Hq). destruct Hpos as (cd & Hcd & Hr).
      destruct (Hin ab Hab) as [Ha Hb]. destruct (Hin cd Hcd) as [Hc Hd'].
      split.
      * destruct Hq as [<-|[<-|[]]]; assumption.
      * destruct Hr as [<-|[<-|[]]]; assumption.
    + exists steps. repeat split; assumption.
Qed.

(** The theorem of C9 on the histogram of 1, 2, 2, 3, 4, 5, 5, 5, 6, 7
    with four intervals and averaged steps. *)
Lemma derived_breakpoints_order_witness :
  let histogramTab : vtkTable :=
    [("Value", vtkDoubleArray [nan; 1; 2; 3; 4; 5; 6; 7]%float);
     ("Cardinality", vtkIdTypeArray [-1; 1; 2; 1; 1; 3; 1; 1])] in
  snd (derive_histogram InverseCDFAveragedSteps 4 (fun _ => 0) histogramTab)
  = Ok (Some (vtkDoubleArray [1; 2; 4.5; 5; 7]%float))
  /\ exists Qps,
       Some (vtkDoubleArray [1; 2; 4.5; 5; 7]%float) = Some (vtkDoubleArray Qps)
       /\ Z.of_nat (length Qps) = 4 + 1
       /\ (no_nan Qps -> StronglySorted double_le Qps)
       /\ (~ (In neg_infinity [1; 2; 3; 4; 5; 6; 7]%float
              /\ In infinity [1; 2; 3; 4; 5; 6; 7]%float) -> no_nan Qps)
       /\ exists steps,
            Qps = map midpoint steps
            /\ StronglySorted double_le (flatten steps)
            /\ Forall (fun ab => In (fst ab) [1; 2; 3; 4; 5; 6; 7]%float
                                 /\ In (snd ab) [1; 2; 3; 4; 5; 6; 7]%float) steps.
Proof.
  cbv zeta. split; [vm_compute; reflexivity|].
  apply (derived_breakpoints_order InverseCDFAveragedSteps 4 (fun _ => 0)
           [("Value", vtkDoubleArray [nan; 1; 2; 3; 4; 5; 6; 7]%float);
            ("Cardinality", vtkIdTypeArray [-1; 1; 2; 1; 1; 3; 1; 1])]
           nan [1; 2; 3; 4; 5; 6; 7]%float [-1; 1; 2; 1; 1; 3; 1; 1]).
  - reflexivity.
  - reflexivity.
  - reflexivity.
  - reflexivity.
  - repeat constructor.
  - repeat (constructor; [|repeat (constructor; try reflexivity)]). constructor.
  - vm_compute. reflexivity.
Defined.

(** Against C9 as claimed: the column holding +infinity and -infinity.
    [Learn] builds the histogram below, its values are in ascending
    order, and with two intervals and averaged steps the middle
    breakpoint is .5 * (-infinity + infinity), a NaN, which no
    comparison places after -infinity or before +infinity. *)
Lemma derived_breakpoints_order_counterexample :
  let histogramTab : vtkTable :=
    [("Value", vtkDoubleArray [nan; neg_infinity; infinity]);
     ("Cardinality", vtkIdTypeArray [-1; 1; 1])] in
  learn_histogram (fun _ _ => false) (vtkDoubleArray [infinity; neg_infinity])
  = Some histogramTab
  /\ no_nan [neg_infinity; infinity]
  /\ StronglySorted double_le [neg_infinity; infinity]
  /\ snd (derive_histogram InverseCDFAveragedSteps 2 (fun _ => 0) histogramTab)
     = Ok (Some (vtkDoubleArray [neg_infinity; nan; infinity]))
  /\ ~ StronglySorted double_le [neg_infinity; nan; infinity].
Proof.
  cbv zeta. split; [vm_compute; reflexivity|].
  split; [repeat constructor|].
  split; [repeat (constructor; [|repeat (constructor; try reflexivity)]); constructor|].
  split; [vm_compute; reflexivity|].
  intros Hs. apply StronglySorted_inv in Hs. destruct Hs as [_ Hall].
  apply Forall_cons_iff in Hall. destruct Hall as [Hle _].
  vm_compute in Hle. discriminate Hle.
Qed.

(** ** Derive: what is written into the histogram table *)

Lemma GetColumnByName_SetColumn_same_double (t : vtkTable) (name : string)
    (a : vtkAbstractArray) :
  GetColumnByName (SetColumn t name a) name = Some a.
Proof.
  induction t as [|[c old] t IH]; cbn [SetColumn GetColumnByName].
  - rewrite String.eqb_refl. reflexivity.
  - destruct (String.eqb c name) eqn:Hc; cbn [GetColumnByName]; rewrite Hc; [reflexivity|exact IH].
Qed.

Lemma GetColumnByName_SetColumn_other_double (t : vtkTable) (name other : string)
    (a : vtkAbstractArray) :
  other <> name ->
  GetColumnByName (SetColumn t name a) other = GetColumnByName t other.
Proof.
  intros Hne. induction t as [|[c old] t IH]; cbn [SetColumn GetColumnByName].
  - replace (String.eqb name other) with false; [reflexivity|].
    symmetry. apply String.eqb_neq. congruence.
  - destruct (String.eqb c name) eqn:Hc; cbn [GetColumnByName].
    + apply String.eqb_eq in Hc. subst c.
      replace (String.eqb name other) with false; [reflexivity|].
      symmetry. apply String.eqb_neq. congruence.
    + destruct (String.eqb c other); [reflexivity|exact IH].
Qed.

Lemma GetNumberOfRows_SetColumn_double (t : vtkTable) (name : string)
    (a : vtkAbstractArray) :
  t <> [] ->
  (forall old, GetColumnByName t name = Some old ->
               GetNumberOfTuples a = GetNumberOfTuples old) ->
  GetNumberOfRows (SetColumn t name a) = GetNumberOfRows t.
Proof.
  intros Hne Hlen. destruct t as [|[c old] t]; [congruence|].
  cbn [SetColumn]. cbn [GetColumnByName] in Hlen.
  destruct (String.eqb c name); cbn [GetNumberOfRows]; [|reflexivity].
  apply Hlen. reflexivity.
Qed.

(** The table a pass of [Derive] leaves behind, for a table with its
    two columns, as many rows as cardinalities, and a column "P" that
    can be written. *)
Lemma derive_histogram_table_double (def : QuantileDefinitionType) (N : Z) (heap : Z -> Z)
    (histogramTab : vtkTable) (vals : vtkAbstractArray) (c0 : Z) (card' : list Z) :
  GetColumnByName histogramTab "Value" = Some vals ->
  GetColumnByName histogramTab "Cardinality" = Some (vtkIdTypeArray (c0 :: card')) ->
  GetNumberOfRows histogramTab = Z.of_nat (length (c0 :: card')) ->
  probabilities_writable histogramTab ->
  let n := total_count card' in
  let P := ((- (1)) :: map (fun c => (1 / double_of_int n) * double_of_int c) card')%float in
  fst (derive_histogram def N heap histogramTab)
  = SetColumn (SetColumn histogramTab "Cardinality" (vtkIdTypeArray (n :: card')))
              "P" (vtkDoubleArray P).
Proof.
  intros Hvals Hcard Hrows Hp. cbv zeta.
  unfold derive_histogram. rewrite Hvals, Hcard, Hrows.
  assert (Hentries : entry_counts (Z.of_nat (length (c0 :: card'))) (c0 :: card') = card').
  { unfold entry_counts. rewrite Nat2Z.id, firstn_all. reflexivity. }
  rewrite Hentries. unfold probabilities_writable in Hp.
  destruct (GetColumnByName histogramTab "P") as [[| | | |]|]; try contradiction;
    reflexivity.
Qed.

(** X4 ([Derive], one histogram table): for a table with at least one
    row that has no column "P" yet, or a [vtkDoubleArray] "P" of its
    size, the values are left as they are; the cardinality of row 0 is
    overwritten with the sum [n] of the counts of the rows after it,
    whatever it held before; the column "P" holds -1 in row 0 and in
    every other row the double [inv_n * c], with [inv_n = 1. / n] and
    [c] the count of the row; the table keeps its number of rows. *)
Theorem derive_writes_probabilities (def : QuantileDefinitionType) (N : Z)
    (heap : Z -> Z) (histogramTab : vtkTable) (vals : vtkAbstractArray)
    (c0 : Z) (card' : list Z) :
  GetColumnByName histogramTab "Value" = Some vals ->
  GetColumnByName histogramTab "Cardinality" = Some (vtkIdTypeArray (c0 :: card')) ->
  GetNumberOfRows histogramTab = Z.of_nat (length (c0 :: card')) ->
  probabilities_writable histogramTab ->
  let n := total_count card' in
  let inv_n := (1 / double_of_int n)%float in
  let after := fst (derive_histogram def N heap histogramTab) in
  GetColumnByName after "Value" = Some vals
  /\ GetColumnByName after "Cardinality" = Some (vtkIdTypeArray (n :: card'))
  /\ GetColumnByName after "P"
     = Some (vtkDoubleArray ((- (1)) :: map (fun c => inv_n * double_of_int c) card')%float)
  /\ GetNumberOfRows after = GetNumberOfRows histogramTab.
Proof.
  intros Hvals Hcard Hrows Hp n inv_n after. subst after.
  rewrite (derive_histogram_table_double def N heap histogramTab vals c0 card'
             Hvals Hcard Hrows Hp).
  fold n. split; [|split; [|split]].
  - rewrite !GetColumnByName_SetColumn_other_double by discriminate. exact Hvals.
  - rewrite GetColumnByName_SetColumn_other_double by discriminate.
    apply GetColumnByName_SetColumn_same_double.
  - apply GetColumnByName_SetColumn_same_double.
  - assert (Hne : histogramTab <> []) by (intros ->; discriminate Hvals).
    rewrite GetNumberOfRows_SetColumn_double.
    + apply GetNumberOfRows_SetColumn_double; [exact Hne|].
      intros old Hold. rewrite Hcard in Hold. injection Hold as <-. reflexivity.
    + destruct histogramTab as [|[c a] t]; [congruence|].
      cbn [SetColumn]. destruct (String.eqb c "Cardinality"); discriminate.
    + intros old Hold.
      rewrite GetColumnByName_SetColumn_other_double in Hold by discriminate.
      unfold probabilities_writable in Hp. rewrite Hold in Hp.
      destruct old as [p| | | |]; try contradiction.
      cbn [GetNumberOfTuples length]. rewrite length_map. rewrite Hrows in Hp.
      cbn [length] in Hp. lia.
Qed.

(** The theorem of X4 on the histogram of 1, 2, 2, 3, 4, 5, 5, 5, 6, 7:
    the probability of the value 5 is the double 1. / 10 * 3, which is
    not the double 3. / 10. *)
Lemma derive_writes_probabilities_witness :
  let histogramTab : vtkTable :=
    [("Value", vtkDoubleArray [nan; 1; 2; 3; 4; 5; 6; 7]%float);
     ("Cardinality", vtkIdTypeArray [-1; 1; 2; 1; 1; 3; 1; 1])] in
  let card' := [1; 2; 1; 1; 3; 1; 1] in
  let inv_n := (1 / double_of_int 10)%float in
  let after := fst (derive_histogram InverseCDF 4 (fun _ => 0) histogramTab) in
  GetColumnByName after "Value" = Some (vtkDoubleArray [nan; 1; 2; 3; 4; 5; 6; 7]%float)
  /\ GetColumnByName after "Cardinality" = Some (vtkIdTypeArray (10 :: card'))
  /\ GetColumnByName after "P"
     = Some (vtkDoubleArray ((- (1)) :: map (fun c => inv_n * double_of_int c) card')%float)
  /\ GetNumberOfRows after = GetNumberOfRows histogramTab.
Proof.
  apply (derive_writes_probabilities InverseCDF 4 (fun _ => 0)
           [("Value", vtkDoubleArray [nan; 1; 2; 3; 4; 5; 6; 7]%float);
            ("Cardinality", vtkIdTypeArray [-1; 1; 2; 1; 1; 3; 1; 1])]
           (vtkDoubleArray [nan; 1; 2; 3; 4; 5; 6; 7]%float) (-1) [1; 2; 1; 1; 3; 1; 1]).
  - reflexivity.
  - reflexivity.
  - reflexivity.
  - exact I.
Defined.

(** The probabilities are rounded doubles, and without observations
    they are not numbers: [1. / 10 * 3] differs from [3. / 10], and
    with [n = 0] the probability of a row is [1. / 0 * 0], a NaN. *)
Lemma probabilities_rounded :
  ((1 / double_of_int 10) * double_of_int 3 <> double_of_int 3 / double_of_int 10)%float
  /\ is_nan ((1 / double_of_int 0) * double_of_int 0)%float = true.
Proof.
  split; [vm_compute; intros Heq; discriminate Heq|reflexivity].
Qed.

(** ** Learn: the histogram of a numeric column *)

Lemma key_ltb_lt (a b : Z * Z * Z) : key_ltb a b = true <-> key_lt a b.
Proof.
  unfold key_ltb, key_lt.
  rewrite !orb_true_iff, !andb_true_iff, !orb_true_iff, !andb_true_iff.
  rewrite !Z.ltb_lt, !Z.eqb_eq. tauto.
Qed.

(** On the doubles that are not NaN the order of the places is [<]. *)
Lemma order_less_ltb (a b : double) :
  is_nan a = false -> is_nan b = false -> order_less a b = (a <? b)%float.
Proof.
  intros Ha Hb. unfold order_less.
  destruct (a <? b)%float eqn:Hlt.
  - apply key_ltb_lt. apply ltb_key in Hlt. tauto.
  - apply not_true_is_false. intros Hk. apply key_ltb_lt in Hk.
    assert ((a <? b)%float = true) by (apply ltb_key; tauto). congruence.
Qed.

Lemma order_less_irrefl (a : double) : order_less a a = false.
Proof.
  apply not_true_is_false. intros Hk. apply key_ltb_lt in Hk.
  exact (key_lt_irrefl _ Hk).
Qed.

Lemma order_less_trans (a b c : double) :
  order_less a b = true -> order_less b c = true -> order_less a c = true.
Proof.
  unfold order_less. rewrite !key_ltb_lt. apply key_lt_trans.
Qed.

Lemma order_equivalent_key (a b : double) :
  @equivalent double order_less a b = true <-> key a = key b.
Proof.
  unfold equivalent, less, order_less. rewrite andb_true_iff, !negb_true_iff.
  split.
  - intros [H1 H2].
    destruct (key_trichotomy (key a) (key b)) as [Hk|[Hk|Hk]]; [|exact Hk|].
    + apply key_ltb_lt in Hk. congruence.
    + apply key_ltb_lt in Hk. congruence.
  - intros Hk. rewrite Hk. split; apply not_true_is_false; intros H;
      apply key_ltb_lt in H; exact (key_lt_irrefl _ H).
Qed.

Lemma order_less_equivalent (a b c : double) :
  @equivalent double order_less a b = true ->
  @equivalent double order_less c a = @equivalent double order_less c b.
Proof.
  intros Hab. apply order_equivalent_key in Hab.
  unfold equivalent, less, order_less. rewrite Hab. reflexivity.
Qed.

(** Two doubles that are not NaN compare equal when neither is below
    the other. *)
Lemma eqb_equivalent (a b : double) :
  is_nan a = false -> is_nan b = false ->
  (a =? b)%float = @equivalent double double_Less a b.
Proof.
  intros Ha Hb. unfold equivalent, less, double_Less.
  rewrite eqb_spec, !ltb_spec. unfold SFeqb, SFltb.
  pose proof (Prim2SF_not_nan a Ha) as Hna. pose proof (Prim2SF_not_nan b Hb) as Hnb.
  destruct (SFcompare_key (Prim2SF a) (Prim2SF b) Hna Hnb) as [[Hc Hk]|[[Hc Hk]|[Hc Hk]]];
    destruct (SFcompare_key (Prim2SF b) (Prim2SF a) Hnb Hna) as [[Hc' Hk']|[[Hc' Hk']|[Hc' Hk']]];
    rewrite Hc, Hc'; try reflexivity; exfalso;
    first [ exact (key_lt_irrefl _ (key_lt_trans _ _ _ Hk Hk'))
          | rewrite Hk' in Hk; exact (key_lt_irrefl _ Hk)
          | rewrite Hk in Hk'; exact (key_lt_irrefl _ Hk')
          | rewrite <- Hk' in Hk; exact (key_lt_irrefl _ Hk)
          | rewrite <- Hk in Hk'; exact (key_lt_irrefl _ Hk') ].
Qed.

Lemma equivalent_order (a b : double) :
  is_nan a = false -> is_nan b = false ->
  @equivalent double double_Less a b = @equivalent double order_less a b.
Proof.
  intros Ha Hb. unfold equivalent, less, double_Less.
  rewrite <- !order_less_ltb by assumption. reflexivity.
Qed.

(** The histogram of cells without NaN: the same under [<] and under
    the order of the places. *)
Lemma histogram_increment_order (histogram : list (double * Z)) (value : double) :
  no_nan (map fst histogram) -> is_nan value = false ->
  @histogram_increment double double_Less histogram value
  = @histogram_increment double order_less histogram value.
Proof.
  unfold no_nan. induction histogram as [|[k c] histogram IH]; intros Hh Hv; [reflexivity|].
  cbn [map fst] in Hh. apply Forall_cons_iff in Hh. destruct Hh as [Hk Hh].
  cbn [histogram_increment].
  change (@less double double_Less value k) with (value <? k)%float.
  change (@less double double_Less k value) with (k <? value)%float.
  change (@less double order_less value k) with (order_less value k).
  change (@less double order_less k value) with (order_less k value).
  rewrite !order_less_ltb by assumption.
  rewrite (IH Hh Hv). reflexivity.
Qed.

Lemma histogram_increment_no_nan (histogram : list (double * Z)) (value : double) :
  no_nan (map fst histogram) -> is_nan value = false ->
  no_nan (map fst (@histogram_increment double order_less histogram value)).
Proof.
  unfold no_nan. intros Hh Hv. rewrite Forall_forall in *. intros x Hx.
  apply (@histogram_increment_keys double order_less) in Hx.
  destruct Hx as [->|Hx]; [exact Hv|apply Hh; exact Hx].
Qed.

Lemma histogram_of_order (values : list double) :
  no_nan values ->
  @histogram_of double double_Less values = @histogram_of double order_less values.
Proof.
  unfold histogram_of. intros Hv.
  assert (Hgen : forall h, no_nan (map fst h) ->
            fold_left (@histogram_increment double double_Less) values h
            = fold_left (@histogram_increment double order_less) values h).
  { unfold no_nan in Hv. induction Hv as [|v values Hnv Hv IH]; intros h Hh; [reflexivity|].
    cbn [fold_left]. rewrite (histogram_increment_order h v Hh Hnv).
    apply IH. apply histogram_increment_no_nan; assumption. }
  apply Hgen. constructor.
Qed.

(** The histogram of a column that starts with a NaN: [<] tells no
    cell from the NaN, and all cells are counted in its row. *)
Lemma histogram_of_nan_first (values : list double) :
  @histogram_of double double_Less (nan :: values)
  = [(nan, 1 + Z.of_nat (length values))].
Proof.
  unfold histogram_of. cbn [fold_left histogram_increment]. change (0 + 1) with 1.
  assert (Hgen : forall c, fold_left (@histogram_increment double double_Less) values [(nan, c)]
                           = [(nan, c + Z.of_nat (length values))]).
  { induction values as [|v values IH]; intros c; cbn [fold_left length].
    - f_equal. f_equal. lia.
    - cbn [histogram_increment]. unfold less, double_Less.
      destruct (double_compare_nan v nan ltac:(right; reflexivity)) as [H1 _].
      destruct (double_compare_nan nan v ltac:(left; reflexivity)) as [H2 _].
      rewrite H1, H2. rewrite IH. f_equal. f_equal. lia. }
  rewrite Hgen. reflexivity.
Qed.

(** The histogram of cells without NaN. *)
Lemma double_histogram (dvals : list double) :
  no_nan dvals ->
  let histogram := @histogram_of double double_Less dvals in
  StronglySorted (fun a b => (a <? b)%float = true) (map fst histogram)
  /\ (forall k c, In (k, c) histogram ->
        In k dvals
        /\ 0 < c
        /\ c = Z.of_nat (length (filter (fun d => (k =? d)%float) dvals)))
  /\ (forall d, In d dvals ->
        exists k, In k (map fst histogram) /\ (d =? k)%float = true)
  /\ total_count (map snd histogram) = Z.of_nat (length dvals).
Proof.
  intros Hnan. cbv zeta.
  rewrite (histogram_of_order dvals Hnan).
  destruct (@histogram_of_counts double order_less dvals [] ltac:(constructor))
    as [Hpos Htotal].
  cbv zeta in Hpos, Htotal.
  fold (@histogram_of double order_less dvals) in Hpos, Htotal.
  assert (Hkeys : forall k, In k (map fst (@histogram_of double order_less dvals)) ->
                            In k dvals).
  { intros k Hk.
    destruct (@histogram_of_keys_values double order_less dvals k [] Hk) as [Hv|[]].
    exact Hv. }
  assert (Hnn : forall d, In d dvals -> is_nan d = false).
  { unfold no_nan in Hnan. rewrite Forall_forall in Hnan. exact Hnan. }
  split; [|split; [|split]].
  - pose proof (@histogram_of_ascending double order_less order_less_trans dvals []
                  ltac:(constructor)) as Hs.
    fold (@histogram_of double order_less dvals) in Hs.
    unfold entries_ascending in Hs.
    assert (Hgen : forall l, (forall k, In k l -> is_nan k = false) ->
              StronglySorted (fun a b => @less double order_less a b = true) l ->
              StronglySorted (fun a b => (a <? b)%float = true) l).
    { induction l as [|x l IH]; intros Hl Hsl; [constructor|].
      apply StronglySorted_inv in Hsl. destruct Hsl as [Hsl Hall].
      constructor; [apply IH; [intros k Hk; apply Hl; right; exact Hk|exact Hsl]|].
      rewrite Forall_forall in *. intros y Hy. specialize (Hall y Hy).
      unfold less in Hall. rewrite order_less_ltb in Hall; [exact Hall| |].
      - apply Hl. left. reflexivity.
      - apply Hl. right. exact Hy. }
    apply Hgen; [|exact Hs]. intros k Hk. apply Hnn. apply Hkeys. exact Hk.
  - intros k c Hin.
    assert (Hk : In k dvals).
    { apply Hkeys. apply in_map_iff. exists (k, c). split; [reflexivity|exact Hin]. }
    split; [exact Hk|]. split.
    + rewrite Forall_forall in Hpos. apply Hpos. apply in_map_iff.
      exists (k, c). split; [reflexivity|exact Hin].
    + rewrite (@histogram_of_entry double order_less order_less_irrefl order_less_trans
                 order_less_equivalent dvals k c Hin).
      do 2 f_equal. apply filter_ext_in. intros a Ha.
      pose proof (Hnn k Hk) as Hkn.
      rewrite <- (equivalent_order k a Hkn (Hnn a Ha)).
      rewrite <- (eqb_equivalent k a Hkn (Hnn a Ha)). reflexivity.
  - intros d Hd.
    destruct (@histogram_of_present double order_less order_less_irrefl dvals d Hd)
      as (k & Hk & Heq).
    exists k. split; [exact Hk|].
    pose proof (Hnn d Hd) as Hdn. pose proof (Hnn k (Hkeys k Hk)) as Hkn.
    rewrite (eqb_equivalent d k Hdn Hkn), (equivalent_order d k Hdn Hkn). exact Heq.
  - exact Htotal.
Qed.

Lemma learn_histogram_numeric (variant_less : Less vtkVariant) (vals : vtkAbstractArray)
    (dvals : list double) :
  tuples vals = Some dvals ->
  learn_histogram variant_less vals
  = Some [("Value", vtkDoubleArray (nan :: map fst (@histogram_of double double_Less dvals)));
          ("Cardinality",
           vtkIdTypeArray (-1 :: map snd (@histogram_of double double_Less dvals)))].
Proof.
  intros Htuples.
  destruct vals; try discriminate Htuples; cbn [learn_histogram];
    rewrite Htuples; reflexivity.
Qed.

Section LearnDouble.

Context (variant_less : Less vtkVariant).

(** X1 ([Learn], numeric column): for a column of numbers, read as
    doubles through [GetTuple1], that holds no NaN, the histogram table
    holds the NaN and the cardinality -1 in row 0 and, after it, one
    row per value in strictly ascending order of [<].  The value of a
    row is a cell of the column, its count is positive and is the
    number of cells that compare equal to it; every cell compares equal
    to the value of a row; the counts add up to the number of cells. *)
Theorem learn_double_histogram (vals : vtkAbstractArray) (dvals : list double) :
  tuples vals = Some dvals ->
  no_nan dvals ->
  exists histogram,
    learn_histogram variant_less vals
    = Some [("Value", vtkDoubleArray (nan :: map fst histogram));
            ("Cardinality", vtkIdTypeArray (-1 :: map snd histogram))]
    /\ StronglySorted (fun a b => (a <? b)%float = true) (map fst histogram)
    /\ (forall k c, In (k, c) histogram ->
          In k dvals
          /\ 0 < c
          /\ c = Z.of_nat (length (filter (fun d => (k =? d)%float) dvals)))
    /\ (forall d, In d dvals ->
          exists k, In k (map fst histogram) /\ (d =? k)%float = true)
    /\ total_count (map snd histogram) = Z.of_nat (length dvals).
Proof.
  intros Htuples Hnan. exists (@histogram_of double double_Less dvals).
  split; [apply learn_histogram_numeric; exact Htuples|].
  exact (double_histogram dvals Hnan).
Qed.

End LearnDouble.

(** The theorem of X1 on a column of integers with a repeated value. *)
Lemma learn_double_histogram_witness :
  let dvals := [3; 1; 3]%float in
  exists histogram,
    learn_histogram (fun _ _ => false) (vtkIdTypeArray [3; 1; 3])
    = Some [("Value", vtkDoubleArray (nan :: map fst histogram));
            ("Cardinality", vtkIdTypeArray (-1 :: map snd histogram))]
    /\ StronglySorted (fun a b => (a <? b)%float = true) (map fst histogram)
    /\ (forall k c, In (k, c) histogram ->
          In k dvals
          /\ 0 < c
          /\ c = Z.of_nat (length (filter (fun d => (k =? d)%float) dvals)))
    /\ (forall d, In d dvals ->
          exists k, In k (map fst histogram) /\ (d =? k)%float = true)
    /\ total_count (map snd histogram) = Z.of_nat (length dvals).
Proof.
  apply (learn_double_histogram (fun _ _ => false) (vtkIdTypeArray [3; 1; 3])
           [3; 1; 3]%float).
  - reflexivity.
  - repeat constructor.
Defined.

(** Integer cells are counted as the doubles [GetTuple1] returns:
    2^53 and 2^53 + 1 share one row. *)
Lemma learn_rounded_integers :
  learn_histogram (fun _ _ => false) (vtkIdTypeArray [2 ^ 53 + 1; 2 ^ 53])
  = Some [("Value", vtkDoubleArray [nan; 0x1p53%float]);
          ("Cardinality", vtkIdTypeArray [-1; 2])].
Proof. vm_compute. reflexivity. Qed.

(** ** Learn followed by Derive *)

Lemma double_sorted_weaken (l : list double) :
  StronglySorted (fun a b => (a <? b)%float = true) l -> StronglySorted double_le l.
Proof.
  apply StronglySorted_impl. intros a b. apply ltb_leb.
Qed.

Lemma double_sorted_first (l : list double) (first k : double) :
  no_nan l -> StronglySorted double_le l ->
  hd_error l = Some first -> In k l -> double_le first k.
Proof.
  intros Hnan Hs Hhd Hin. destruct l as [|x l]; [discriminate|].
  injection Hhd as ->. apply StronglySorted_inv in Hs. destruct Hs as [_ Hall].
  destruct Hin as [->|Hin].
  - apply leb_refl. unfold no_nan in Hnan. apply Forall_cons_iff in Hnan. tauto.
  - rewrite Forall_forall in Hall. apply Hall. exact Hin.
Qed.

Lemma double_sorted_last (l : list double) (d k : double) :
  no_nan l -> StronglySorted double_le l -> In k l -> double_le k (last l d).
Proof.
  intros Hnan Hs Hin. destruct l as [|x l]; [destruct Hin|].
  assert (Hl : nth_error (x :: l) (length l) = Some (last (x :: l) d)).
  { rewrite nth_error_last. f_equal. destruct l as [|y l]; [reflexivity|].
    transitivity (last (y :: l) d); [apply last_cons_any|reflexivity]. }
  apply In_nth_error in Hin. destruct Hin as (i & Hi).
  assert (Hlt : (i < length (x :: l))%nat) by (apply nth_error_Some; congruence).
  destruct (Nat.eq_dec i (length l)) as [->|Hne].
  - assert (Hk : k = last (x :: l) d) by congruence.
    rewrite <- Hk. apply leb_refl.
    unfold no_nan in Hnan. rewrite Forall_forall in Hnan. apply Hnan.
    eapply nth_error_In. exact Hi.
  - eapply (StronglySorted_nth_error double_le); [exact Hs| |exact Hi|exact Hl].
    cbn [length] in Hlt. lia.
Qed.

Lemma eqb_key (a b : double) :
  is_nan a = false -> is_nan b = false -> (a =? b)%float = true -> key a = key b.
Proof.
  intros Ha Hb Heq. rewrite (eqb_equivalent a b Ha Hb) in Heq.
  apply equivalent_key; assumption.
Qed.

(** The histogram table [Learn] builds for a column of numbers without
    NaN, under [Derive]: the cardinality, and the breakpoints when the
    pass completes them. *)
Lemma double_histogram_breakpoints (def : QuantileDefinitionType) (N : Z)
    (heap : Z -> Z) (dvals : list double) :
  no_nan dvals ->
  let histogram := @histogram_of double double_Less dvals in
  let histogramTab : vtkTable :=
    [("Value", vtkDoubleArray (nan :: map fst histogram));
     ("Cardinality", vtkIdTypeArray (-1 :: map snd histogram))] in
  GetColumnByName (fst (derive_histogram def N heap histogramTab)) "Cardinality"
  = Some (vtkIdTypeArray (Z.of_nat (length dvals) :: map snd histogram))
  /\ forall quantCol,
       snd (derive_histogram def N heap histogramTab) = Ok quantCol ->
       exists Qps steps lo hi mid,
         quantCol = Some (vtkDoubleArray Qps)
         /\ Z.of_nat (length Qps) = N + 1
         /\ Qps = map (fun ab => match def with
                                 | InverseCDF => fst ab
                                 | InverseCDFAveragedSteps => midpoint ab
                                 end) steps
         /\ steps = ((lo, lo) :: mid ++ [(hi, hi)])%list
         /\ StronglySorted double_le (flatten steps)
         /\ Forall (fun ab => In (fst ab) dvals /\ In (snd ab) dvals) steps
         /\ (forall d, In d dvals -> double_le lo d /\ double_le d hi).
Proof.
  intros Hnan histogram histogramTab.
  destruct (double_histogram dvals Hnan) as (Hsorted & Hentries & Hpresent & Htotal).
  cbv zeta in Hsorted, Hentries, Hpresent, Htotal. fold histogram in Hsorted, Hentries, Hpresent, Htotal.
  assert (Hkeys : forall k, In k (map fst histogram) -> In k dvals).
  { intros k Hk. apply in_map_iff in Hk. destruct Hk as ([k' c] & <- & Hin).
    apply (Hentries k' c Hin). }
  assert (Hnn : forall d, In d dvals -> is_nan d = false).
  { unfold no_nan in Hnan. rewrite Forall_forall in Hnan. exact Hnan. }
  assert (Hknan : no_nan (map fst histogram)).
  { unfold no_nan. rewrite Forall_forall. intros k Hk. apply Hnn. apply Hkeys. exact Hk. }
  assert (Hlen : length (map fst histogram) = length (map snd histogram))
    by (rewrite !length_map; reflexivity).
  split.
  - pose proof (derive_histogram_table_double def N heap histogramTab
                  (vtkDoubleArray (nan :: map fst histogram)) (-1) (map snd histogram)
                  eq_refl eq_refl) as Htab.
    rewrite Htab.
    + rewrite GetColumnByName_SetColumn_other_double by discriminate.
      rewrite GetColumnByName_SetColumn_same_double. rewrite Htotal. reflexivity.
    + subst histogramTab. cbn [GetNumberOfRows GetNumberOfTuples length].
      rewrite Hlen. reflexivity.
    + exact I.
  - intros quantCol Hd.
    destruct (derive_histogram_steps def N heap histogramTab nan (map fst histogram)
                quantCol eq_refl eq_refl Hknan (double_sorted_weaken _ Hsorted) Hd)
      as (Qps & steps & lo & hi & mid & HQ & HQlen & Hmap & Hss & Hin & Hshape & Hlo & Hhi).
    exists Qps, steps, lo, hi, mid.
    split; [exact HQ|]. split; [exact HQlen|]. split; [exact Hmap|].
    split; [exact Hshape|]. split; [exact Hss|]. split.
    + eapply Forall_impl; [|exact Hin]. intros ab [Ha Hb]. split; apply Hkeys; assumption.
    + intros d Hd'. destruct (Hpresent d Hd') as (k & Hk & Heq).
      pose proof (Hnn d Hd') as Hdn. pose proof (Hnn k (Hkeys k Hk)) as Hkn.
      pose proof (eqb_key d k Hdn Hkn Heq) as Hkey.
      split.
      * apply (leb_key_eq_r lo k d Hdn (eq_sym Hkey)).
        eapply double_sorted_first; [exact Hknan|exact (double_sorted_weaken _ Hsorted)
                                    |exact Hlo|exact Hk].
      * apply (leb_key_eq_l k d hi Hdn (eq_sym Hkey)). rewrite <- Hhi.
        apply double_sorted_last; [exact Hknan|exact (double_sorted_weaken _ Hsorted)
                                  |exact Hk].
Qed.

Section LearnDeriveDouble.

Context (variant_less : Less vtkVariant).

(** X8 ([Learn] followed by [Derive], numeric column): for a column of
    numbers without NaN, [Derive] on the histogram table of [Learn]
    writes the number of cells as cardinality.  Whenever the pass
    completes the quantile column, the column holds N + 1 doubles, one
    per pair of cells of the column: the pairs are in non-decreasing
    order, the first is twice the least cell and the last twice the
    greatest cell of the column.  Under InverseCDF the breakpoint of a
    pair is its first cell, so the breakpoints are cells of the column
    in non-decreasing order, from the least to the greatest.  Under
    InverseCDFAveragedSteps the breakpoint of a pair (a, b) is the
    double .5 * (a + b), and the breakpoints are in non-decreasing
    order as soon as none of them is a NaN. *)
Theorem learn_then_derive_breakpoints (def : QuantileDefinitionType) (N : Z)
    (heap : Z -> Z) (vals : vtkAbstractArray) (dvals : list double)
    (histogramTab : vtkTable) (quantCol : option vtkAbstractArray) :
  tuples vals = Some dvals ->
  no_nan dvals ->
  learn_histogram variant_less vals = Some histogramTab ->
  snd (derive_histogram def N heap histogramTab) = Ok quantCol ->
  (exists counts,
     GetColumnByName (fst (derive_histogram def N heap histogramTab)) "Cardinality"
     = Some (vtkIdTypeArray (Z.of_nat (length dvals) :: counts)))
  /\ exists Qps steps lo hi mid,
       quantCol = Some (vtkDoubleArray Qps)
       /\ Z.of_nat (length Qps) = N + 1
       /\ steps = ((lo, lo) :: mid ++ [(hi, hi)])%list
       /\ StronglySorted double_le (flatten steps)
       /\ Forall (fun ab => In (fst ab) dvals /\ In (snd ab) dvals) steps
       /\ (forall d, In d dvals -> double_le lo d /\ double_le d hi)
       /\ match def with
          | InverseCDF =>
              Qps = map fst steps
              /\ StronglySorted double_le Qps
              /\ hd_error Qps = Some lo
              /\ last Qps lo = hi
          | InverseCDFAveragedSteps =>
              Qps = map midpoint steps
              /\ (no_nan Qps -> StronglySorted double_le Qps)
          end.
Proof.
  intros Htuples Hnan Hlearn Hd.
  rewrite (learn_histogram_numeric variant_less vals dvals Htuples) in Hlearn.
  injection Hlearn as <-.
  destruct (double_histogram_breakpoints def N heap dvals Hnan) as [Hcard Hq].
  cbv zeta in Hcard, Hq.
  split; [eexists; exact Hcard|].
  destruct (Hq quantCol Hd)
    as (Qps & steps & lo & hi & mid & HQ & HQlen & Hmap & Hshape & Hss & Hin & Hbounds).
  exists Qps, steps, lo, hi, mid.
  split; [exact HQ|]. split; [exact HQlen|]. split; [exact Hshape|].
  split; [exact Hss|]. split; [exact Hin|]. split; [exact Hbounds|].
  destruct def;
    [|split; [exact Hmap|rewrite Hmap; apply midpoints_sorted; exact Hss]].
  split; [exact Hmap|]. split; [rewrite Hmap; apply flatten_first_sorted; exact Hss|].
  rewrite Hmap, Hshape. cbn [map fst hd_error]. split; [reflexivity|].
  rewrite map_app. cbn [map fst].
  exact (last_last (lo :: map (fun ab : double * double => fst ab) mid) hi lo).
Qed.

End LearnDeriveDouble.

(** The theorem of X8 on a column of three integers and quartiles. *)
Lemma learn_then_derive_breakpoints_witness :
  let dvals := [3; 1; 2]%float in
  let histogramTab : vtkTable :=
    [("Value", vtkDoubleArray [nan; 1; 2; 3]%float);
     ("Cardinality", vtkIdTypeArray [-1; 1; 1; 1])] in
  (exists counts,
     GetColumnByName (fst (derive_histogram InverseCDF 4 (fun _ => 0) histogramTab))
       "Cardinality"
     = Some (vtkIdTypeArray (Z.of_nat (length dvals) :: counts)))
  /\ exists Qps steps lo hi mid,
       Some (vtkDoubleArray [1; 1; 2; 3; 3]%float) = Some (vtkDoubleArray Qps)
       /\ Z.of_nat (length Qps) = 4 + 1
       /\ steps = ((lo, lo) :: mid ++ [(hi, hi)])%list
       /\ StronglySorted double_le (flatten steps)
       /\ Forall (fun ab => In (fst ab) dvals /\ In (snd ab) dvals) steps
       /\ (forall d, In d dvals -> double_le lo d /\ double_le d hi)
       /\ Qps = map fst steps
       /\ StronglySorted double_le Qps
       /\ hd_error Qps = Some lo
       /\ last Qps lo = hi.
Proof.
  apply (learn_then_derive_breakpoints (fun _ _ => false) InverseCDF 4 (fun _ => 0)
           (vtkIdTypeArray [3; 1; 2]) [3; 1; 2]%float
           [("Value", vtkDoubleArray [nan; 1; 2; 3]%float);
            ("Cardinality", vtkIdTypeArray [-1; 1; 1; 1])]
           (Some (vtkDoubleArray [1; 1; 2; 3; 3]%float))).
  - reflexivity.
  - repeat constructor.
  - vm_compute. reflexivity.
  - vm_compute. reflexivity.
Defined.

(** Where the cells exceed half the greatest double the averaged
    breakpoints are infinite. *)
Lemma averaged_breakpoints_overflow :
  exists histogramTab,
    learn_histogram (fun _ _ => false) (vtkDoubleArray [0x1p1023]%float)
    = Some histogramTab
    /\ snd (derive_histogram InverseCDFAveragedSteps 2 (fun _ => 0) histogramTab)
       = Ok (Some (vtkDoubleArray [infinity; infinity; infinity])).
Proof.
  eexists. split; vm_compute; reflexivity.
Qed.

(** ** Learn, Derive and the quantizer, one after the other *)

(** A value between the first and the last breakpoint falls into one of
    the N buckets between them. *)
Lemma quantize_inside (Qps : list double) (N : Z) (lo hi v : double) :
  1 <= N ->
  Z.of_nat (length Qps) = N + 1 ->
  hd_error Qps = Some lo ->
  last Qps lo = hi ->
  double_le lo v ->
  double_le v hi ->
  exists r, @quantize double double_Less Qps v = Some r /\ 1 <= r <= N.
Proof.
  intros HN Hlen Hhd Hlast Hlo Hhi.
  destruct Qps as [|q0 rest]; [discriminate|].
  injection Hhd as ->. cbv beta iota delta [quantize].
  change (@less double double_Less v lo) with (v <? lo)%float.
  rewrite (leb_ltb_false lo v Hlo).
  pose proof (@quantizer_scan_spec double double_Less (lo :: rest) v (length (lo :: rest)) 1
                ltac:(lia) ltac:(lia)) as Hs.
  cbv zeta in Hs.
  set (r := quantizer_scan (length (lo :: rest)) (lo :: rest) v 1) in *.
  destruct Hs as (Hr & Hbelow & _).
  exists r. split; [reflexivity|].
  assert (HlenN : Z.of_nat (length rest) = N) by (simpl length in Hlen; lia).
  destruct (Z.eq_dec r (N + 1)) as [Hr1|Hne]; [|lia].
  exfalso.
  destruct (Hbelow N ltac:(lia)) as (b & Hb & Hbv).
  assert (Hl : nth_error (lo :: rest) (Z.to_nat N) = Some (last rest lo)).
  { replace (Z.to_nat N) with (length rest) by lia. apply nth_error_last. }
  assert (Hsame : last (lo :: rest) lo = last rest lo).
  { destruct rest as [|y l]; [reflexivity|].
    change (last (lo :: y :: l) lo) with (last (y :: l) lo). reflexivity. }
  rewrite Hsame in Hlast. rewrite Hl in Hb. injection Hb as <-.
  rewrite Hlast in Hbv.
  change (@less double double_Less hi v) with (hi <? v)%float in Hbv.
  rewrite (leb_ltb_false v hi Hhi) in Hbv. discriminate.
Qed.

Section PipelineDouble.

Context (variant_less : Less vtkVariant).
Variable DoubleToString : double -> string.

(** X14 ([Learn], [Derive] and the quantizer in a row, InverseCDF):
    for a column of numbers without NaN and at least one interval,
    whenever [Derive] under InverseCDF ends without error on the model
    [Learn] builds from an empty one, the functor selected for the
    column is a [DataArrayQuantizer] on the cells of the column, and it
    maps every row of the column to a bucket from 1 to N: no cell
    falls below the first or above the last breakpoint. *)
Theorem learn_derive_assess_double (N : Z) (heap : Z -> Z -> Z) (inData : vtkTable)
    (col : string) (vals : vtkAbstractArray) (dvals : list double)
    (meta after : vtkMultiBlockDataSet) :
  1 <= N ->
  GetColumnByName inData col = Some vals ->
  tuples vals = Some dvals ->
  no_nan dvals ->
  Learn variant_less [[col]] (Some inData) (Some []) = Ok (Some meta) ->
  Derive DoubleToString InverseCDF N heap (Some meta) = (Some after, Ok tt) ->
  exists Qps,
    SelectAssessFunctor inData (Some after) [col]
    = Ok (Some (NewDataArrayQuantizer dvals Qps))
    /\ forall id, 0 <= id < Z.of_nat (length dvals) ->
         exists r,
           assess variant_less (NewDataArrayQuantizer dvals Qps) id = Ok r
           /\ 1 <= r <= N.
Proof.
  intros HN Hcol Htuples Hnan Hlearn Hderive.
  destruct (double_histogram_breakpoints InverseCDF N (heap 0) dvals Hnan) as [_ Hq].
  cbv zeta in Hq.
  set (histogramTab :=
         [("Value", vtkDoubleArray (nan :: map fst (@histogram_of double double_Less dvals)));
          ("Cardinality",
           vtkIdTypeArray (-1 :: map snd (@histogram_of double double_Less dvals)))]
         : vtkTable) in *.
  assert (Hmeta : meta = [(col, TableBlock histogramTab)]).
  { unfold Learn in Hlearn. cbn [learn_requests] in Hlearn. rewrite Hcol in Hlearn.
    rewrite (learn_histogram_numeric variant_less vals dvals Htuples) in Hlearn.
    cbn [bind app] in Hlearn. injection Hlearn as <-. reflexivity. }
  subst meta. clear Hlearn. revert Hderive.
  unfold Derive.
  cbn [length Z.of_nat Z.ltb Z.compare Pos.of_succ_nat Pos.compare Pos.compare_cont].
  destruct (quantile_labels DoubleToString N) as [labels| | |]; try discriminate.
  cbn [derive_blocks SafeDownCast_vtkTable].
  pose proof (eq_refl (derive_histogram InverseCDF N (heap 0) histogramTab)) as Hd.
  destruct (derive_histogram InverseCDF N (heap 0) histogramTab) as [tab' r] in Hd at 2 |- *.
  destruct r as [quantCol| | |]; try discriminate.
  assert (Hsnd : snd (derive_histogram InverseCDF N (heap 0) histogramTab) = Ok quantCol)
    by (rewrite Hd; reflexivity).
  destruct (Hq quantCol Hsnd)
    as (Qps & steps & lo & hi & mid & HQ & HQlen & Hmap & Hshape & Hss & _ & Hbounds).
  subst quantCol.
  remember (SetColumn [("Quantile", vtkStringArray labels)] col (vtkDoubleArray Qps))
    as quantileTab eqn:HquantileTab.
  cbn [app]. intros Hderive.
  assert (Hafter : after = [(col, TableBlock tab'); ("Quantiles", TableBlock quantileTab)])
    by congruence.
  clear Hderive. subst after.
  assert (Hhd : hd_error Qps = Some lo).
  { rewrite Hmap, Hshape. reflexivity. }
  assert (Hlast : last Qps lo = hi).
  { rewrite Hmap, Hshape. cbn [map fst]. rewrite map_app. cbn [map fst].
    exact (last_last (lo :: map (fun ab : double * double => fst ab) mid) hi lo). }
  exists Qps. split.
  - unfold SelectAssessFunctor.
    change (Z.of_nat (length [(col, TableBlock tab'); ("Quantiles", TableBlock quantileTab)]))
      with 2.
    change (2 <? 1) with false. change (Z.to_nat (2 - 1)) with 1%nat.
    cbn [nth_error SafeDownCast_vtkTable].
    change (String.eqb "Quantiles" "Quantiles") with true. cbn [negb].
    change (get [col] 0) with (Ok (A:=string) col). cbn [bind].
    rewrite Hcol, HquantileTab, GetColumnByName_SetColumn_same_double, Htuples. reflexivity.
  - intros id Hid. cbn [assess]. unfold run_quantizer.
    destruct (get_in_range dvals id Hid) as (v & Hv).
    assert (Hin : In v dvals)
      by (eapply nth_error_In; apply get_nth_error; exact Hv).
    rewrite Hv. cbn [bind].
    destruct (Hbounds v Hin) as [Hlo Hhi].
    destruct (quantize_inside Qps N lo hi v HN HQlen Hhd Hlast Hlo Hhi) as (r & Hr & Hrange).
    exists r. rewrite Hr. split; [reflexivity|exact Hrange].
Qed.

End PipelineDouble.

(** The theorem of X14 on a column of integers and quartiles. *)
Lemma learn_derive_assess_double_witness :
  let inData : vtkTable := [("x", vtkIdTypeArray [3; 1; 2; 2])] in
  let dvals := [3; 1; 2; 2]%float in
  exists meta after,
    Learn (fun _ _ => false) [["x"]] (Some inData) (Some []) = Ok (Some meta)
    /\ Derive (fun _ => "") InverseCDF 4 (fun _ _ => 0) (Some meta) = (Some after, Ok tt)
    /\ exists Qps,
         SelectAssessFunctor inData (Some after) ["x"]
         = Ok (Some (NewDataArrayQuantizer dvals Qps))
         /\ forall id, 0 <= id < Z.of_nat (length dvals) ->
              exists r,
                assess (fun _ _ => false) (NewDataArrayQuantizer dvals Qps) id = Ok r
                /\ 1 <= r <= 4.
Proof.
  cbv zeta. eexists. eexists.
  split; [vm_compute; reflexivity|]. split; [vm_compute; reflexivity|].
  eapply (learn_derive_assess_double (fun _ _ => false) (fun _ => "") 4 (fun _ _ => 0)
            [("x", vtkIdTypeArray [3; 1; 2; 2])] "x" (vtkIdTypeArray [3; 1; 2; 2])
            [3; 1; 2; 2]%float).
  - lia.
  - reflexivity.
  - reflexivity.
  - repeat constructor.
  - vm_compute. reflexivity.
  - vm_compute. reflexivity.
Defined.

(** Under InverseCDFAveragedSteps a cell can fall outside: where the
    cells exceed half the greatest double every breakpoint is
    +infinity and the cells get bucket 0. *)
Lemma averaged_steps_bucket_zero :
  let inData : vtkTable := [("x", vtkDoubleArray [0x1p1023]%float)] in
  exists meta after dfunc,
    Learn (fun _ _ => false) [["x"]] (Some inData) (Some []) = Ok (Some meta)
    /\ Derive (fun _ => "") InverseCDFAveragedSteps 2 (fun _ _ => 0) (Some meta)
       = (Some after, Ok tt)
    /\ SelectAssessFunctor inData (Some after) ["x"] = Ok (Some dfunc)
    /\ assess (fun _ _ => false) dfunc 0 = Ok 0.
Proof.
  cbv zeta. eexists. eexists. eexists.
  split; [vm_compute; reflexivity|]. split; [vm_compute; reflexivity|].
  split; vm_compute; reflexivity.
Qed.

(** ** The empirical CDF of Test *)

Lemma map_add_keys_double (cdf : CDF) (key : string) (x : double) (k : string) :
  In k (keys (map_add cdf key x)) <-> k = key \/ In k (keys cdf).
Proof.
  induction cdf as [|[k1 v1] cdf IH]; cbn [map_add].
  - simpl. intuition congruence.
  - destruct (String.compare key k1) eqn:Hc.
    + apply String_as_OT.cmp_eq in Hc. subst k1. simpl. intuition congruence.
    + simpl. intuition congruence.
    + simpl. simpl in IH. rewrite IH. intuition congruence.
Qed.

Lemma map_add_ascending_double (cdf : CDF) (key : string) (x : double) :
  ascending cdf -> ascending (map_add cdf key x).
Proof.
  unfold ascending. induction cdf as [|[k1 v1] cdf IH]; intros Hs; cbn [map_add].
  - simpl. constructor; constructor.
  - simpl in Hs. apply StronglySorted_inv in Hs. destruct Hs as [Hs Hall].
    destruct (String.compare key k1) eqn:Hc.
    + simpl. constructor; assumption.
    + simpl. constructor.
      * constructor; assumption.
      * constructor; [exact Hc|].
        eapply Forall_impl; [|exact Hall]. intros k Hk.
        eapply string_lt_trans; [exact Hc|exact Hk].
    + simpl. constructor; [apply IH; assumption|].
      rewrite Forall_forall in *. intros k Hk.
      apply (map_add_keys_double cdf key x k) in Hk. destruct Hk as [->|Hk].
      * apply string_compare_Gt. exact Hc.
      * apply Hall. exact Hk.
Qed.

Lemma lookup_absent (cdf : CDF) (k : string) :
  ~ In k (keys cdf) -> lookup cdf k = None.
Proof.
  induction cdf as [|[k1 v1] cdf IH]; intros Hin; [reflexivity|].
  cbn [lookup]. destruct (String.eqb_spec k k1) as [->|Hne].
  - exfalso. apply Hin. left. reflexivity.
  - apply IH. intros Hk. apply Hin. right. exact Hk.
Qed.

Lemma lookup_present (cdf : CDF) (k : string) :
  In k (keys cdf) -> lookup cdf k <> None.
Proof.
  induction cdf as [|[k1 v1] cdf IH]; intros Hin; [destruct Hin|].
  cbn [lookup]. destruct (String.eqb_spec k k1) as [->|Hne]; [discriminate|].
  apply IH. destruct Hin as [Heq|Hin]; [cbn in Heq; congruence|exact Hin].
Qed.

Lemma ascending_head_absent (k : string) (v : double) (cdf : CDF) (key : string) :
  ascending ((k, v) :: cdf) -> string_lt key k -> ~ In key (keys ((k, v) :: cdf)).
Proof.
  unfold ascending. cbn [keys map fst]. intros Hs Hlt Hin.
  apply StronglySorted_inv in Hs. destruct Hs as [_ Hall].
  destruct Hin as [->|Hin]; [exact (string_lt_irrefl _ Hlt)|].
  rewrite Forall_forall in Hall. specialize (Hall key Hin).
  apply (string_lt_irrefl key). eapply string_lt_trans; eassumption.
Qed.

(** [cdf[key] += x] seen through [find]. *)
Lemma lookup_map_add (cdf : CDF) (key : string) (x : double) (k : string) :
  ascending cdf ->
  lookup (map_add cdf key x) k =
  if String.eqb k key
  then Some match lookup cdf key with
            | Some v => (v + x)%float
            | None => (0 + x)%float
            end
  else lookup cdf k.
Proof.
  induction cdf as [|[k1 v1] cdf IH]; intros Hs; cbn [map_add].
  - cbn [lookup]. destruct (String.eqb k key); reflexivity.
  - destruct (String.compare key k1) eqn:Hc.
    + apply String_as_OT.cmp_eq in Hc. subst k1. cbn [lookup].
      rewrite String.eqb_refl. destruct (String.eqb k key); reflexivity.
    + rewrite (lookup_absent _ key (ascending_head_absent _ _ _ _ Hs Hc)).
      cbn [lookup]. destruct (String.eqb k key); reflexivity.
    + assert (Hne : key <> k1).
      { intros ->. rewrite string_compare_refl in Hc. discriminate. }
      assert (Hs' : ascending cdf).
      { unfold ascending in *. cbn [keys map fst] in Hs.
        apply StronglySorted_inv in Hs. tauto. }
      cbn [lookup]. rewrite (IH Hs').
      destruct (String.eqb_spec key k1) as [Heq|_]; [contradiction|].
      destruct (String.eqb_spec k k1) as [->|Hk].
      * destruct (String.eqb_spec k1 key) as [Heq|_]; [congruence|reflexivity].
      * reflexivity.
Qed.

(** The map after the observations [done]: the entry of a string holds
    what as many additions of [inv_card] as the string has occurrences
    leave in it. *)
Lemma empirical_pdf_entries (inv_card : double) :
  forall (observations done : list string) (cdf : CDF),
    ascending cdf ->
    (forall k, lookup cdf k = match count_occ string_dec done k with
                              | O => None
                              | c => Some (accumulated inv_card c)
                              end) ->
    let cdf' := fold_left (fun cdf o => map_add cdf o inv_card) observations cdf in
    ascending cdf'
    /\ forall k, lookup cdf' k = match count_occ string_dec (done ++ observations) k with
                                 | O => None
                                 | c => Some (accumulated inv_card c)
                                 end.
Proof.
  induction observations as [|o observations IH]; intros done cdf Hs Hl; cbn [fold_left].
  - cbv zeta. rewrite app_nil_r. split; assumption.
  - cbv zeta.
    replace (done ++ o :: observations)%list with ((done ++ [o]) ++ observations)%list
      by (rewrite <- app_assoc; reflexivity).
    apply IH; [apply map_add_ascending_double; exact Hs|].
    intros k. rewrite lookup_map_add by exact Hs.
    rewrite count_occ_app. cbn [count_occ].
    destruct (String.eqb_spec k o) as [->|Hne].
    + destruct (string_dec o o) as [_|Hoo]; [|contradiction].
      rewrite Hl. rewrite Nat.add_1_r.
      destruct (count_occ string_dec done o); reflexivity.
    + destruct (string_dec o k) as [Heq|_]; [congruence|].
      rewrite Nat.add_0_r. apply Hl.
Qed.

Lemma ascending_tail (e : string * double) (cdf : CDF) :
  ascending (e :: cdf) -> ascending cdf /\ ~ In (fst e) (keys cdf).
Proof.
  unfold ascending. cbn [keys map]. intros Hs.
  apply StronglySorted_inv in Hs. destruct Hs as [Hs Hall].
  split; [exact Hs|]. intros Hin. rewrite Forall_forall in Hall.
  exact (string_lt_irrefl _ (Hall _ Hin)).
Qed.

(** A map in key order is determined by what [find] returns. *)
Lemma lookup_entries (f : string -> double) (cdf : CDF) :
  ascending cdf ->
  (forall k, In k (keys cdf) -> lookup cdf k = Some (f k)) ->
  map snd cdf = map f (keys cdf).
Proof.
  induction cdf as [|[k v] cdf IH]; intros Hs Hl; [reflexivity|].
  apply ascending_tail in Hs. destruct Hs as [Hs Hnotin]. cbn [fst] in Hnotin.
  cbn [map keys fst snd]. f_equal.
  - specialize (Hl k (or_introl eq_refl)). cbn [lookup] in Hl.
    rewrite String.eqb_refl in Hl. congruence.
  - apply IH; [exact Hs|]. intros k' Hk'.
    specialize (Hl k' (or_intror Hk')). cbn [lookup] in Hl.
    destruct (String.eqb_spec k' k) as [Heq|_]; [|exact Hl].
    exfalso. apply Hnotin. rewrite <- Heq. exact Hk'.
Qed.

Lemma integrate_keys_double (cdf : CDF) :
  forall sum, keys (fst (integrate sum cdf)) = keys cdf.
Proof.
  induction cdf as [|[k v] cdf IH]; intros sum; cbn [integrate]; [reflexivity|].
  specialize (IH (sum + v)%float). destruct (integrate (sum + v)%float cdf) as [rest total].
  simpl in *. rewrite IH. reflexivity.
Qed.

Lemma integrate_values (cdf : CDF) :
  forall sum,
    map snd (fst (integrate sum cdf)) = running_totals sum (map snd cdf)
    /\ snd (integrate sum cdf) = last (running_totals sum (map snd cdf)) sum.
Proof.
  induction cdf as [|[k v] cdf IH]; intros sum; cbn [integrate]; [split; reflexivity|].
  specialize (IH (sum + v)%float). destruct (integrate (sum + v)%float cdf) as [rest total].
  cbn [fst snd map running_totals] in *. destruct IH as [IH1 IH2].
  split; [rewrite IH1; reflexivity|]. rewrite IH2.
  destruct (running_totals (sum + v)%float (map snd cdf)) as [|d l]; [reflexivity|].
  change (last ((sum + v)%float :: d :: l) sum) with (last (d :: l) sum).
  apply last_cons_any.
Qed.

(** The empirical CDF of a list of observations. *)
Lemma empirical_cdf_entries (inv_card : double) (observations : list string) :
  let cdf := fst (empirical_cdf inv_card observations) in
  let frequency := fun k => accumulated inv_card (count_occ string_dec observations k) in
  ascending cdf
  /\ (forall k, In k (keys cdf) <-> In k observations)
  /\ map snd cdf = running_totals 0%float (map frequency (keys cdf))
  /\ snd (empirical_cdf inv_card observations) = last (map snd cdf) 0%float.
Proof.
  cbv zeta. unfold empirical_cdf.
  destruct (empirical_pdf_entries inv_card observations [] [])
    as [Hs Hl]; [constructor|reflexivity|].
  cbv zeta in Hs, Hl. cbn [app] in Hl. fold (empirical_pdf inv_card observations) in *.
  set (pdf := empirical_pdf inv_card observations) in *.
  assert (Hkeys : forall k, In k (keys pdf) <-> In k observations).
  { intros k. split.
    - intros Hin. apply lookup_present in Hin. rewrite Hl in Hin.
      apply (count_occ_In string_dec).
      destruct (count_occ string_dec observations k); [contradiction|lia].
    - intros Hin. apply (count_occ_In string_dec) in Hin.
      destruct (in_dec string_dec k (keys pdf)) as [Hk|Hk]; [exact Hk|].
      apply lookup_absent in Hk. rewrite Hl in Hk.
      destruct (count_occ string_dec observations k); [lia|discriminate]. }
  destruct (integrate_values pdf 0%float) as [Hv Hsum].
  unfold ascending. rewrite integrate_keys_double.
  split; [exact Hs|]. split; [exact Hkeys|]. split.
  - rewrite Hv. f_equal. apply lookup_entries; [exact Hs|].
    intros k Hk. rewrite Hl. apply Hkeys in Hk. apply (count_occ_In string_dec) in Hk.
    destruct (count_occ string_dec observations k); [lia|reflexivity].
  - rewrite Hsum, Hv. reflexivity.
Qed.

(** What one pass of Test returns, when it returns a trace. *)
Lemma test_column_trace (DoubleToString : double -> string)
    (inData quantileTab : vtkTable) (request : list string) (name : string)
    (trace : test_trace) :
  test_column DoubleToString inData quantileTab request = Ok (Some (name, trace)) ->
  exists col quantCol,
    hd_error request = Some name
    /\ GetColumnByName inData name = Some col
    /\ GetColumnByName quantileTab name = Some quantCol
    /\ let observations := map (ToString DoubleToString) (variants col) in
       let quantiles := map (ToString DoubleToString) (variants quantCol) in
       let inv_card := (1 / double_of_int (GetNumberOfRows inData))%float in
       let inv_nq := (1 / double_of_int (GetNumberOfRows quantileTab))%float in
       trace_cdf trace = fst (empirical_cdf inv_card observations)
       /\ trace_sum trace = snd (empirical_cdf inv_card observations)
       /\ (tolerance <? abs (trace_sum trace - 1))%float = false
       /\ trace_merged trace = insert_quantiles (trace_cdf trace) quantiles
       /\ walk quantiles (GetNumberOfRows quantileTab) inv_nq initial_walk
            (trace_merged trace) = Ok (trace_states trace).
Proof.
  unfold test_column. intros Ht.
  destruct request as [|varName rest]; [discriminate|].
  destruct (GetColumnByName inData varName) as [col|] eqn:Hcol; [|discriminate].
  destruct (GetColumnByName quantileTab varName) as [quantCol|] eqn:Hq; [|discriminate].
  destruct (empirical_cdf _ _) as [cdfEmpirical sum] eqn:Hcdf.
  destruct (tolerance <? abs (sum - 1))%float eqn:Hcheck; [discriminate|].
  apply bind_Ok in Ht. destruct Ht as (sts & Hwalk & Ht). injection Ht as <- <-.
  exists col, quantCol. rewrite Hcol, Hq. cbn [hd_error].
  split; [reflexivity|]. split; [reflexivity|]. split; [reflexivity|].
  cbv zeta. cbn [trace_cdf trace_sum trace_merged trace_states]. rewrite Hcdf.
  cbn [fst snd]. repeat split; try assumption.
Qed.

(** CLAIM C7: in [Test], when a request yields the pass over its column,
    the empirical CDF has one entry per distinct string [ToString] gives
    for the cells of the column, for numeric columns too; the entries
    are in ascending order of these strings, compared as [vtkStdString];
    the entry of a string first receives what as many additions of
    [1. / nRowData] as the string has occurrences leave in it, and then
    the running sum of these values in the order of the entries. *)
Theorem test_column_empirical_cdf (DoubleToString : double -> string)
    (inData quantileTab : vtkTable) (request : list string) (varName : string)
    (col : vtkAbstractArray) (trace : test_trace) :
  GetColumnByName inData varName = Some col ->
  test_column DoubleToString inData quantileTab request = Ok (Some (varName, trace)) ->
  let observations := map (ToString DoubleToString) (variants col) in
  let inv_card := (1 / double_of_int (GetNumberOfRows inData))%float in
  let frequency := fun k => accumulated inv_card (count_occ string_dec observations k) in
  StronglySorted string_lt (keys (trace_cdf trace))
  /\ (forall k, In k (keys (trace_cdf trace)) <-> In k observations)
  /\ map snd (trace_cdf trace) = running_totals 0%float (map frequency (keys (trace_cdf trace)))
  /\ trace_sum trace = last (map snd (trace_cdf trace)) 0%float.
Proof.
  intros Hcol Ht. apply test_column_trace in Ht.
  destruct Ht as (col' & quantCol & _ & Hcol' & _ & Ht). cbv zeta in Ht.
  rewrite Hcol in Hcol'. injection Hcol' as <-.
  destruct Ht as (Hcdf & Hsum & _). cbv zeta. rewrite Hcdf, Hsum.
  apply empirical_cdf_entries.
Qed.

(** The theorem of C7 on the column of the two doubles 9 and 10,
    printed as "9" and "10". *)
Lemma test_column_empirical_cdf_witness :
  let inData : vtkTable := [("x", vtkDoubleArray [9; 10]%float)] in
  let quantileTab : vtkTable :=
    [("Quantile", vtkStringArray ["Minimum"; "Median"; "Maximum"]);
     ("x", vtkDoubleArray [9; 9; 10]%float)] in
  let trace :=
    mk_trace [("10", 0.5); ("9", 1)]%float 1%float [("10", 0.5); ("9", 1)]%float
             [mk_walk 0 0%float 0.5%float; mk_walk 3 1%float 0.5%float] in
  let observations := ["9"; "10"] in
  let frequency := fun k => accumulated (1 / 2)%float (count_occ string_dec observations k) in
  test_column print_integer inData quantileTab ["x"] = Ok (Some ("x", trace))
  /\ StronglySorted string_lt (keys (trace_cdf trace))
  /\ (forall k, In k (keys (trace_cdf trace)) <-> In k observations)
  /\ map snd (trace_cdf trace) = running_totals 0%float (map frequency (keys (trace_cdf trace)))
  /\ trace_sum trace = last (map snd (trace_cdf trace)) 0%float.
Proof.
  cbv zeta. split; [vm_compute; reflexivity|].
  apply (test_column_empirical_cdf print_integer
           [("x", vtkDoubleArray [9; 10]%float)]
           [("Quantile", vtkStringArray ["Minimum"; "Median"; "Maximum"]);
            ("x", vtkDoubleArray [9; 9; 10]%float)]
           ["x"] "x" (vtkDoubleArray [9; 10]%float)).
  - reflexivity.
  - vm_compute. reflexivity.
Defined.

(** Against C7 as claimed (numeric order for numeric columns): the
    column of the two doubles 9 and 10.  As numbers 9 comes before 10;
    the empirical CDF of [Test] holds the entry of "10" first, with the
    value 1/2, and the entry of "9" second, with the value 1. *)
Lemma test_column_empirical_cdf_counterexample :
  let inData : vtkTable := [("x", vtkDoubleArray [9; 10]%float)] in
  let quantileTab : vtkTable :=
    [("Quantile", vtkStringArray ["Minimum"; "Median"; "Maximum"]);
     ("x", vtkDoubleArray [9; 9; 10]%float)] in
  (9 <? 10)%float = true
  /\ exists trace,
       test_column print_integer inData quantileTab ["x"] = Ok (Some ("x", trace))
       /\ trace_cdf trace = [("10", 0.5); ("9", 1)]%float.
Proof.
  cbv zeta. split; [reflexivity|].
  eexists. split; [vm_compute; reflexivity|reflexivity].
Qed.

(** ** The model CDF of Test *)









(** ** Test: the maximum distance and the statistic of a row *)

Lemma walk_step_distance_double (quantiles : list string) (nQuant : Z) (inv_nq : double)
    (st st' : walk_state) (cit : string * double) :
  walk_step quantiles nQuant inv_nq st cit = Ok st' ->
  let d := abs (snd cit - mcdf st')%float in
  Dmn st' = (if (Dmn st <? d)%float then d else Dmn st).
Proof.
  unfold walk_step. intros Hstep.
  apply bind_Ok in Hstep. destruct Hstep as (q0 & _ & Hstep).
  apply bind_Ok in Hstep. destruct Hstep as (model & _ & Hstep).
  injection Hstep as <-. reflexivity.
Qed.

(** [Dmn] along the walk: it is never a NaN and never negative, no
    distance seen so far exceeds it, and it is its initial value or one
    of the distances. *)
Lemma walk_distances_double (quantiles : list string) (nQuant : Z) (inv_nq : double)
    (cdfEmpirical : CDF) :
  forall st sts,
    walk quantiles nQuant inv_nq st cdfEmpirical = Ok sts ->
    double_le 0%float (Dmn st) ->
    let D := Dmn (last sts st) in
    length sts = length cdfEmpirical
    /\ double_le (Dmn st) D
    /\ Forall (fun d => (D <? d)%float = false) (distances cdfEmpirical sts)
    /\ (D = Dmn st \/ In D (distances cdfEmpirical sts)).
Proof.
  induction cdfEmpirical as [|cit rest IH]; intros st sts Hw H0; cbn [walk] in Hw.
  - injection Hw as <-. cbv zeta. cbn [last distances combine map length].
    split; [reflexivity|]. split; [|split; [constructor|left; reflexivity]].
    apply leb_refl. apply leb_not_nan in H0. tauto.
  - apply bind_Ok in Hw. destruct Hw as (st1 & Hstep & Hw).
    apply bind_Ok in Hw. destruct Hw as (sts1 & Hrest & Hw). injection Hw as <-.
    pose proof (walk_step_distance_double _ _ _ _ _ _ Hstep) as HD. cbv zeta in HD.
    set (d := abs (snd cit - mcdf st1)%float) in *.
    assert (Hst : double_le (Dmn st) (Dmn st1) /\ (Dmn st1 <? d)%float = false).
    { rewrite HD. destruct (Dmn st <? d)%float eqn:Hlt.
      - split; [apply ltb_leb; exact Hlt|apply ltb_irrefl].
      - split; [|exact Hlt]. apply leb_refl. apply leb_not_nan in H0. tauto. }
    destruct Hst as [Hup Hd].
    assert (H1 : double_le 0%float (Dmn st1)) by (eapply leb_trans; eassumption).
    destruct (IH st1 sts1 Hrest H1) as (Hlen & Hmono & Hall & Hatt).
    cbv zeta in *.
    assert (Hlast : last (st1 :: sts1) st = last sts1 st1).
    { destruct sts1 as [|s sts1]; [reflexivity|].
      change (last (st1 :: s :: sts1) st) with (last (s :: sts1) st).
      apply last_cons_any. }
    rewrite Hlast. set (D := Dmn (last sts1 st1)) in *.
    change (distances (cit :: rest) (st1 :: sts1)) with (d :: distances rest sts1).
    split; [simpl; lia|]. split; [eapply leb_trans; eassumption|]. split.
    + constructor; [|exact Hall].
      destruct (D <? d)%float eqn:Hlt; [|reflexivity].
      assert (Hc : (Dmn st1 <? d)%float = true).
      { apply ltb_key. apply ltb_key in Hlt. destruct Hlt as (HDn & Hdn & Hlt).
        apply leb_key in Hmono. destruct Hmono as (H1n & _ & Hmono).
        split; [exact H1n|]. split; [exact Hdn|].
        destruct (key_trichotomy (key (Dmn st1)) (key d)) as [Hk|[Hk|Hk]].
        - exact Hk.
        - exfalso. apply Hmono. rewrite Hk. exact Hlt.
        - exfalso. apply Hmono. eapply key_lt_trans; eassumption. }
      congruence.
    + destruct Hatt as [Heq|Hin].
      * rewrite Heq, HD. destruct (Dmn st <? d)%float.
        -- right. left. reflexivity.
        -- left. reflexivity.
      * right. right. exact Hin.
Qed.

(** X12 ([Test], one row of the output): when a request yields a row,
    the row carries the first name of the request, the maximum
    distance [Dmn] the walk over the merged CDF leaves, and the double
    [sqrt( nRowData ) * Dmn].  [Dmn] is not a NaN and not negative; it
    is 0 or the distance of the empirical from the model CDF at one of
    the points, and the distance at no point exceeds it. *)
Theorem test_request_row (DoubleToString : double -> string)
    (inData quantileTab : vtkTable) (request : list string)
    (varName : string) (D KS : double) :
  test_request DoubleToString inData quantileTab request = Ok (Some (varName, D, KS)) ->
  hd_error request = Some varName
  /\ KS = (sqrt (double_of_int (GetNumberOfRows inData)) * D)%float
  /\ double_le 0%float D
  /\ exists trace,
       test_column DoubleToString inData quantileTab request = Ok (Some (varName, trace))
       /\ D = Dmn (last (trace_states trace) initial_walk)
       /\ Forall (fun d => (D <? d)%float = false)
                 (distances (trace_merged trace) (trace_states trace))
       /\ (D = 0%float \/ In D (distances (trace_merged trace) (trace_states trace))).
Proof.
  unfold test_request. intros Hrow.
  apply bind_Ok in Hrow. destruct Hrow as ([[name trace]|] & Hcol & Hrow);
    [|discriminate].
  injection Hrow as -> <- <-.
  pose proof (test_column_trace _ _ _ _ _ _ Hcol) as Ht.
  destruct Ht as (col & quantCol & Hhd & _ & _ & Ht). cbv zeta in Ht.
  destruct Ht as (_ & _ & _ & _ & Hwalk).
  destruct (walk_distances_double _ _ _ _ _ _ Hwalk) as (_ & Hmono & Hall & Hatt);
    [reflexivity|].
  cbv zeta in Hmono, Hall, Hatt. cbn [initial_walk Dmn] in Hmono, Hatt.
  split; [exact Hhd|]. split; [reflexivity|]. split; [exact Hmono|].
  exists trace. split; [exact Hcol|]. split; [reflexivity|]. split; assumption.
Qed.

(** The theorem of X12 on four observations and the breakpoints 3
    and 4. *)
Lemma test_request_row_witness :
  let inData : vtkTable := [("x", vtkDoubleArray [1; 2; 2; 5]%float)] in
  let quantileTab : vtkTable :=
    [("Quantile", vtkStringArray ["Minimum"; "Maximum"]);
     ("x", vtkDoubleArray [3; 4]%float)] in
  test_request print_integer inData quantileTab ["x"] = Ok (Some ("x", 0.75, 1.5))%float
  /\ hd_error ["x"] = Some "x"
  /\ 1.5%float = (sqrt (double_of_int (GetNumberOfRows inData)) * 0.75)%float
  /\ double_le 0%float 0.75%float
  /\ exists trace,
       test_column print_integer inData quantileTab ["x"] = Ok (Some ("x", trace))
       /\ 0.75%float = Dmn (last (trace_states trace) initial_walk)
       /\ Forall (fun d => (0.75 <? d)%float = false)
                 (distances (trace_merged trace) (trace_states trace))
       /\ (0.75%float = 0%float
           \/ In 0.75%float (distances (trace_merged trace) (trace_states trace))).
Proof.
  cbv zeta. split; [vm_compute; reflexivity|].
  apply (test_request_row print_integer
           [("x", vtkDoubleArray [1; 2; 2; 5]%float)]
           [("Quantile", vtkStringArray ["Minimum"; "Maximum"]);
            ("x", vtkDoubleArray [3; 4]%float)]
           ["x"] "x" 0.75%float 1.5%float).
  vm_compute. reflexivity.
Defined.

(** The maximum distance can exceed 1: nine observations below the
    one breakpoint.  Nine additions of [1. / 9] leave the first double
    above 1 in the one entry of the empirical CDF, the sanity check
    lets it pass, and where the model CDF is still 0 the distance is
    that double. *)
Lemma test_request_distance_above_one :
  let inData : vtkTable :=
    [("x", vtkStringArray ["a"; "a"; "a"; "a"; "a"; "a"; "a"; "a"; "a"])] in
  let quantileTab : vtkTable :=
    [("Quantile", vtkStringArray ["Minimum"; "Maximum"]);
     ("x", vtkStringArray ["b"; "b"])] in
  exists D KS,
    test_request (fun _ => "") inData quantileTab ["x"] = Ok (Some ("x", D, KS))
    /\ (1 <? D)%float = true
    /\ D = Nat.iter 9 (fun v => (v + 1 / double_of_int 9)%float) 0%float.
Proof.
  cbv zeta. eexists. eexists. split; [vm_compute; reflexivity|].
  split; vm_compute; reflexivity.
Qed.

(** ** No loop uses up its fuel *)

Lemma interior_quantile_ends (def : QuantileDefinitionType) (cdf : cdf_array)
    (nRowHist : Z) (dh : double) (rank k : Z) :
  interior_quantile def cdf nRowHist dh rank k <> Unfinished.
Proof.
  unfold interior_quantile.
  apply bind_finished; [apply advance_rank_finished|]. intros rank1.
  destruct def; [discriminate|].
  destruct (negb _); [|discriminate].
  apply bind_finished; [apply advance_rank_finished|]. discriminate.
Qed.

Lemma interior_quantiles_end (def : QuantileDefinitionType) (cdf : cdf_array)
    (nRowHist : Z) (dh : double) (ks : list Z) :
  forall rank, interior_quantiles def cdf nRowHist dh rank ks <> Unfinished.
Proof.
  induction ks as [|k ks IH]; intros rank; cbn [interior_quantiles]; [discriminate|].
  apply bind_finished; [apply interior_quantile_ends|]. intros p.
  apply bind_finished; [apply IH|]. discriminate.
Qed.

Lemma quantile_values_end (def : QuantileDefinitionType) (vals : vtkAbstractArray)
    (quantileIndices : list (Z * Z)) :
  quantile_values def vals quantileIndices <> Unfinished.
Proof.
  assert (Hi : forall dvals qit, interpolate def dvals qit <> Unfinished).
  { intros dvals qit. destruct def; cbn [interpolate]; [apply get_finished|].
    apply bind_finished; [apply get_finished|]. intros a.
    apply bind_finished; [apply get_finished|]. discriminate. }
  destruct vals; cbn [quantile_values]; try discriminate;
    (apply bind_finished; [apply map_result_finished|discriminate]);
    intros qit; try apply Hi; apply get_finished.
Qed.

Lemma derive_histogram_ends (def : QuantileDefinitionType) (N : Z) (heap : Z -> Z)
    (histogramTab : vtkTable) :
  snd (derive_histogram def N heap histogramTab) <> Unfinished.
Proof.
  unfold derive_histogram.
  destruct (GetColumnByName histogramTab "Value") as [vals|]; [|discriminate].
  destruct (GetColumnByName histogramTab "Cardinality") as [[| [|c0 card'] | | |]|];
    try discriminate.
  assert (Hbody : forall cdf nRowHist n,
             (quantileIndices <- quantile_indices def N cdf nRowHist n ;;
              if Z.of_nat (length quantileIndices) <=? N + 1
              then quantile_values def vals quantileIndices
              else OutOfBounds) <> Unfinished).
  { intros cdf nRowHist n. apply bind_finished.
    - unfold quantile_indices.
      apply bind_finished; [apply interior_quantiles_end|]. discriminate.
    - intros quantileIndices. destruct (_ <=? _); [|discriminate].
      apply quantile_values_end. }
  destruct (GetColumnByName histogramTab "P") as [[| | | |]|]; cbn [snd];
    try discriminate; apply Hbody.
Qed.

Lemma derive_blocks_end (def : QuantileDefinitionType) (N : Z) (heap : Z -> Z -> Z)
    (blocks : vtkMultiBlockDataSet) :
  forall b quantileTab, snd (derive_blocks def N heap b blocks quantileTab) <> Unfinished.
Proof.
  induction blocks as [|[varName block] blocks IH]; intros b quantileTab;
    cbn [derive_blocks]; [discriminate|].
  destruct (SafeDownCast_vtkTable block) as [histogramTab|].
  - pose proof (derive_histogram_ends def N (heap b) histogramTab) as Hh.
    destruct (derive_histogram def N (heap b) histogramTab) as [tab' r]. cbn [snd] in Hh.
    destruct r as [quantCol| | |]; try discriminate; [|congruence].
    match goal with
    | |- context [derive_blocks def N heap (b + 1) blocks ?qt] =>
        specialize (IH (b + 1) qt);
        destruct (derive_blocks def N heap (b + 1) blocks qt) as [rest' r']
    end.
    exact IH.
  - specialize (IH (b + 1) quantileTab).
    destruct (derive_blocks def N heap (b + 1) blocks quantileTab) as [rest' r'].
    exact IH.
Qed.

(** [Derive] comes to an end on every model. *)
Lemma Derive_ends (DoubleToString : double -> string) (def : QuantileDefinitionType)
    (N : Z) (heap : Z -> Z -> Z) (inMeta : option vtkMultiBlockDataSet) :
  snd (Derive DoubleToString def N heap inMeta) <> Unfinished.
Proof.
  unfold Derive. destruct inMeta as [blocks|]; [|discriminate].
  destruct (_ <? 1); [discriminate|].
  assert (Hlabels : quantile_labels DoubleToString N <> Unfinished).
  { unfold quantile_labels. apply map_result_finished. intros i.
    unfold quantile_label. destruct (N =? 0); [discriminate|].
    destruct (negb _); discriminate. }
  destruct (quantile_labels DoubleToString N) as [labels| | |]; try discriminate;
    [|congruence].
  match goal with
  | |- context [derive_blocks def N heap 0 blocks ?qt] =>
      pose proof (derive_blocks_end def N heap blocks 0 qt) as Hb;
      destruct (derive_blocks def N heap 0 blocks qt) as [blocks' r]
  end.
  cbn [snd] in Hb. destruct r; try discriminate. congruence.
Qed.

Lemma walk_ends (quantiles : list string) (nQuant : Z) (inv_nq : double)
    (cdfEmpirical : CDF) :
  forall st, walk quantiles nQuant inv_nq st cdfEmpirical <> Unfinished.
Proof.
  induction cdfEmpirical as [|cit rest IH]; intros st; cbn [walk]; [discriminate|].
  apply bind_finished.
  - unfold walk_step. apply bind_finished; [apply get_finished|]. intros q0.
    apply bind_finished; [|discriminate].
    destruct (string_ge (fst cit) q0); [|discriminate].
    apply bind_finished; [|discriminate].
    apply advance_quantile_finished. lia.
  - intros st'. apply bind_finished; [apply IH|]. discriminate.
Qed.

Section TestEnds.

Variable DoubleToString : double -> string.

Lemma test_column_ends (inData quantileTab : vtkTable) (request : list string) :
  test_column DoubleToString inData quantileTab request <> Unfinished.
Proof.
  unfold test_column. destruct request as [|varName _]; [discriminate|].
  destruct (GetColumnByName inData varName) as [col|]; [|discriminate].
  destruct (GetColumnByName quantileTab varName) as [quantCol|]; [|discriminate].
  destruct (empirical_cdf _ _) as [cdfEmpirical sum].
  destruct (tolerance <? _)%float; [discriminate|].
  apply bind_finished; [apply walk_ends|]. discriminate.
Qed.

Lemma test_requests_end (inData quantileTab : vtkTable) (Requests : list (list string)) :
  test_requests DoubleToString inData quantileTab Requests <> Unfinished.
Proof.
  induction Requests as [|request rest IH]; cbn [test_requests]; [discriminate|].
  apply bind_finished.
  - unfold test_request. apply bind_finished; [apply test_column_ends|]. discriminate.
  - intros row. apply bind_finished; [exact IH|]. discriminate.
Qed.

(** [Test] comes to an end on every input. *)
Lemma Test_ends (Requests : list (list string)) (inData : vtkTable)
    (inMeta : option vtkMultiBlockDataSet) (outMeta : option vtkTable) :
  Test DoubleToString Requests inData inMeta outMeta <> Unfinished.
Proof.
  unfold Test. destruct inMeta as [blocks|]; [|discriminate].
  destruct (_ <? 1); [discriminate|].
  destruct (nth_error _ _) as [[name block]|]; [|discriminate].
  destruct (SafeDownCast_vtkTable block) as [quantileTab|]; [|discriminate].
  destruct (negb _); [discriminate|].
  destruct outMeta as [out|]; [|discriminate].
  apply bind_finished; [apply test_requests_end|]. discriminate.
Qed.

End TestEnds.
